(** * stitch-magic: the sequence generator and the export pipeline of
    [src/pages/Index.tsx], embedded shallowly.

    The file has three parts: the program (the generator, the state of the
    component, the export pipeline), the vocabulary of the properties, and
    the lemmas and theorems.

    Conventions of the embedding.
    - A JavaScript [number] that holds a media duration is a binary64 float
      ([PrimFloat.float]); array lengths, indices and counters are [nat];
      the combination ceiling is an integer, computed in [Z].
    - [binomialCoefficient] multiplies fractions; its running product is kept
      in exact rationals ([Q]).  Binary64 rounds [(n+1-i)/i]; the remarks
      [binomialProduct64_small] and [binomialProduct64_15_3] show where that
      is harmless and where the floored product falls one short.  The same
      code with the numbers of JavaScript is [binomialCoefficient64],
      [targetSequences64] and [generate64]; for the registries of up to 128
      clips [generate64] and [generate] return the same (see
      [generate64_generate]).
    - [Math.random()] is read from an oracle: the t-th call returns the
      fraction [numer / (numer + slack + 1)], which ranges over the rationals
      of the half-open unit interval.
    - React state is a record; setters build a new record.  The source never
      mutates a clip or a sequence in place (it spreads and filters), so
      values stand for the objects.
    - FFmpeg's virtual file system is a finite map from names to contents;
      [ffmpeg.exec] is an opaque collaborator, a variable of the section.
    - Toasts, [console.error] and downloads are recorded as events, the
      calls on the FFmpeg instance as a list of calls. *)

From Stdlib Require Import QArith.QArith_base QArith.Qround.
From Stdlib Require Import Floats.PrimFloat Strings.Ascii.
From Stdlib Require Floats.FloatOps Floats.SpecFloat Numbers.Cyclic.Int63.Uint63.
From stdpp Require Import gmap strings list sorting pretty.

(** * Part I: the program *)

(** ** Data model (lines 9-21) *)

(** [type: "hook" | "selling-point" | "cta"] *)
Inductive ClipType := Hook | SellingPoint | Cta.

Global Instance ClipType_eq_dec : EqDecision ClipType.
Proof. solve_decision. Defined.

(** A [File] is its content; [fetchFile] reads it. *)
Definition File := list Byte.byte.

(** [interface VideoClip]; the fields carry a prefix because [id] and [type]
    are taken. *)
Record VideoClip := mkClip {
  clip_id : string;
  clip_name : string;
  clip_duration : float;
  clip_type : ClipType;
  clip_file : option File
}.

(** [interface Sequence] *)
Record Sequence := mkSequence {
  seq_id : string;
  seq_clips : list VideoClip;
  seq_duration : float
}.

(** What an out-of-range array read would give; the generator never reads
    out of range (see [iteration_in_range]). *)
Global Instance VideoClip_inhabited : Inhabited VideoClip :=
  populate (mkClip "" "" 0%float SellingPoint None).

(** ** Random numbers *)

(** One result of [Math.random()]: the fraction
    [numer / (numer + slack + 1)], always in [0, 1). *)
Record Sample := mkSample { numer : nat; slack : nat }.

(** [Math.floor(Math.random() * n)] *)
Definition randomFloor (r : Sample) (n : nat) : nat :=
  (numer r * n) `div` (numer r + slack r + 1).

(** ** [binomialCoefficient] (lines 372-381) *)

Definition binomialStep (n : nat) (result : Q) (i : nat) : Q :=
  Qmult result (Qdiv (inject_Z (Z.of_nat n + 1 - Z.of_nat i)) (inject_Z (Z.of_nat i))).

Definition binomialCoefficient (n k : nat) : Z :=
  if decide (n < k) then 0%Z
  else if decide (k = 0 ∨ k = n) then 1%Z
  else Qfloor (foldl (binomialStep n) (inject_Z 1) (seq 1 k)).

(** ** The combination key (lines 235-239) *)

(** [Array.prototype.join] on strings *)
Fixpoint join (sep : string) (l : list string) : string :=
  match l with
  | [] => ""
  | x :: l' =>
      match l' with
      | [] => x
      | _ :: _ => x +:+ sep +:+ join sep l'
      end
  end.

(** [Array.prototype.sort] without a comparator orders strings by code
    units; the sorted result of a list of strings is unique, so any sorting
    function stands for it. *)
Definition sort (l : list string) : list string := merge_sort String.le l.

Definition combinationKey (selectedHook : VideoClip)
    (selectedSellingPoints : list VideoClip) (selectedCTA : VideoClip) : string :=
  join "|" (clip_id selectedHook
            :: sort (clip_id <$> selectedSellingPoints) ++ [clip_id selectedCTA]).

(** [sequenceClips.reduce((acc, clip) => acc + clip.duration, 0)] *)
Definition totalDuration (sequenceClips : list VideoClip) : float :=
  foldl (λ acc clip, (acc + clip_duration clip)%float) 0%float sequenceClips.

(** ** [generateSequences] (lines 181-263) *)

(** [[a[i], a[j]] = [a[j], a[i]]]: the right-hand side is read first, then
    [a[i]] and [a[j]] are written in that order. *)
Definition swap (a : list nat) (i j : nat) : list nat :=
  <[j := a !!! i]> (<[i := a !!! j]> a).

Definition maxAttempts : nat := 100.

Section generator.
(** [random t] is the result of the t-th call of [Math.random()] made by
    one run of [generateSequences]. *)
Variable random : nat → Sample.

(** The Fisher-Yates loop (lines 226-229), entered with [i = length - 1];
    [t] counts the calls of [Math.random()]. *)
Fixpoint shuffleLoop (i : nat) (shuffledIndices : list nat) (t : nat)
    : list nat * nat :=
  match i with
  | 0 => (shuffledIndices, t)
  | S i' =>
      let j := randomFloor (random t) (i + 1) in
      shuffleLoop i' (swap shuffledIndices i j) (S t)
  end.

Variables hooks sellingPoints ctas : list VideoClip.

Definition maxSellingPoints : nat := 3 `min` length sellingPoints.

Definition maxCombinations : Z :=
  (Z.of_nat (length hooks) * Z.of_nat (length ctas) *
   foldl Z.add 0 ((λ i, binomialCoefficient (length sellingPoints) (i + 1))
                    <$> seq 0 maxSellingPoints))%Z.

Definition targetSequences : Z := 10 `min` maxCombinations.

(** The variables of the [while] loop, and the number of random draws. *)
Record LoopState := mkLoop {
  newSequences : list Sequence;
  usedCombinations : gset string;
  attempts : nat;
  draws : nat
}.

(** What one attempt selects (lines 216-233). *)
Record Selection := mkSelection {
  selectedHook : VideoClip;
  selectedSellingPoints : list VideoClip;
  selectedCTA : VideoClip;
  drawsAfter : nat
}.

Definition numSellingPointsAt (t : nat) : nat :=
  (randomFloor (random t) maxSellingPoints + 1) `min` length sellingPoints.

Definition shuffledIndicesAt (t : nat) : list nat * nat :=
  shuffleLoop (length sellingPoints - 1) (seq 0 (length sellingPoints)) t.

Definition select (t : nat) : Selection :=
  let h := hooks !!! randomFloor (random t) (length hooks) in
  let c := ctas !!! randomFloor (random (t + 1)) (length ctas) in
  let numSellingPoints := numSellingPointsAt (t + 2) in
  let '(shuffledIndices, t') := shuffledIndicesAt (t + 3) in
  mkSelection h
    ((λ index, sellingPoints !!! index) <$> take numSellingPoints shuffledIndices)
    c t'.

(** The body of the [while] loop (lines 215-257). *)
Definition iteration (st : LoopState) : LoopState :=
  let sel := select (draws st) in
  let key := combinationKey (selectedHook sel) (selectedSellingPoints sel)
               (selectedCTA sel) in
  if decide (key ∈ usedCombinations st) then
    mkLoop (newSequences st) (usedCombinations st) (S (attempts st)) (drawsAfter sel)
  else
    let sequenceClips :=
      selectedHook sel :: selectedSellingPoints sel ++ [selectedCTA sel] in
    mkLoop
      (newSequences st ++
         [mkSequence ("sequence-" +:+ pretty (length (newSequences st) + 1))
            sequenceClips (totalDuration sequenceClips)])
      ({[key]} ∪ usedCombinations st)
      (S (attempts st)) (drawsAfter sel).

(** [newSequences.length < targetSequences && attempts < maxAttempts] *)
Definition continue (st : LoopState) : bool :=
  bool_decide (Z.of_nat (length (newSequences st)) < targetSequences)%Z
  && bool_decide (attempts st < maxAttempts).

(** The [while] loop; every iteration increments [attempts], so
    [maxAttempts] units of fuel are never used up (see [whileLoop_exit]). *)
Fixpoint whileLoop (fuel : nat) (st : LoopState) : LoopState :=
  match fuel with
  | 0 => st
  | S fuel' => if continue st then whileLoop fuel' (iteration st) else st
  end.

Definition initialLoop : LoopState := mkLoop [] ∅ 0 0.

Definition finalLoop : LoopState := whileLoop maxAttempts initialLoop.
End generator.

(** The ways [generateSequences] ends: the two early returns, named after the
    error kinds of the design ([toast.error("Please upload some video clips
    first")], [toast.error("You need at least one hook and one CTA clip")]),
    and the normal end with [newSequences]. *)
Inductive Generation :=
  | EmptyInput
  | MissingRole
  | Generated (newSequences : list Sequence).

Definition ofType (ty : ClipType) (availableClips : list VideoClip) : list VideoClip :=
  filter (λ clip, clip_type clip = ty) availableClips.

Definition generate (random : nat → Sample) (availableClips : list VideoClip)
    : Generation :=
  if decide (length availableClips = 0) then EmptyInput
  else
    let hooks := ofType Hook availableClips in
    let sellingPoints := ofType SellingPoint availableClips in
    let ctas := ofType Cta availableClips in
    if decide (length hooks = 0 ∨ length ctas = 0) then MissingRole
    else Generated (newSequences (finalLoop random hooks sellingPoints ctas)).


(** ** The component's state and its effects *)

(** What [ffmpeg.writeFile] stores: the bytes of a clip, or the text of the
    manifest. *)
Inductive FileData :=
  | Binary (bytes : File)
  | Text (content : string).

(** What the export code throws or what an FFmpeg call rejects with. *)
Inductive JsError :=
  | MissingFile (clipName : string)
      (* new Error(`Missing file for clip: ${clip.name}`) *)
  | FfmpegFailure (message : string).

(** The calls made on the FFmpeg instance, in order. *)
Inductive FfmpegCall :=
  | WriteFile (path : string) (data : FileData)
  | Exec (args : list string)
  | ReadFile (path : string)
  | DeleteFile (path : string).

Inductive Blob :=
  | VideoBlob (data : FileData)
  | ZipBlob (entries : list (string * FileData)).

(** What the user and the browser see: toasts, [console.error], and the
    downloads triggered by clicking a generated link. *)
Inductive Event :=
  | ToastSuccess (message : string)
  | ToastError (message : string)
  | ConsoleError (label : string) (error : JsError)
  | Download (filename : string) (content : Blob).

(** The [useState] cells of [Index], the file system of the FFmpeg instance,
    and what has been observed so far.  [ffmpegReady] stands for
    [!(ffmpegLoading || !ffmpeg)]. *)
Record World := mkWorld {
  availableClips : list VideoClip;
  sequences : list Sequence;
  loading : bool;
  ffmpegReady : bool;
  vfs : gmap string FileData;
  calls : list FfmpegCall;
  events : list Event
}.

Definition setAvailableClips (f : list VideoClip → list VideoClip) (w : World) : World :=
  mkWorld (f (availableClips w)) (sequences w) (loading w) (ffmpegReady w)
    (vfs w) (calls w) (events w).

Definition setSequences (f : list Sequence → list Sequence) (w : World) : World :=
  mkWorld (availableClips w) (f (sequences w)) (loading w) (ffmpegReady w)
    (vfs w) (calls w) (events w).

Definition setLoading (b : bool) (w : World) : World :=
  mkWorld (availableClips w) (sequences w) b (ffmpegReady w)
    (vfs w) (calls w) (events w).

Definition withVfs (fs : gmap string FileData) (w : World) : World :=
  mkWorld (availableClips w) (sequences w) (loading w) (ffmpegReady w)
    fs (calls w) (events w).

Definition logCall (c : FfmpegCall) (w : World) : World :=
  mkWorld (availableClips w) (sequences w) (loading w) (ffmpegReady w)
    (vfs w) (calls w ++ [c]) (events w).

Definition emit (e : Event) (w : World) : World :=
  mkWorld (availableClips w) (sequences w) (loading w) (ffmpegReady w)
    (vfs w) (calls w) (events w ++ [e]).

(** ** The clip registry (lines 137-179) *)

(** [`clip-${Date.now()}-${Math.random()}`]: [now] is the integer
    [Date.now()] returns, [randomText] the text that the template literal
    makes of the result of [Math.random()]. *)
Definition newClipId (now : N) (randomText : string) : string :=
  "clip-" +:+ pretty now +:+ "-" +:+ randomText.

(** [setAvailableClips(prev => [...prev, newClip])] *)
Definition addClip (newClip : VideoClip) : World → World :=
  setAvailableClips (λ prev, prev ++ [newClip]).

Definition updateClipType (clipId : string) (newType : ClipType) : World → World :=
  setAvailableClips (λ prev,
    (λ clip, if decide (clip_id clip = clipId)
             then mkClip (clip_id clip) (clip_name clip) (clip_duration clip)
                    newType (clip_file clip)
             else clip) <$> prev).

Definition removeClip (clipId : string) (w : World) : World :=
  emit (ToastSuccess "Clip removed")
    (setAvailableClips (filter (λ clip, clip_id clip ≠ clipId)) w).

Definition removeAllClips (w : World) : World :=
  emit (ToastSuccess "All clips removed") (setAvailableClips (λ _, []) w).

Definition deleteSequence (sequenceId : string) (w : World) : World :=
  emit (ToastSuccess "Sequence removed")
    (setSequences (filter (λ s, seq_id s ≠ sequenceId)) w).

(** [generateSequences] on the state: the early returns leave [sequences]
    alone, the normal end replaces it. *)
Definition generateSequences (random : nat → Sample) (w : World) : World :=
  match generate random (availableClips w) with
  | EmptyInput => emit (ToastError "Please upload some video clips first") w
  | MissingRole => emit (ToastError "You need at least one hook and one CTA clip") w
  | Generated newSequences =>
      emit (ToastSuccess ("Generated " +:+ pretty (length newSequences)
                          +:+ " unique sequences!"))
        (setLoading false (setSequences (λ _, newSequences) (setLoading true w)))
  end.

(** ** Asynchronous code: state passing with exceptions *)

(** An [async] computation ends normally with a value or throws. *)
Definition Async (A : Type) : Type := World → World * (JsError + A).

Global Instance Async_ret : MRet Async := λ A a w, (w, inr a).

Global Instance Async_bind : MBind Async := λ A B f m w,
  match m w with
  | (w', inl e) => (w', inl e)
  | (w', inr a) => f a w'
  end.

Definition throw {A} (e : JsError) : Async A := λ w, (w, inl e).

(** [try { body } catch (error) { handler } finally { final }] *)
Definition tryCatchFinally {A} (body : Async A) (handler : JsError → Async A)
    (final : Async unit) : Async A := λ w,
  let '(w1, r1) := body w in
  let '(w2, r2) := match r1 with
                   | inl e => handler e w1
                   | inr a => (w1, inr a)
                   end in
  let '(w3, r3) := final w2 in
  (w3, match r3 with inl e => inl e | inr _ => r2 end).

Definition when (b : bool) (m : Async unit) : Async unit :=
  if b then m else mret tt.

Definition effect (f : World → World) : Async unit := λ w, (f w, inr tt).

Definition toast (e : Event) : Async unit := effect (emit e).

(** [for (let i = start; i < start + count; i++) body(i)] *)
Fixpoint forRange (start count : nat) (body : nat → Async unit) : Async unit :=
  match count with
  | 0 => mret tt
  | S count' => body start ;; forRange (S start) count' body
  end.

(** ** The export pipeline (lines 265-370) *)

Record Artifact := mkArtifact { art_name : string; art_data : FileData }.

(** The line feed of [`file input${i}.mp4\n`]. *)
Definition LF : string := String (Ascii.ascii_of_nat 10) "".

(** [`input${i}.mp4`] *)
Definition inputName (i : nat) : string := "input" +:+ pretty i +:+ ".mp4".

Definition concatArgs : list string :=
  ["-f"; "concat"; "-safe"; "0"; "-i"; "list.txt"; "-c"; "copy"; "output.mp4"].

(** [!index]: [undefined] and [0] are falsy. *)
Definition falsy (index : option nat) : bool :=
  match index with
  | None | Some 0 => true
  | Some (S _) => false
  end.

(** [zip.file(name, data)]: a new entry goes last, an entry of the same name
    is replaced where it stands. *)
Fixpoint zipFile (name : string) (data : FileData) (zip : list (string * FileData))
    : list (string * FileData) :=
  match zip with
  | [] => [(name, data)]
  | (n, d) :: rest =>
      if decide (n = name) then (name, data) :: rest
      else (n, d) :: zipFile name data rest
  end.

Section export.
(** [ffmpeg.exec], the external media-processing service: from the arguments
    and the file system it gives the file system it leaves behind, and the
    message of its rejection if it fails. *)
Variable ffmpegExec :
  list string → gmap string FileData → gmap string FileData * option string.

Definition writeFile (path : string) (data : FileData) : Async unit :=
  effect (λ w, logCall (WriteFile path data) (withVfs (<[path := data]> (vfs w)) w)).

Definition readFile (path : string) : Async FileData := λ w,
  match vfs w !! path with
  | Some data => (logCall (ReadFile path) w, inr data)
  | None => (logCall (ReadFile path) w, inl (FfmpegFailure "FS error"))
  end.

Definition deleteFile (path : string) : Async unit := λ w,
  match vfs w !! path with
  | Some _ => (logCall (DeleteFile path) (withVfs (delete path (vfs w)) w), inr tt)
  | None => (logCall (DeleteFile path) w, inl (FfmpegFailure "FS error"))
  end.

Definition exec (args : list string) : Async unit := λ w,
  let '(fs, failure) := ffmpegExec args (vfs w) in
  (logCall (Exec args) (withVfs fs w),
   match failure with
   | Some message => inl (FfmpegFailure message)
   | None => inr tt
   end).

(** The staging loop (lines 277-287), at clip [i] with the manifest text
    built so far. *)
Fixpoint stageClips (clips : list VideoClip) (i : nat) (listFileContent : string)
    : Async string :=
  match clips with
  | [] => mret listFileContent
  | clip :: rest =>
      match clip_file clip with
      | None => throw (MissingFile (clip_name clip))
      | Some file =>
          writeFile (inputName i) (Binary file) ;;
          stageClips rest (S i) (listFileContent +:+ "file " +:+ inputName i +:+ LF)
      end
  end.

(** The [try] block of [exportSequence], first part (lines 272-297): stage
    the clips, write the manifest, run the concatenation. *)
Definition prepare (sequence : Sequence) (index : option nat) : Async unit :=
  effect (setLoading true) ;;
  when (falsy index) (toast (ToastSuccess "Starting export...")) ;;
  listFileContent ← stageClips (seq_clips sequence) 0 "" ;
  writeFile "list.txt" (Text listFileContent) ;;
  exec concatArgs.

(** The [try] block, second part (lines 299-324): read the output and hand
    it over.  With an index the function returns at line 302; lines 318-324
    run without one. *)
Definition deliver (sequence : Sequence) (index : option nat)
    : Async (option Artifact) :=
  outputData ← readFile "output.mp4" ;
  match index with
  | Some i =>
      mret (Some (mkArtifact ("restitched " +:+ pretty (i + 1) +:+ ".mp4") outputData))
  | None =>
      toast (Download ("restitched " +:+ seq_id sequence +:+ ".mp4")
               (VideoBlob outputData)) ;;
      forRange 0 (length (seq_clips sequence)) (λ i, deleteFile (inputName i)) ;;
      deleteFile "list.txt" ;;
      deleteFile "output.mp4" ;;
      when (falsy index) (toast (ToastSuccess "Export completed!")) ;;
      mret None
  end.

Definition exportBody (sequence : Sequence) (index : option nat)
    : Async (option Artifact) :=
  prepare sequence index ;; deliver sequence index.

Definition exportSequence (sequence : Sequence) (index : option nat)
    : Async (option Artifact) := λ w,
  if negb (ffmpegReady w) then
    (toast (ToastError "Please wait for video processing to initialize") ;;
     mret None) w
  else
    tryCatchFinally
      (exportBody sequence index)
      (λ error,
         toast (ConsoleError "Export error:" error) ;;
         when (falsy index) (toast (ToastError "Failed to export sequence")) ;;
         throw error)
      (when (falsy index) (effect (setLoading false)))
      w.

(** The loop of [downloadAllSequences] (lines 346-351), at sequence [i]. *)
Fixpoint exportLoop (sequences : list Sequence) (i : nat)
    (zip : list (string * FileData)) : Async (list (string * FileData)) :=
  match sequences with
  | [] => mret zip
  | sequence :: rest =>
      result ← exportSequence sequence (Some i) ;
      exportLoop rest (S i)
        (match result with
         | Some artifact =>
             zipFile ("restitched " +:+ pretty (i + 1) +:+ ".mp4")
               (art_data artifact) zip
         | None => zip
         end)
  end.

Definition downloadAllSequences : Async unit := λ w,
  if negb (ffmpegReady w) || bool_decide (length (sequences w) = 0) then
    toast (ToastError "No sequences to download or processing not ready") w
  else
    (effect (setLoading true) ;;
     toast (ToastSuccess "Starting batch download...") ;;
     tryCatchFinally
       (zip ← exportLoop (sequences w) 0 [] ;
        toast (Download "restitched-sequences.zip" (ZipBlob zip)) ;;
        toast (ToastSuccess "All sequences downloaded!"))
       (λ error,
          toast (ConsoleError "Batch download error:" error) ;;
          toast (ToastError "Failed to download all sequences"))
       (effect (setLoading false))) w.
End export.

(** ** The registry with object identity *)

(** The same three operations with clips as objects in a store: the state
    cells hold addresses, a sequence holds the addresses of the clip objects
    it was built from, and [{ ...clip, type: newType }] allocates a new
    object.  This is the model in which sharing between [availableClips] and
    [sequences] is visible. *)
Module Heap.

Record SequenceRef := mkSequenceRef {
  ref_id : string;
  ref_clips : list positive;
  ref_duration : float
}.

Record State := mkState {
  store : gmap positive VideoClip;
  availableClips : list positive;
  sequences : list SequenceRef
}.

(** [prev.map(clip => clip.id === clipId ? { ...clip, type: newType } : clip)]
    over the addresses, threading the store through the allocations. *)
Fixpoint retype (clipId : string) (newType : ClipType) (prev : list positive)
    (σ : gmap positive VideoClip) : list positive * gmap positive VideoClip :=
  match prev with
  | [] => ([], σ)
  | r :: rest =>
      match σ !! r with
      | Some clip =>
          if decide (clip_id clip = clipId) then
            let r' := fresh (dom σ) in
            let '(rest', σ') :=
              retype clipId newType rest
                (<[r' := mkClip (clip_id clip) (clip_name clip)
                           (clip_duration clip) newType (clip_file clip)]> σ) in
            (r' :: rest', σ')
          else
            let '(rest', σ') := retype clipId newType rest σ in
            (r :: rest', σ')
      | None =>
          let '(rest', σ') := retype clipId newType rest σ in
          (r :: rest', σ')
      end
  end.

Definition updateClipType (clipId : string) (newType : ClipType) (h : State) : State :=
  let '(clips, σ) := retype clipId newType (availableClips h) (store h) in
  mkState σ clips (sequences h).

(** [prev.filter(clip => clip.id !== clipId)] *)
Definition removeClip (clipId : string) (h : State) : State :=
  mkState (store h)
    (filter (λ r, clip_id <$> store h !! r ≠ Some clipId) (availableClips h))
    (sequences h).

Definition removeAllClips (h : State) : State :=
  mkState (store h) [] (sequences h).

(** The clip records that a list of addresses stands for. *)
Definition deref (σ : gmap positive VideoClip) (refs : list positive)
    : list (option VideoClip) :=
  (λ r, σ !! r) <$> refs.

End Heap.

(** ** Text operations of the upload (ASCII text) *)

(** [String.prototype.toLowerCase], for ASCII text: the capital letters
    [A] to [Z] move to [a] to [z], every other character stays. *)
Definition lowerChar (a : ascii) : ascii :=
  let n := nat_of_ascii a in
  if (65 <=? n) && (n <=? 90) then ascii_of_nat (n + 32) else a.

Fixpoint toLowerCase (s : string) : string :=
  match s with
  | EmptyString => EmptyString
  | String a s' => String (lowerChar a) (toLowerCase s')
  end.

(** [s.startsWith(p)] *)
Fixpoint startsWith (s p : string) : bool :=
  match p, s with
  | EmptyString, _ => true
  | String _ _, EmptyString => false
  | String b p', String a s' => bool_decide (a = b) && startsWith s' p'
  end.

(** [s.includes(p)] *)
Fixpoint includes (s p : string) : bool :=
  startsWith s p
  || match s with
     | EmptyString => false
     | String _ s' => includes s' p
     end.

(** [s.endsWith(p)] *)
Fixpoint endsWith (s p : string) : bool :=
  bool_decide (s = p)
  || match s with
     | EmptyString => false
     | String _ s' => endsWith s' p
     end.

(** [s.slice(n)] *)
Fixpoint dropText (n : nat) (s : string) : string :=
  match n, s with
  | 0, _ => s
  | S _, EmptyString => EmptyString
  | S n', String _ s' => dropText n' s'
  end.

(** [s.replace(pattern, replacement)] with a text pattern: the first
    occurrence is replaced. *)
Fixpoint replaceFirst (pattern replacement s : string) : string :=
  if startsWith s pattern then replacement +:+ dropText (String.length pattern) s
  else match s with
       | EmptyString => EmptyString
       | String a s' => String a (replaceFirst pattern replacement s')
       end.

(** [s.split('.')[0]]: the text before the first point. *)
Fixpoint beforeDot (s : string) : string :=
  match s with
  | EmptyString => EmptyString
  | String a s' => if decide (a = "."%char) then EmptyString else String a (beforeDot s')
  end.

(** ** [detectClipType] (lines 65-79) *)

Definition detectClipType (filename : string) : ClipType :=
  let lowercaseFilename := toLowerCase filename in
  if includes lowercaseFilename "hook" then Hook
  else if includes lowercaseFilename "cta"
          || includes lowercaseFilename "call to action" then Cta
  else if includes lowercaseFilename "selling point"
          || includes lowercaseFilename "sp" then SellingPoint
  else SellingPoint.

(** ** [handleFileUpload] (lines 81-156) *)

(** A file picked by the user: its name and its content. *)
Record UploadedFile := mkUploaded {
  file_name : string;
  file_content : File
}.

(** The page while files are uploaded: the world, and the notices of
    [toast.info], which only the upload shows. *)
Record Page := mkPage {
  page_world : World;
  page_infos : list string
}.

(** The text of a role as the template literal prints it. *)
Definition typeText (ty : ClipType) : string :=
  match ty with
  | Hook => "hook"
  | SellingPoint => "selling-point"
  | Cta => "cta"
  end.

(** The bytes that [ffmpeg.readFile] hands over. *)
Definition bytesOf (data : FileData) : File :=
  match data with
  | Binary bytes => bytes
  | Text content => String.list_byte_of_string content
  end.

Definition convertArgs : list string :=
  ["-i"; "input.mov"; "-c:v"; "copy"; "-c:a"; "aac"; "output.mp4"].

(** [file.name.toLowerCase().endsWith('.mov')] *)
Definition isMov (file : UploadedFile) : bool :=
  endsWith (toLowerCase (file_name file)) ".mov".

Section upload.
Variable ffmpegExec :
  list string → gmap string FileData → gmap string FileData * option string.

(** The duration that the metadata of a file reports, once loaded. *)
Variable videoDuration : UploadedFile → float.

(** The conversion of a MOV file (lines 98-119), after the notice. *)
Definition convert (file : UploadedFile) : Async UploadedFile :=
  writeFile "input.mov" (Binary (file_content file)) ;;
  exec ffmpegExec convertArgs ;;
  outputData ← readFile "output.mp4" ;
  deleteFile "input.mov" ;;
  deleteFile "output.mp4" ;;
  toast (ToastSuccess ("Converted " +:+ file_name file +:+ " to MP4")) ;;
  mret (mkUploaded (replaceFirst ".mov" ".mp4" (file_name file)) (bytesOf outputData)).

(** The clip made of a processed file (lines 135-143); [now] and
    [randomText] are what [Date.now()] and [Math.random()] give. *)
Definition newClip (now : N) (randomText : string) (processedFile : UploadedFile)
    : VideoClip :=
  mkClip (newClipId now randomText)
    (beforeDot (file_name processedFile))
    (videoDuration processedFile)
    (detectClipType (file_name processedFile))
    (Some (file_content processedFile)).

(** Lines 122-146. *)
Definition register (now : N) (randomText : string) (processedFile : UploadedFile)
    : Async unit :=
  effect (addClip (newClip now randomText processedFile)) ;;
  toast (ToastSuccess ("Uploaded " +:+ file_name processedFile +:+ " as "
                       +:+ typeText (detectClipType (file_name processedFile)))).

(** The body of the loop over the files (lines 91-150): one [try] block with
    its [catch]. *)
Definition processFile (file : UploadedFile) (now : N) (randomText : string)
    (p : Page) : Page :=
  mkPage
    (tryCatchFinally
       (processedFile ← (if isMov file then convert file else mret file) ;
        register now randomText processedFile)
       (λ error,
          toast (ConsoleError "Error processing file:" error) ;;
          toast (ToastError ("Failed to process " +:+ file_name file)))
       (mret tt)
       (page_world p)).1
    (if isMov file
     then page_infos p ++ ["Converting " +:+ file_name file +:+ " to MP4..."]
     else page_infos p).

(** The loop over the files; [stamps k] is what [Date.now()] and
    [Math.random()] give while the k-th file is processed. *)
Fixpoint processFiles (files : list UploadedFile) (k : nat)
    (stamps : nat → N * string) (p : Page) : Page :=
  match files with
  | [] => p
  | file :: rest =>
      processFiles rest (S k) stamps
        (processFile file (stamps k).1 (stamps k).2 p)
  end.

(** [files] is [event.target.files], which may be [null]. *)
Definition handleFileUpload (files : option (list UploadedFile))
    (stamps : nat → N * string) (p : Page) : Page :=
  if negb (ffmpegReady (page_world p)) then
    mkPage (emit (ToastError "Please wait for video processing to initialize")
              (page_world p))
      (page_infos p)
  else
    match files with
    | None => p
    | Some files => processFiles files 0 stamps p
    end.
End upload.

(** * Part II: the vocabulary of the properties *)

(** ** Reading a sequence back: its hook, its selling points, its cta *)

(** The first clip, the clips in between, and the last clip of a clip list
    with at least two clips. *)
Definition parts (clips : list VideoClip)
    : option (VideoClip * list VideoClip * VideoClip) :=
  match clips with
  | [] => None
  | h :: rest =>
      match reverse rest with
      | [] => None
      | c :: rsps => Some (h, reverse rsps, c)
      end
  end.

(** The key under which [generateSequences] records a sequence. *)
Definition sequenceKey (s : Sequence) : option string :=
  (λ '(h, sps, c), combinationKey h sps c) <$> parts (seq_clips s).

(** The combination signature of the design: the hook id, the set of
    selling-point ids, the cta id. *)
Definition signature (s : Sequence) : option (string * gset string * string) :=
  (λ '(h, sps, c), (clip_id h, list_to_set (clip_id <$> sps), clip_id c))
    <$> parts (seq_clips s).

(** The signature with the selling-point ids as their sorted list, which
    also counts an id that occurs twice. *)
Definition sortedSignature (s : Sequence)
    : option (string * list string * string) :=
  (λ '(h, sps, c), (clip_id h, sort (clip_id <$> sps), clip_id c))
    <$> parts (seq_clips s).

Lemma parts_shape h sps c : parts (h :: sps ++ [c]) = Some (h, sps, c).
Proof. simpl. by rewrite reverse_snoc, reverse_involutive. Qed.


(** The indices [shuffledIndices.slice(0, numSellingPoints)] of an attempt
    that starts at draw [t]. *)
Definition drawn (random : nat → Sample) (sellingPoints : list VideoClip)
    (t : nat) : list nat :=
  take (numSellingPointsAt random sellingPoints (t + 2))
       (shuffledIndicesAt random sellingPoints (t + 3)).1.

(** The shape of a sequence built from the three pools: one hook, then
    selling points read at pairwise distinct indices of the pool, then one
    cta, with the duration folded once from the clips. *)
Definition shaped (hooks sellingPoints ctas : list VideoClip) (s : Sequence) : Prop :=
  ∃ h sps c indices,
    seq_clips s = h :: sps ++ [c]
    ∧ h ∈ hooks ∧ c ∈ ctas
    ∧ NoDup indices
    ∧ Forall2 (λ index sp, sellingPoints !! index = Some sp) indices sps
    ∧ length sps ≤ maxSellingPoints sellingPoints
    ∧ (sellingPoints ≠ [] → 1 ≤ length sps)
    ∧ seq_duration s = totalDuration (seq_clips s).

(** The invariant of the [while] loop of [generateSequences]. *)
Record invariant (hooks sellingPoints ctas : list VideoClip) (st : LoopState)
    : Prop := mkInvariant {
  inv_shaped : Forall (shaped hooks sellingPoints ctas) (newSequences st);
  inv_used : ∀ key,
    key ∈ usedCombinations st ↔ Some key ∈ sequenceKey <$> newSequences st;
  inv_keys : NoDup (sequenceKey <$> newSequences st);
  inv_count :
    (Z.of_nat (length (newSequences st))
     ≤ 0 `max` targetSequences hooks sellingPoints ctas)%Z;
  inv_attempts : length (newSequences st) ≤ attempts st
}.

(** The sum of the durations of some clips, as the design speaks of it,
    without reference to the generator: the sum of no clip is 0, and the sum
    of some clips and one more after them is their sum plus the duration of
    that one (see [durationSum_nil] and [durationSum_snoc]).  The numbers
    are binary64 numbers, added in the order of the clips. *)
Definition durationSum (clips : list VideoClip) : float :=
  foldr (λ clip total, (total + clip_duration clip)%float) 0%float (reverse clips).

(** A sequence composed from a registry: one clip of role hook, then between
    1 and [min 3 |points|] selling points read at pairwise distinct places
    of the pool, then one clip of role cta; the duration is the sum of the
    durations of these clips. *)
Definition composed (availableClips : list VideoClip) (s : Sequence) : Prop :=
  ∃ hook points cta,
    seq_clips s = hook :: points ++ [cta]
    ∧ (hook ∈ availableClips ∧ clip_type hook = Hook)
    ∧ Forall (λ p, p ∈ availableClips ∧ clip_type p = SellingPoint) points
    ∧ (cta ∈ availableClips ∧ clip_type cta = Cta)
    ∧ 1 ≤ length points ≤ 3 `min` length (ofType SellingPoint availableClips)
    ∧ (∃ indices,
         NoDup indices
         ∧ Forall2 (λ index p, ofType SellingPoint availableClips !! index = Some p)
             indices points)
    ∧ (NoDup (clip_id <$> availableClips) → NoDup (clip_id <$> points))
    ∧ seq_duration s = durationSum (hook :: points ++ [cta]).

(** ** The ceiling as the design states it *)

(** The binomial coefficient, by Pascal's rule; 0 when [k > n]. *)
Fixpoint choose (n k : nat) : nat :=
  match n, k with
  | _, 0 => 1
  | 0, S _ => 0
  | S n', S k' => choose n' k' + choose n' k
  end.

(** The ceiling of the design, written from its words: the product of the
    hook count, the cta count and the sum of [choose points k] for [k] from
    1 to [maxPoints], that sum being 1 when [maxPoints = 0]. *)
Definition specCeiling (hooks points ctas : nat) : nat :=
  let maxPoints := 3 `min` points in
  hooks * ctas *
  (if decide (maxPoints = 0) then 1
   else sum_list (choose points <$> seq 1 maxPoints)).

(** ** The product of [binomialCoefficient] in binary64 *)

(** A count as a binary64 number (exact below [2^53]). *)
Fixpoint float_of_nat (n : nat) : float :=
  match n with
  | 0 => 0%float
  | S n' => (float_of_nat n' + 1)%float
  end.

(** The running product of lines 376-379 as JavaScript computes it, before
    [Math.floor]. *)
Definition binomialProduct64 (n k : nat) : float :=
  foldl (λ result i,
           (result * ((float_of_nat n + 1 - float_of_nat i) / float_of_nat i))%float)
        1%float (seq 1 k).

(** ** Sample data *)

Definition sampleHook : VideoClip :=
  mkClip "clip-1700000000000-0.25" "hook intro" 2.0%float Hook (Some [Byte.x01]).
Definition samplePointA : VideoClip :=
  mkClip "clip-1700000000001-0.5" "sp price" 3.0%float SellingPoint (Some [Byte.x02]).
Definition samplePointB : VideoClip :=
  mkClip "clip-1700000000002-0.75" "sp speed" 1.5%float SellingPoint (Some [Byte.x03]).
Definition sampleCta : VideoClip :=
  mkClip "clip-1700000000003-0.125" "cta buy" 1.0%float Cta (Some [Byte.x04]).

Definition sampleClips : list VideoClip :=
  [sampleHook; samplePointA; samplePointB; sampleCta].

(** A source of random numbers: the t-th call gives [(5 t + 3) mod 7 / 7]. *)
Definition sampleRandom (t : nat) : Sample :=
  mkSample ((5 * t + 3) `mod` 7) (6 - (5 * t + 3) `mod` 7).

(** ** Changes of the registry, and the ids it hands out *)

(** The user's changes to the registry after a generation: a new role for a
    clip, the removal of a clip, the removal of all clips. *)
Inductive RegistryChange :=
  | ChangeRole (clipId : string) (newType : ClipType)
  | Remove (clipId : string)
  | RemoveAll.

Definition applyChange (change : RegistryChange) : World → World :=
  match change with
  | ChangeRole clipId newType => updateClipType clipId newType
  | Remove clipId => removeClip clipId
  | RemoveAll => removeAllClips
  end.

Definition applyChanges (changes : list RegistryChange) (w : World) : World :=
  foldl (λ w change, applyChange change w) w changes.

(** The string has no ['|']. *)
Fixpoint barFree (s : string) : Prop :=
  match s with
  | EmptyString => True
  | String a s' => a ≠ "|"%char ∧ barFree s'
  end.

(** The characters of the text of a number: digits, the point, the exponent
    mark and the signs. *)
Definition numberChar (a : ascii) : Prop :=
  a ∈ String.list_ascii_of_string "0123456789.e+-".

Fixpoint numberText (s : string) : Prop :=
  match s with
  | EmptyString => True
  | String a s' => numberChar a ∧ numberText s'
  end.

(** An id made by [handleFileUpload]. *)
Definition created (clipId : string) : Prop :=
  ∃ now randomText, numberText randomText ∧ clipId = newClipId now randomText.

(** The changes of the registry in the model with object identity. *)
Definition applyChangeRef (change : RegistryChange) : Heap.State → Heap.State :=
  match change with
  | ChangeRole clipId newType => Heap.updateClipType clipId newType
  | Remove clipId => Heap.removeClip clipId
  | RemoveAll => Heap.removeAllClips
  end.

Definition applyChangesRef (changes : list RegistryChange) (h : Heap.State)
    : Heap.State :=
  foldl (λ h change, applyChangeRef change h) h changes.

(** Every address of the list is allocated. *)
Definition allocated (σ : gmap positive VideoClip) (refs : list positive) : Prop :=
  Forall (λ r, is_Some (σ !! r)) refs.

(** A state with object identity for the examples: the sample clips at the
    addresses 1 to 4 and a sequence built from three of them. *)
Definition sampleHeap : Heap.State :=
  Heap.mkState
    (list_to_map [(1%positive, sampleHook); (2%positive, samplePointA);
                  (3%positive, samplePointB); (4%positive, sampleCta)])
    [1%positive; 2%positive; 3%positive; 4%positive]
    [Heap.mkSequenceRef "sequence-1" [1%positive; 2%positive; 4%positive]
       6.0%float].

(** ** Vocabulary of the export pipeline *)

(** A relation between the world before and the world after holds for every
    run of a computation. *)
Definition respects (R : relation World) {A} (m : Async A) : Prop :=
  ∀ w, R w (m w).1.

(** The calls on FFmpeg only grow. *)
Definition callsGrow : relation World := λ w w', calls w `prefix_of` calls w'.

(** Neither the readiness of FFmpeg nor the sequences change. *)
Definition sameSetup : relation World := λ w w',
  ffmpegReady w' = ffmpegReady w ∧ sequences w' = sequences w.

(** No download is triggered. *)
Definition noDownload : relation World := λ w w',
  ∀ filename content,
    Download filename content ∈ events w' → Download filename content ∈ events w.

Definition isDownload (e : Event) : bool :=
  match e with Download _ _ => true | _ => false end.

(** The manifest of [count] staged inputs, from position [start]. *)
Fixpoint manifestFrom (start count : nat) : string :=
  match count with
  | 0 => ""
  | S count' => "file " +:+ inputName start +:+ LF +:+ manifestFrom (S start) count'
  end.

Definition manifest (count : nat) : string := manifestFrom 0 count.

(** The calls that stage [files] from position [start]. *)
Definition stagingCalls (start : nat) (files : list File) : list FfmpegCall :=
  imap (λ k file, WriteFile (inputName (start + k)) (Binary file)) files.

(** [`restitched ${i + 1}.mp4`] *)
Definition entryName (i : nat) : string :=
  "restitched " +:+ pretty (i + 1) +:+ ".mp4".

(** The world in which the loop of [downloadAllSequences] starts. *)
Definition started (w : World) : World :=
  emit (ToastSuccess "Starting batch download...") (setLoading true w).

(** [Exported exec sequences i w artifacts w']: exporting [sequences] one
    after the other with the indices [i], [i + 1], ... from the world [w]
    succeeds, gives [artifacts] in that order and ends in [w']. *)
Inductive Exported
    (ffmpegExec : list string → gmap string FileData → gmap string FileData * option string)
    : list Sequence → nat → World → list Artifact → World → Prop :=
  | Exported_nil i w : Exported ffmpegExec [] i w [] w
  | Exported_cons sequence rest i w artifact w1 artifacts w2 :
      exportSequence ffmpegExec sequence (Some i) w = (w1, inr (Some artifact)) →
      Exported ffmpegExec rest (S i) w1 artifacts w2 →
      Exported ffmpegExec (sequence :: rest) i w (artifact :: artifacts) w2.

(** A concatenation service for the examples: it writes an output of one
    byte and does not fail. *)
Definition sampleExec (args : list string) (fs : gmap string FileData)
    : gmap string FileData * option string :=
  (<["output.mp4" := Binary [Byte.xff]]> fs, None).

Definition sampleSequence : Sequence :=
  mkSequence "sequence-1" [sampleHook; samplePointA; sampleCta] 6.0%float.

(** A selling point whose file is gone. *)
Definition lostPoint : VideoClip :=
  mkClip "clip-1700000000004-0.625" "sp lost" 2.5%float SellingPoint None.

Definition brokenSequence : Sequence :=
  mkSequence "sequence-2" [sampleHook; lostPoint; sampleCta] 5.5%float.

Definition sampleWorld (sequences : list Sequence) : World :=
  mkWorld sampleClips sequences false true ∅ [] [].

(** A concatenation service that rejects every request and leaves the file
    system as it found it. *)
Definition failingExec (args : list string) (fs : gmap string FileData)
    : gmap string FileData * option string :=
  (fs, Some "Conversion failed!").

(** ** Vocabulary of the text operations *)

(** [p] occurs in [s]. *)
Definition contains (s p : string) : Prop := ∃ a b, s = a +:+ p +:+ b.

(** Every character is an ASCII character (code below 128). *)
Fixpoint isAscii (s : string) : Prop :=
  match s with
  | EmptyString => True
  | String a s' => nat_of_ascii a < 128 ∧ isAscii s'
  end.

(** [name] is [s] with the first occurrence of [pattern] replaced by
    [replacement], or [s] itself when [pattern] does not occur in it. *)
Definition renamed (pattern replacement s name : string) : Prop :=
  (¬ contains s pattern ∧ name = s)
  ∨ ∃ a b,
      s = a +:+ pattern +:+ b
      ∧ (∀ a' b', s = a' +:+ pattern +:+ b' → String.length a ≤ String.length a')
      ∧ name = a +:+ replacement +:+ b.

(** [part] is the text of [s] before its first point, or [s] itself when it
    has no point. *)
Definition firstPart (s part : string) : Prop :=
  ¬ contains part "." ∧ (s = part ∨ ∃ rest, s = part +:+ "." +:+ rest).

(** ** Vocabulary of the generator's further properties *)

(** [`sequence-${i + 1}`] *)
Definition sequenceName (i : nat) : string := "sequence-" +:+ pretty (i + 1).

(** ** Vocabulary of the upload and of the further export properties *)

(** The registry, the sequences and the readiness of FFmpeg are the same. *)
Definition sameRegistry : relation World := λ w w',
  availableClips w' = availableClips w
  ∧ sequences w' = sequences w
  ∧ ffmpegReady w' = ffmpegReady w.

(** Nothing was shown and the loading flag is the same. *)
Definition quiet : relation World := λ w w',
  events w' = events w ∧ loading w' = loading w.

(** Files are only deleted: a name that is absent stays absent. *)
Definition onlyDeletes : relation World := λ w w',
  ∀ path, vfs w !! path = None → vfs w' !! path = None.

(** Every clip of the list has its file. *)
Definition filed (clips : list VideoClip) : Prop :=
  Forall (λ clip, is_Some (clip_file clip)) clips.

(** A computation throws nothing but failures of FFmpeg. *)
Definition throwsOnlyFfmpeg {A} (m : Async A) : Prop :=
  ∀ w error, (m w).2 = inl error → ∃ message, error = FfmpegFailure message.

(** Sample uploads: a MOV file with a capital extension, and an MP4 file. *)
Definition sampleMov : UploadedFile := mkUploaded "My Hook.MOV" [Byte.x01].
Definition sampleMp4 : UploadedFile := mkUploaded "cta final.mp4" [Byte.x02].

(** A MOV file whose name holds [.mov] twice. *)
Definition sampleTake : UploadedFile := mkUploaded "Hook.mov.mov" [Byte.x01].

Definition sampleStamps (k : nat) : N * string :=
  ((1700000000000 + N.of_nat k)%N, "0.5").

Definition sampleDuration (file : UploadedFile) : float := 2.5%float.

Definition samplePage : Page := mkPage (sampleWorld []) [].

(** The world after the flag and the notice with which [prepare] starts. *)
Definition announced (index : option nat) (w : World) : World :=
  if falsy index
  then emit (ToastSuccess "Starting export...") (setLoading true w)
  else setLoading true w.

(** The rest of [prepare]: the staging, the manifest and the concatenation. *)
Definition stageAndConcat
    (ffmpegExec :
       list string → gmap string FileData → gmap string FileData * option string)
    (sequence : Sequence) : Async unit :=
  listFileContent ← stageClips (seq_clips sequence) 0 "" ;
  writeFile "list.txt" (Text listFileContent) ;;
  exec ffmpegExec concatArgs.

(** FFmpeg's file system once [files] are staged from position [start], and
    once the manifest is written too. *)
Fixpoint stagedFrom (start : nat) (files : list File)
    (fs : gmap string FileData) : gmap string FileData :=
  match files with
  | [] => fs
  | file :: rest => stagedFrom (S start) rest (<[inputName start := Binary file]> fs)
  end.

Definition staged (files : list File) (fs : gmap string FileData)
    : gmap string FileData :=
  <["list.txt" := Text (manifest (length files))]> (stagedFrom 0 files fs).

(** The calls that delete the staged inputs [start .. start + count - 1]. *)
Definition unstagingCalls (start count : nat) : list FfmpegCall :=
  (λ i, DeleteFile (inputName i)) <$> seq start count.

(** A concatenation service that keeps what is staged and writes [data] as
    the output. *)
Definition writesOutput (data : FileData) (args : list string)
    (fs : gmap string FileData) : gmap string FileData * option string :=
  (<["output.mp4" := data]> fs, None).

(** ** [generateSequences] with the numbers of JavaScript (lines 200-214,
    372-381) *)

(** [Math.floor] on a binary64 number: not-a-number, the infinities, the
    zeros and the numbers without a fraction are returned as they are. *)
Definition mathFloor (x : float) : float :=
  match FloatOps.Prim2SF x with
  | SpecFloat.S754_finite negative m e =>
      if (0 <=? e)%Z then x
      else
        let q := Z.shiftr (Z.pos m) (- e) in
        let whole := (Z.shiftl q (- e) =? Z.pos m)%Z in
        if negative
        then (- PrimFloat.of_uint63 (Uint63.of_Z (if whole then q else q + 1)))%float
        else PrimFloat.of_uint63 (Uint63.of_Z q)
  | _ => x
  end.

(** [Math.min] on two binary64 numbers. *)
Definition mathMin (a b : float) : float :=
  if PrimFloat.is_nan a || PrimFloat.is_nan b then PrimFloat.nan
  else if PrimFloat.ltb b a then b
  else if PrimFloat.ltb a b then a
  else if PrimFloat.get_sign b then b else a.

(** [binomialCoefficient] as JavaScript computes it (lines 372-381): the
    product of rounded quotients, then [Math.floor]. *)
Definition binomialCoefficient64 (n k : nat) : float :=
  if decide (n < k) then 0%float
  else if decide (k = 0 ∨ k = n) then 1%float
  else mathFloor (binomialProduct64 n k).

Section generator64.
Variable random : nat → Sample.
Variables hooks sellingPoints ctas : list VideoClip.

(** Lines 205-210. *)
Definition maxCombinations64 : float :=
  (float_of_nat (length hooks) * float_of_nat (length ctas) *
   foldl PrimFloat.add 0
     ((λ i, binomialCoefficient64 (length sellingPoints) (i + 1))
        <$> seq 0 (maxSellingPoints sellingPoints)))%float.

(** Line 212. *)
Definition targetSequences64 : float := mathMin 10 maxCombinations64.

(** Line 214: [newSequences.length < targetSequences && attempts <
    maxAttempts], a comparison of binary64 numbers. *)
Definition continue64 (st : LoopState) : bool :=
  PrimFloat.ltb (float_of_nat (length (newSequences st))) targetSequences64
  && bool_decide (attempts st < maxAttempts).

Fixpoint whileLoop64 (fuel : nat) (st : LoopState) : LoopState :=
  match fuel with
  | 0 => st
  | S fuel' =>
      if continue64 st
      then whileLoop64 fuel' (iteration random hooks sellingPoints ctas st)
      else st
  end.

Definition finalLoop64 : LoopState := whileLoop64 maxAttempts initialLoop.
End generator64.

(** [generateSequences] with the ceiling, the target and the test of the
    loop computed in binary64. *)
Definition generate64 (random : nat → Sample) (availableClips : list VideoClip)
    : Generation :=
  if decide (length availableClips = 0) then EmptyInput
  else
    let hooks := ofType Hook availableClips in
    let sellingPoints := ofType SellingPoint availableClips in
    let ctas := ofType Cta availableClips in
    if decide (length hooks = 0 ∨ length ctas = 0) then MissingRole
    else Generated (newSequences (finalLoop64 random hooks sellingPoints ctas)).

(** The sum of line 207-209 for a pool of [n] selling points. *)
Definition combinationSum64 (n : nat) : float :=
  foldl PrimFloat.add 0%float
    ((λ i, binomialCoefficient64 n (i + 1)) <$> seq 0 (3 `min` n)).

(** The exact sum of the binomial coefficients, capped at 10. *)
Definition cappedSum (n : nat) : Z :=
  match n with
  | 0 => 0
  | 1 => 1
  | 2 => 3
  | 3 => 7
  | _ => 10
  end.

(** For every pool and every number of hooks and ctas up to [bound], the
    test of line 214 against the target computed in binary64 gives, for the
    lengths 0 to 10, what the test against the exact target gives. *)
Definition testsAgree (bound : nat) : bool :=
  let sizes := (λ k, (Z.of_nat k, float_of_nat k)) <$> seq 0 (S bound) in
  let sums := (λ n, (cappedSum n, combinationSum64 n)) <$> seq 0 (S bound) in
  let lengths := (λ k, (Z.of_nat k, float_of_nat k)) <$> seq 0 11 in
  forallb (λ s,
    forallb (λ h,
      forallb (λ c,
        let target64 := mathMin 10 (h.2 * c.2 * s.2) in
        let target := Z.min 10 (h.1 * c.1 * s.1) in
        forallb (λ l, Bool.eqb (PrimFloat.ltb l.2 target64) (l.1 <? target)%Z)
          lengths)
        sizes)
      sizes)
    sums.

(** The largest registry for which the agreement is checked. *)
Definition checkedSize : nat := 128.

(** * Part III: lemmas and theorems *)

(** ** Random draws stay in range *)

Lemma randomFloor_lt r n : 0 < n → randomFloor r n < n.
Proof.
  intros Hn. unfold randomFloor.
  apply Nat.Div0.div_lt_upper_bound.
  destruct r as [a b]; simpl. nia.
Qed.

Lemma randomFloor_0 r : randomFloor r 0 = 0.
Proof. unfold randomFloor. by rewrite Nat.mul_0_r, Nat.Div0.div_0_l. Qed.

Lemma randomFloor_le r n : randomFloor r (n + 1) ≤ n.
Proof. pose proof (randomFloor_lt r (n + 1)). lia. Qed.

(** ** The shuffle permutes the indices *)

Lemma swap_Permutation a i j :
  i < length a → j < length a → swap a i j ≡ₚ a.
Proof.
  intros Hi Hj. unfold swap.
  apply Permutation_insert_swap; by apply list_lookup_lookup_total_lt.
Qed.

Section shuffle.
Variable random : nat → Sample.

Lemma shuffleLoop_Permutation i a t :
  i < length a ∨ i = 0 → (shuffleLoop random i a t).1 ≡ₚ a.
Proof.
  revert a t. induction i as [|i IH]; intros a t Hi; [done|].
  simpl. destruct Hi as [Hi|]; [|done].
  pose proof (randomFloor_le (random t) (S i)) as Hj.
  assert (swap a (S i) (randomFloor (random t) (S i + 1)) ≡ₚ a) as Hs
    by (apply swap_Permutation; lia).
  rewrite IH; [done|]. left. rewrite Hs. lia.
Qed.

Lemma shuffledIndices_Permutation (sellingPoints : list VideoClip) t :
  (shuffledIndicesAt random sellingPoints t).1 ≡ₚ seq 0 (length sellingPoints).
Proof.
  unfold shuffledIndicesAt. apply shuffleLoop_Permutation.
  rewrite length_seq. lia.
Qed.

Lemma shuffledIndices_NoDup (sellingPoints : list VideoClip) t :
  NoDup (shuffledIndicesAt random sellingPoints t).1.
Proof. rewrite shuffledIndices_Permutation. apply NoDup_seq. Qed.

Lemma shuffledIndices_lt (sellingPoints : list VideoClip) t index :
  index ∈ (shuffledIndicesAt random sellingPoints t).1 →
  index < length sellingPoints.
Proof. rewrite shuffledIndices_Permutation, elem_of_seq. lia. Qed.

Lemma shuffledIndices_length (sellingPoints : list VideoClip) t :
  length (shuffledIndicesAt random sellingPoints t).1 = length sellingPoints.
Proof. by rewrite shuffledIndices_Permutation, length_seq. Qed.
End shuffle.

(** ** What one attempt selects *)

Section selection.
Variable random : nat → Sample.
Variables hooks sellingPoints ctas : list VideoClip.

Abbreviation drawn := (drawn random sellingPoints).

Lemma select_hook_eq t :
  selectedHook (select random hooks sellingPoints ctas t)
  = hooks !!! randomFloor (random t) (length hooks).
Proof. unfold select. by destruct (shuffledIndicesAt _ _ _). Qed.

Lemma select_cta_eq t :
  selectedCTA (select random hooks sellingPoints ctas t)
  = ctas !!! randomFloor (random (t + 1)) (length ctas).
Proof. unfold select. by destruct (shuffledIndicesAt _ _ _). Qed.

Lemma select_points_eq t :
  selectedSellingPoints (select random hooks sellingPoints ctas t)
  = (λ index, sellingPoints !!! index) <$> drawn t.
Proof. unfold select, drawn. by destruct (shuffledIndicesAt _ _ _). Qed.

Lemma numSellingPoints_le t :
  numSellingPointsAt random sellingPoints t ≤ maxSellingPoints sellingPoints.
Proof.
  unfold numSellingPointsAt, maxSellingPoints.
  destruct (decide (length sellingPoints = 0)) as [->|Hn]; [lia|].
  pose proof (randomFloor_lt (random t) (3 `min` length sellingPoints)). lia.
Qed.

Lemma numSellingPoints_ge t :
  sellingPoints ≠ [] → 1 ≤ numSellingPointsAt random sellingPoints t.
Proof.
  intros Hne. unfold numSellingPointsAt.
  destruct sellingPoints; [done|]. simpl. lia.
Qed.

Lemma drawn_length t :
  length (drawn t) = numSellingPointsAt random sellingPoints (t + 2).
Proof.
  unfold drawn. rewrite length_take, shuffledIndices_length.
  pose proof (numSellingPoints_le (t + 2)). unfold maxSellingPoints in *. lia.
Qed.

Lemma drawn_NoDup t : NoDup (drawn t).
Proof.
  unfold drawn. eapply sublist_NoDup; [apply shuffledIndices_NoDup|].
  apply sublist_take.
Qed.

Lemma drawn_lt t index : index ∈ drawn t → index < length sellingPoints.
Proof.
  unfold drawn. intros Hin%subseteq_take.
  by eapply shuffledIndices_lt.
Qed.

(** Every array read of an attempt is in range. *)
Lemma iteration_in_range t :
  hooks ≠ [] → ctas ≠ [] →
  randomFloor (random t) (length hooks) < length hooks
  ∧ randomFloor (random (t + 1)) (length ctas) < length ctas
  ∧ Forall (λ index, index < length sellingPoints) (drawn t).
Proof.
  intros Hh Hc. split_and!.
  - apply randomFloor_lt. destruct hooks; [done|simpl; lia].
  - apply randomFloor_lt. destruct ctas; [done|simpl; lia].
  - apply Forall_forall. apply drawn_lt.
Qed.

Lemma select_hook_in t :
  hooks ≠ [] → selectedHook (select random hooks sellingPoints ctas t) ∈ hooks.
Proof.
  intros Hh. rewrite select_hook_eq.
  apply list_elem_of_lookup_total_2, randomFloor_lt.
  destruct hooks; [done|simpl; lia].
Qed.

Lemma select_cta_in t :
  ctas ≠ [] → selectedCTA (select random hooks sellingPoints ctas t) ∈ ctas.
Proof.
  intros Hc. rewrite select_cta_eq.
  apply list_elem_of_lookup_total_2, randomFloor_lt.
  destruct ctas; [done|simpl; lia].
Qed.

Lemma select_points_lookup t :
  Forall2 (λ index sp, sellingPoints !! index = Some sp) (drawn t)
    (selectedSellingPoints (select random hooks sellingPoints ctas t)).
Proof.
  rewrite select_points_eq. apply Forall2_fmap_r, Forall_Forall2_diag.
  apply Forall_forall. intros index Hin.
  by apply list_lookup_lookup_total_lt, drawn_lt with t.
Qed.

Lemma select_points_length t :
  length (selectedSellingPoints (select random hooks sellingPoints ctas t))
  = numSellingPointsAt random sellingPoints (t + 2).
Proof. by rewrite select_points_eq, length_fmap, drawn_length. Qed.
End selection.

(** ** The invariant of the [while] loop *)

Section loop.
Variable random : nat → Sample.
Variables hooks sellingPoints ctas : list VideoClip.
Hypothesis hooks_ne : hooks ≠ [].
Hypothesis ctas_ne : ctas ≠ [].

Abbreviation iteration := (iteration random hooks sellingPoints ctas).
Abbreviation continue := (continue hooks sellingPoints ctas).
Abbreviation whileLoop := (whileLoop random hooks sellingPoints ctas).
Abbreviation targetSequences := (targetSequences hooks sellingPoints ctas).

Abbreviation invariant := (invariant hooks sellingPoints ctas).

Lemma invariant_initial : invariant initialLoop.
Proof.
  split; simpl; [constructor| |constructor|lia|lia].
  intros key. rewrite elem_of_nil. set_solver.
Qed.

Lemma iteration_attempts st : attempts (iteration st) = S (attempts st).
Proof. unfold iteration. by case_decide. Qed.

Lemma iteration_invariant st :
  continue st = true → invariant st → invariant (iteration st).
Proof.
  intros [Hlt _]%andb_prop [Hsh Hused Hkeys Hcount Hatt].
  apply bool_decide_eq_true in Hlt.
  unfold iteration.
  set (sel := select random hooks sellingPoints ctas (draws st)).
  set (key := combinationKey _ _ _).
  case_decide as Hin; [split; simpl; auto|].
  set (clips := selectedHook sel :: selectedSellingPoints sel ++ [selectedCTA sel]).
  set (s := mkSequence _ clips _).
  assert (sequenceKey s = Some key) as Hkey
    by (unfold sequenceKey, s, clips; simpl seq_clips; by rewrite parts_shape).
  split; simpl.
  - apply Forall_app; split; [done|]. apply Forall_singleton.
    exists (selectedHook sel), (selectedSellingPoints sel), (selectedCTA sel),
      (drawn random sellingPoints (draws st)).
    split_and!; [done|by apply select_hook_in|by apply select_cta_in
                |apply drawn_NoDup|apply select_points_lookup|..|done].
    + unfold sel. rewrite select_points_length. apply numSellingPoints_le.
    + intros Hne. unfold sel. rewrite select_points_length.
      by apply numSellingPoints_ge.
  - intros k. rewrite fmap_app, elem_of_app, elem_of_union, elem_of_singleton.
    simpl. rewrite Hkey, list_elem_of_singleton, (Hused k).
    split; (intros [?|?]; [right|left]); congruence.
  - rewrite fmap_app. simpl. rewrite Hkey.
    apply NoDup_app; split_and!; [done| |apply NoDup_singleton].
    intros k Hk ->%list_elem_of_singleton. by apply Hin, Hused.
  - rewrite length_app. simpl. lia.
  - rewrite length_app. simpl. lia.
Qed.

Lemma whileLoop_invariant fuel st : invariant st → invariant (whileLoop fuel st).
Proof.
  revert st. induction fuel as [|fuel IH]; intros st Hinv; simpl; [done|].
  destruct (continue st) eqn:Hc; [|done].
  by apply IH, iteration_invariant.
Qed.

(** The loop ends because its condition fails, not because the fuel of the
    model runs out. *)
Lemma whileLoop_exit fuel st :
  maxAttempts ≤ attempts st + fuel → continue (whileLoop fuel st) = false.
Proof.
  revert st. induction fuel as [|fuel IH]; intros st Hfuel; simpl.
  - unfold continue. rewrite (bool_decide_eq_false_2 (attempts st < _)) by lia.
    apply andb_false_r.
  - destruct (continue st) eqn:Hc; [|done].
    apply IH. rewrite iteration_attempts. lia.
Qed.

(** More fuel than [maxAttempts] changes nothing. *)
Lemma whileLoop_fuel fuel st :
  maxAttempts ≤ attempts st + fuel →
  whileLoop (S fuel) st = whileLoop fuel st.
Proof.
  revert st. induction fuel as [|fuel IH]; intros st Hfuel.
  - simpl. unfold continue.
    rewrite (bool_decide_eq_false_2 (attempts st < _)) by lia.
    by rewrite andb_false_r.
  - change (whileLoop (S (S fuel)) st)
      with (if continue st then whileLoop (S fuel) (iteration st) else st).
    change (whileLoop (S fuel) st)
      with (if continue st then whileLoop fuel (iteration st) else st).
    destruct (continue st); [|done].
    apply IH. rewrite iteration_attempts. lia.
Qed.

Lemma whileLoop_attempts fuel st :
  attempts st ≤ maxAttempts → attempts (whileLoop fuel st) ≤ maxAttempts.
Proof.
  revert st. induction fuel as [|fuel IH]; intros st Hle; simpl; [done|].
  destruct (continue st) eqn:Hc; [|done].
  apply IH. rewrite iteration_attempts.
  apply andb_prop in Hc as [_ Hc%bool_decide_eq_true]. lia.
Qed.

Lemma finalLoop_invariant :
  invariant (finalLoop random hooks sellingPoints ctas).
Proof. apply whileLoop_invariant, invariant_initial. Qed.
End loop.

(** ** [binomialCoefficient] computes the binomial coefficient *)

Lemma choose_gt n k : n < k → choose n k = 0.
Proof.
  revert k. induction n as [|n IH]; intros [|k] Hlt; simpl; try lia.
  rewrite !IH; lia.
Qed.

Lemma choose_diag n : choose n n = 1.
Proof. induction n as [|n IH]; simpl; [done|]. rewrite IH, choose_gt; lia. Qed.

Lemma choose_0_r n : choose n 0 = 1.
Proof. by destruct n. Qed.

(** The recurrence that the loop of [binomialCoefficient] follows. *)
Lemma choose_step n k : choose n k * (n - k) = choose n (S k) * S k.
Proof.
  revert k. induction n as [|n IH]; intros k.
  - destruct k; simpl; lia.
  - destruct k as [|k].
    + simpl. rewrite choose_0_r. pose proof (IH 0) as H0.
      rewrite choose_0_r in H0. destruct n; simpl in *; lia.
    + change (choose (S n) (S k)) with (choose n k + choose n (S k)).
      change (choose (S n) (S (S k)))
        with (choose n (S k) + choose n (S (S k))).
      pose proof (IH k) as H1. pose proof (IH (S k)) as H2.
      destruct (decide (n < S k)) as [Hlt|Hge].
      * rewrite (choose_gt n (S k)), (choose_gt n (S (S k))) by lia.
        replace (S n - S k) with 0 by lia. lia.
      * replace (S n - S k) with (S (n - S k)) by lia.
        replace (n - k) with (S (n - S k)) in H1 by lia. nia.
Qed.

Lemma binomialStep_choose n k result :
  k < n →
  Qeq result (inject_Z (Z.of_nat (choose n k))) →
  Qeq (binomialStep n result (S k)) (inject_Z (Z.of_nat (choose n (S k)))).
Proof.
  intros Hk Hr. unfold binomialStep. rewrite Hr. unfold Qdiv.
  rewrite Qmult_assoc, <-inject_Z_mult.
  replace (Z.of_nat (choose n k) * (Z.of_nat n + 1 - Z.of_nat (S k)))%Z
    with (Z.of_nat (choose n (S k)) * Z.of_nat (S k))%Z
    by (pose proof (choose_step n k); nia).
  rewrite inject_Z_mult, <-Qmult_assoc, Qmult_inv_r, Qmult_1_r; [reflexivity|].
  intros H. unfold Qeq in H. simpl in H. lia.
Qed.

Lemma binomialLoop_choose n k :
  k ≤ n →
  Qeq (foldl (binomialStep n) (inject_Z 1) (seq 1 k))
      (inject_Z (Z.of_nat (choose n k))).
Proof.
  induction k as [|k IH]; intros Hk.
  - simpl. by rewrite choose_0_r.
  - rewrite seq_S, foldl_app. simpl.
    apply binomialStep_choose; [lia|]. apply IH. lia.
Qed.

Lemma binomialCoefficient_choose n k :
  binomialCoefficient n k = Z.of_nat (choose n k).
Proof.
  unfold binomialCoefficient. repeat case_decide.
  - by rewrite choose_gt.
  - destruct_or!; subst; by rewrite ?choose_0_r, ?choose_diag.
  - rewrite (Qfloor_comp _ _ (binomialLoop_choose n k ltac:(lia))).
    apply Qfloor_Z.
Qed.

(** ** The ceiling and the target *)

Section ceiling.
Variables hooks sellingPoints ctas : list VideoClip.

Lemma maxCombinations_empty_pool :
  sellingPoints = [] → maxCombinations hooks sellingPoints ctas = 0%Z.
Proof. intros ->. unfold maxCombinations. simpl. lia. Qed.

Lemma binomial_sum n start count acc :
  foldl Z.add acc ((λ i, binomialCoefficient n (i + 1)) <$> seq start count)
  = (acc + Z.of_nat (sum_list (choose n <$> seq (start + 1) count)))%Z.
Proof.
  revert start acc. induction count as [|count IH]; intros start acc.
  - simpl. lia.
  - cbn [seq fmap list_fmap foldl sum_list]. rewrite IH.
    rewrite binomialCoefficient_choose.
    replace (S start + 1) with (S (start + 1)) by lia.
    cbn [sum_list sum_list_with]. unfold id. lia.
Qed.

(** With a selling point in the pool the code computes the ceiling of the
    design. *)
Lemma maxCombinations_specCeiling :
  sellingPoints ≠ [] →
  maxCombinations hooks sellingPoints ctas
  = Z.of_nat (specCeiling (length hooks) (length sellingPoints) (length ctas)).
Proof.
  intros Hne. unfold maxCombinations, specCeiling, maxSellingPoints.
  rewrite binomial_sum. case_decide as Hz.
  - destruct sellingPoints; [done|]. simpl in Hz. lia.
  - simpl. lia.
Qed.

Lemma maxCombinations_nonneg : (0 ≤ maxCombinations hooks sellingPoints ctas)%Z.
Proof.
  destruct (decide (sellingPoints = [])) as [He|Hne].
  - by rewrite maxCombinations_empty_pool.
  - rewrite maxCombinations_specCeiling by done. lia.
Qed.

Lemma targetSequences_nonneg : (0 ≤ targetSequences hooks sellingPoints ctas)%Z.
Proof. unfold targetSequences. pose proof maxCombinations_nonneg. lia. Qed.

Lemma targetSequences_le : (targetSequences hooks sellingPoints ctas ≤ 10)%Z.
Proof. unfold targetSequences. lia. Qed.
End ceiling.

(** ** How many sequences a run returns *)

Section count.
Variable random : nat → Sample.
Variables hooks sellingPoints ctas : list VideoClip.
Hypothesis hooks_ne : hooks ≠ [].
Hypothesis ctas_ne : ctas ≠ [].

Abbreviation final := (finalLoop random hooks sellingPoints ctas).

(** Never more than the target. *)
Lemma finalLoop_count_le :
  (Z.of_nat (length (newSequences final))
   ≤ targetSequences hooks sellingPoints ctas)%Z.
Proof.
  pose proof (inv_count _ _ _ _ (finalLoop_invariant random _ sellingPoints _
                                   hooks_ne ctas_ne)) as H.
  pose proof (targetSequences_nonneg hooks sellingPoints ctas). lia.
Qed.

(** Exactly the target when the attempts were not used up. *)
Lemma finalLoop_count_exact :
  attempts final < maxAttempts →
  Z.of_nat (length (newSequences final))
  = targetSequences hooks sellingPoints ctas.
Proof.
  intros Hatt. pose proof finalLoop_count_le as Hle.
  pose proof (whileLoop_exit random hooks sellingPoints ctas maxAttempts
                initialLoop ltac:(simpl; lia)) as Hexit.
  fold final in Hexit. unfold continue in Hexit.
  apply andb_false_iff in Hexit as [H%bool_decide_eq_false|H%bool_decide_eq_false];
    lia.
Qed.
End count.

(** ** Where binary64 and the exact product part *)

(** For the pools of up to three selling points, where the ceiling can be
    below 10, the binary64 product is the exact integer. *)
Remark binomialProduct64_small :
  binomialProduct64 2 1 = 2%float
  ∧ binomialProduct64 3 1 = 3%float
  ∧ binomialProduct64 3 2 = 3%float.
Proof. by split_and!. Qed.

(** For fifteen selling points and [k = 3] the binary64 product lies strictly
    between 454 and 455 while the exact one is 455: there [Math.floor] gives
    a ceiling one short of the exact one.  Both are far above the cap of 10,
    so the target of the loop is not affected. *)
Remark binomialProduct64_15_3 :
  PrimFloat.ltb 454 (binomialProduct64 15 3) = true
  ∧ PrimFloat.ltb (binomialProduct64 15 3) 455 = true
  ∧ binomialCoefficient 15 3 = 455%Z.
Proof. by split_and!. Qed.

(** ** A run with all three roles present returns a sequence *)

Section nonempty.
Variable random : nat → Sample.
Variables hooks sellingPoints ctas : list VideoClip.

Lemma iteration_length st :
  length (newSequences st)
  ≤ length (newSequences (iteration random hooks sellingPoints ctas st)).
Proof.
  unfold iteration. case_decide; simpl; [done|]. rewrite length_app. lia.
Qed.

Lemma whileLoop_length fuel st :
  length (newSequences st)
  ≤ length (newSequences (whileLoop random hooks sellingPoints ctas fuel st)).
Proof.
  revert st. induction fuel as [|fuel IH]; intros st; simpl; [done|].
  destruct (continue _ _ _ st); [|done].
  etrans; [apply iteration_length|apply IH].
Qed.

Lemma whileLoop_S fuel st :
  whileLoop random hooks sellingPoints ctas (S fuel) st
  = if continue hooks sellingPoints ctas st
    then whileLoop random hooks sellingPoints ctas fuel
           (iteration random hooks sellingPoints ctas st)
    else st.
Proof. done. Qed.

Lemma targetSequences_pos :
  hooks ≠ [] → sellingPoints ≠ [] → ctas ≠ [] →
  (1 ≤ targetSequences hooks sellingPoints ctas)%Z.
Proof.
  intros Hh Hp Hc. unfold targetSequences.
  rewrite maxCombinations_specCeiling by done. unfold specCeiling.
  destruct hooks as [|h hs]; [done|]. destruct ctas as [|c cs]; [done|].
  destruct sellingPoints as [|p ps]; [done|]. simpl length.
  case_decide as Hz; [simpl in Hz; lia|].
  replace (3 `min` S (length ps)) with (S (3 `min` S (length ps) - 1)) by lia.
  cbn [seq fmap list_fmap sum_list sum_list_with]. unfold id.
  assert (choose (S (length ps)) 1 = S (length ps)) as ->.
  { generalize (length ps). intros n. induction n as [|n IH]; [done|].
    change (choose (S (S n)) 1) with (choose (S n) 0 + choose (S n) 1).
    rewrite IH. simpl. lia. }
  nia.
Qed.

Lemma finalLoop_nonempty :
  hooks ≠ [] → sellingPoints ≠ [] → ctas ≠ [] →
  newSequences (finalLoop random hooks sellingPoints ctas) ≠ [].
Proof.
  intros Hh Hp Hc. pose proof (targetSequences_pos Hh Hp Hc) as Htarget.
  unfold finalLoop. change maxAttempts with (S 99). rewrite whileLoop_S.
  unfold continue. cbn [newSequences initialLoop attempts length].
  rewrite !bool_decide_eq_true_2 by (unfold maxAttempts; lia). cbn [andb].
  intros Hnil.
  pose proof (whileLoop_length 99
                (iteration random hooks sellingPoints ctas initialLoop)) as Hlen.
  rewrite Hnil in Hlen. unfold iteration in Hlen.
  case_decide as Hin; [by apply elem_of_empty in Hin|].
  simpl in Hlen. lia.
Qed.
End nonempty.

(** ** Facts about [generate] *)

Lemma ofType_elem ty availableClips clip :
  clip ∈ ofType ty availableClips ↔ clip_type clip = ty ∧ clip ∈ availableClips.
Proof. unfold ofType. by rewrite list_elem_of_filter. Qed.

Lemma ofType_ids_NoDup ty availableClips :
  NoDup (clip_id <$> availableClips) → NoDup (clip_id <$> ofType ty availableClips).
Proof.
  intros Hnd. eapply sublist_NoDup; [exact Hnd|].
  apply fmap_sublist, sublist_filter.
Qed.

(** With a hook and a cta in the registry, [generateSequences] runs its loop
    and returns what the loop collected. *)
Lemma generate_Generated random availableClips :
  ofType Hook availableClips ≠ [] → ofType Cta availableClips ≠ [] →
  generate random availableClips
  = Generated (newSequences (finalLoop random (ofType Hook availableClips)
                               (ofType SellingPoint availableClips)
                               (ofType Cta availableClips))).
Proof.
  intros Hh Hc. unfold generate.
  case_decide as He.
  { apply nil_length_inv in He. by subst. }
  case_decide as Hr; [|done].
  destruct Hr as [Hr|Hr]; apply nil_length_inv in Hr; congruence.
Qed.

(** Clips read at distinct indices of a pool with distinct ids have distinct
    ids. *)
Lemma picked_ids_NoDup (pool : list VideoClip) indices sps :
  NoDup (clip_id <$> pool) → NoDup indices →
  Forall2 (λ index sp, pool !! index = Some sp) indices sps →
  NoDup (clip_id <$> sps).
Proof.
  intros Hpool Hnd Hall. induction Hall as [|index sp indices sps Hsp Hall IH].
  - constructor.
  - apply NoDup_cons in Hnd as [Hnotin Hnd]. simpl. apply NoDup_cons.
    split; [|by apply IH].
    intros (sp' & Hid & Hin)%list_elem_of_fmap.
    apply list_elem_of_lookup in Hin as [k Hk].
    destruct (Forall2_lookup_r _ _ _ _ _ Hall Hk) as (index' & Hindex' & Hsp').
    assert (index = index') as ->.
    { eapply (NoDup_lookup _ _ _ _ Hpool);
        rewrite list_lookup_fmap; [by rewrite Hsp|by rewrite Hsp', Hid]. }
    by apply Hnotin, list_elem_of_lookup_2 with k.
Qed.

(** The sorted ids depend only on the set of ids. *)
Lemma sort_set (ids1 ids2 : list string) :
  NoDup ids1 → NoDup ids2 →
  list_to_set (C := gset string) ids1 = list_to_set ids2 →
  sort ids1 = sort ids2.
Proof.
  intros H1 H2 Heq. unfold sort.
  apply (Sorted_unique String.le); [apply Sorted_merge_sort, _..|].
  rewrite !merge_sort_Permutation.
  apply NoDup_Permutation; [done..|].
  intros x. by rewrite <-!(elem_of_list_to_set (C := gset string)), Heq.
Qed.

Lemma sort_Permutation (ids1 ids2 : list string) :
  sort ids1 = sort ids2 ↔ ids1 ≡ₚ ids2.
Proof.
  unfold sort. split.
  - intros Heq. by rewrite <-(merge_sort_Permutation String.le ids1), Heq,
      merge_sort_Permutation.
  - intros Hp. apply (Sorted_unique String.le); [apply Sorted_merge_sort, _..|].
    by rewrite !merge_sort_Permutation.
Qed.

(** Two shaped sequences over a pool of distinct ids that have the same
    signature were recorded under the same key. *)
Lemma signature_sequenceKey hooks sellingPoints ctas s1 s2 :
  NoDup (clip_id <$> sellingPoints) →
  shaped hooks sellingPoints ctas s1 → shaped hooks sellingPoints ctas s2 →
  signature s1 = signature s2 → sequenceKey s1 = sequenceKey s2.
Proof.
  intros Hpool (h1 & sps1 & c1 & ix1 & E1 & _ & _ & Hn1 & Hl1 & _)
    (h2 & sps2 & c2 & ix2 & E2 & _ & _ & Hn2 & Hl2 & _).
  unfold signature, sequenceKey. rewrite E1, E2, !parts_shape. simpl.
  intros [= Hh Hs Hc]. f_equal. unfold combinationKey.
  rewrite Hh, Hc. do 3 f_equal.
  apply sort_set; [exact (picked_ids_NoDup _ _ _ Hpool Hn1 Hl1)
                  |exact (picked_ids_NoDup _ _ _ Hpool Hn2 Hl2)|done].
Qed.

Lemma shaped_signature hooks sellingPoints ctas s :
  shaped hooks sellingPoints ctas s → is_Some (signature s).
Proof.
  intros (h & sps & c & ix & E & _). unfold signature.
  rewrite E, parts_shape. by eexists.
Qed.

(** Distinctness passes from one labelling of a list to another that
    determines it. *)
Lemma NoDup_fmap_transfer {A B C} (f : A → B) (g : A → C) (l : list A) :
  (∀ x y, x ∈ l → y ∈ l → g x = g y → f x = f y) →
  NoDup (f <$> l) → NoDup (g <$> l).
Proof.
  induction l as [|a l IH]; intros Hfg; simpl; [constructor|].
  rewrite !NoDup_cons. intros [Hnotin Hnd]. split.
  - intros (b & Hgb & Hb)%list_elem_of_fmap. apply Hnotin.
    apply list_elem_of_fmap. exists b. split; [|done].
    apply Hfg; [left|by right|done].
  - apply IH; [|done]. intros x y Hx Hy. apply Hfg; by right.
Qed.

(** ** The generator: the properties of the specification *)

Lemma sortedSignature_sequenceKey s1 s2 :
  sortedSignature s1 = sortedSignature s2 → sequenceKey s1 = sequenceKey s2.
Proof.
  unfold sortedSignature, sequenceKey, combinationKey.
  destruct (parts (seq_clips s1)) as [[[h1 sps1] c1]|],
    (parts (seq_clips s2)) as [[[h2 sps2] c2]|]; simpl; try done.
  by intros [= -> -> ->].
Qed.

(** C3. For every registry that holds a hook and a cta, and for every
    outcome of the random draws, [generateSequences] returns sequences that
    all have a combination signature and no two of them the same one.  The
    signature is order-normalized: the hook id, the sorted selling-point
    ids, the cta id; and, the ids of the registry being pairwise distinct as
    the data model has them, the hook id, the set of selling-point ids, the
    cta id.  The order of the selling points does not tell two sequences
    apart. *)
Theorem generate_signatures_distinct random (availableClips : list VideoClip) :
  ofType Hook availableClips ≠ [] → ofType Cta availableClips ≠ [] →
  ∃ newSequences,
    generate random availableClips = Generated newSequences
    ∧ Forall (λ s, is_Some (signature s)) newSequences
    ∧ NoDup (sortedSignature <$> newSequences)
    ∧ (NoDup (clip_id <$> availableClips) → NoDup (signature <$> newSequences)).
Proof.
  intros Hh Hc. eexists. split; [by apply generate_Generated|].
  destruct (finalLoop_invariant random _ (ofType SellingPoint availableClips) _
              Hh Hc) as [Hshaped _ Hkeys _ _].
  split_and!.
  - eapply Forall_impl; [exact Hshaped|]. intros s. apply shaped_signature.
  - eapply NoDup_fmap_transfer; [|exact Hkeys].
    intros s1 s2 _ _. apply sortedSignature_sequenceKey.
  - intros Hids. eapply NoDup_fmap_transfer; [|exact Hkeys].
    intros s1 s2 H1 H2. rewrite Forall_forall in Hshaped.
    eapply signature_sequenceKey; [by apply ofType_ids_NoDup|by apply Hshaped..].
Qed.

Lemma generate_signatures_distinct_witness :
  ∃ newSequences,
    generate sampleRandom sampleClips = Generated newSequences
    ∧ length newSequences = 3
    ∧ NoDup (signature <$> newSequences).
Proof.
  destruct (generate_signatures_distinct sampleRandom sampleClips)
    as (l & Hg & _ & _ & Hset); [by vm_compute..|].
  exists l. split; [done|]. split.
  - vm_compute in Hg. by injection Hg as <-.
  - apply Hset. by apply (bool_decide_unpack _).
Defined.

Lemma durationSum_nil : durationSum [] = 0%float.
Proof. done. Qed.

Lemma durationSum_snoc clips clip :
  durationSum (clips ++ [clip]) = (durationSum clips + clip_duration clip)%float.
Proof. unfold durationSum. by rewrite reverse_snoc. Qed.

(** The fold of line 250 computes the sum of the durations. *)
Lemma totalDuration_durationSum sequenceClips :
  totalDuration sequenceClips = durationSum sequenceClips.
Proof.
  unfold totalDuration.
  induction sequenceClips as [|clip sequenceClips IH] using rev_ind; [done|].
  by rewrite foldl_snoc, durationSum_snoc, IH.
Qed.

(** C7. With a hook, a cta and a selling point in the registry,
    [generateSequences] returns at least one sequence, and every sequence it
    returns is one hook clip, then between
    1 and [min 3 |points|] selling-point clips taken at pairwise distinct
    places of the pool, then one cta clip, and its duration is the sum of
    the durations of these clips. *)
Theorem generate_composed random (availableClips : list VideoClip) :
  ofType Hook availableClips ≠ [] →
  ofType SellingPoint availableClips ≠ [] →
  ofType Cta availableClips ≠ [] →
  ∃ newSequences,
    generate random availableClips = Generated newSequences
    ∧ newSequences ≠ []
    ∧ Forall (composed availableClips) newSequences.
Proof.
  intros Hh Hp Hc. eexists. split; [by apply generate_Generated|].
  split; [by apply finalLoop_nonempty|].
  destruct (finalLoop_invariant random _ (ofType SellingPoint availableClips) _
              Hh Hc) as [Hshaped _ _ _ _].
  eapply Forall_impl; [exact Hshaped|].
  intros s (h & sps & c & ix & E & Hhin & Hcin & Hnd & Hl & Hle & Hge & Hd).
  apply ofType_elem in Hhin as [? ?]. apply ofType_elem in Hcin as [? ?].
  exists h, sps, c. split_and!; try done.
  - apply Forall_forall. intros p Hpin.
    apply list_elem_of_lookup in Hpin as [k Hk].
    destruct (Forall2_lookup_r _ _ _ _ _ Hl Hk) as (index & _ & Hsp).
    apply list_elem_of_lookup_2, ofType_elem in Hsp. tauto.
  - by apply Hge.
  - by exists ix.
  - intros Hids. eapply picked_ids_NoDup; [|exact Hnd|exact Hl].
    by apply ofType_ids_NoDup.
  - by rewrite Hd, E, totalDuration_durationSum.
Qed.

Lemma generate_composed_witness :
  ∃ newSequences,
    generate sampleRandom sampleClips = Generated newSequences
    ∧ newSequences ≠ []
    ∧ Forall (composed sampleClips) newSequences
    ∧ seq_duration <$> newSequences = [7.5%float; 4.5%float; 6%float].
Proof.
  destruct (generate_composed sampleRandom sampleClips)
    as (newSequences & Hg & Hne & Hall); [by vm_compute..|].
  exists newSequences. split_and!; [done|done|done|].
  vm_compute in Hg. by injection Hg as <-.
Defined.

(** C8. [generateSequences] ends with [EmptyInput] on an empty registry, and
    with [MissingRole] on a non-empty registry without a hook or without a
    cta; in both cases it shows the error notice of the case and leaves the
    sequences of the state as they were: none is produced. *)
Theorem generate_rejects random (w : World) :
  (availableClips w = [] →
     generate random (availableClips w) = EmptyInput
     ∧ events (generateSequences random w)
       = events w ++ [ToastError "Please upload some video clips first"]
     ∧ sequences (generateSequences random w) = sequences w)
  ∧ (availableClips w ≠ [] →
     ofType Hook (availableClips w) = [] ∨ ofType Cta (availableClips w) = [] →
     generate random (availableClips w) = MissingRole
     ∧ events (generateSequences random w)
       = events w ++ [ToastError "You need at least one hook and one CTA clip"]
     ∧ sequences (generateSequences random w) = sequences w).
Proof.
  split.
  - intros He. assert (generate random (availableClips w) = EmptyInput) as Hg
      by (by rewrite He).
    unfold generateSequences. by rewrite Hg.
  - intros Hne Hmiss.
    assert (generate random (availableClips w) = MissingRole) as Hg.
    { unfold generate. case_decide as Hl.
      - by apply nil_length_inv in Hl.
      - case_decide as Hr; [done|]. exfalso. apply Hr.
        destruct Hmiss as [->| ->]; auto. }
    unfold generateSequences. by rewrite Hg.
Qed.

Lemma generate_rejects_witness :
  let w := mkWorld [sampleHook; samplePointA] [] false true ∅ [] [] in
  generate sampleRandom (availableClips w) = MissingRole
  ∧ events (generateSequences sampleRandom w)
    = events w ++ [ToastError "You need at least one hook and one CTA clip"]
  ∧ sequences (generateSequences sampleRandom w) = sequences w.
Proof.
  intros w.
  apply (proj2 (generate_rejects sampleRandom w)); [done|by right].
Defined.

(** C2 (the code differs). On a registry of one hook and one cta, without a
    selling point, [generateSequences] returns no sequence, whatever the
    random draws: the ceiling it computes is 0, so the loop is not entered. *)
Theorem generate_without_points random hookId hookName hookDuration hookFile
    ctaId ctaName ctaDuration ctaFile :
  generate random [mkClip hookId hookName hookDuration Hook hookFile;
                   mkClip ctaId ctaName ctaDuration Cta ctaFile]
  = Generated [].
Proof. reflexivity. Qed.

(** C4 (the code differs). On one hook, no selling point and one cta the
    ceiling of the design is 1, the ceiling that the code computes is 0,
    its target is 0, and it returns 0 sequences although no attempt was
    used. *)
Theorem ceiling_without_points random (hook cta : VideoClip) :
  specCeiling 1 0 1 = 1
  ∧ maxCombinations [hook] [] [cta] = 0%Z
  ∧ targetSequences [hook] [] [cta] = 0%Z
  ∧ newSequences (finalLoop random [hook] [] [cta]) = []
  ∧ attempts (finalLoop random [hook] [] [cta]) = 0.
Proof. by split_and!. Qed.

(** ** The registry and the generated sequences *)

Lemma applyChange_sequences change w :
  sequences (applyChange change w) = sequences w.
Proof. by destruct change. Qed.

Lemma applyChanges_sequences changes w :
  sequences (applyChanges changes w) = sequences w.
Proof.
  revert w. induction changes as [|change changes IH]; intros w; [done|].
  unfold applyChanges in *. simpl. by rewrite IH, applyChange_sequences.
Qed.

(** *** With object identity *)

(** Retyping allocates; it never writes to an object that exists. *)
Lemma retype_store clipId newType prev σ r clip :
  σ !! r = Some clip → (Heap.retype clipId newType prev σ).2 !! r = Some clip.
Proof.
  revert σ. induction prev as [|r0 rest IH]; intros σ Hr; simpl; [done|].
  destruct (σ !! r0) as [clip0|] eqn:Hr0.
  - case_decide.
    + set (σ1 := <[fresh (dom σ) := _]> σ).
      specialize (IH σ1). destruct (Heap.retype clipId newType rest σ1).
      simpl in *. apply IH. unfold σ1. rewrite lookup_insert_ne; [done|].
      intros Heq. apply (is_fresh (dom σ)). rewrite Heq.
      apply elem_of_dom. by eexists.
    + specialize (IH σ). destruct (Heap.retype clipId newType rest σ). by apply IH.
  - specialize (IH σ). destruct (Heap.retype clipId newType rest σ). by apply IH.
Qed.

Lemma applyChangeRef_store change h r clip :
  Heap.store h !! r = Some clip →
  Heap.store (applyChangeRef change h) !! r = Some clip.
Proof.
  destruct change as [clipId newType|clipId|]; simpl; try done.
  intros Hr. unfold Heap.updateClipType.
  pose proof (retype_store clipId newType (Heap.availableClips h) _ _ _ Hr) as H.
  by destruct (Heap.retype _ _ _ _).
Qed.

Lemma applyChangeRef_sequences change h :
  Heap.sequences (applyChangeRef change h) = Heap.sequences h.
Proof.
  destruct change as [clipId newType|clipId|]; simpl; try done.
  unfold Heap.updateClipType. by destruct (Heap.retype _ _ _ _).
Qed.

Lemma applyChangesRef_store changes h r clip :
  Heap.store h !! r = Some clip →
  Heap.store (applyChangesRef changes h) !! r = Some clip.
Proof.
  revert h. induction changes as [|change changes IH]; intros h Hr; [done|].
  unfold applyChangesRef in *. simpl. by apply IH, applyChangeRef_store.
Qed.

Lemma applyChangesRef_sequences changes h :
  Heap.sequences (applyChangesRef changes h) = Heap.sequences h.
Proof.
  revert h. induction changes as [|change changes IH]; intros h; [done|].
  unfold applyChangesRef in *. simpl. by rewrite IH, applyChangeRef_sequences.
Qed.

(** The registry seen through the store changes as the registry of values
    does: the model with values is the one with objects, read through
    [deref]. *)
Lemma retype_deref clipId newType prev σ clips :
  Heap.deref σ prev = Some <$> clips →
  Heap.deref (Heap.retype clipId newType prev σ).2
    (Heap.retype clipId newType prev σ).1
  = Some <$> ((λ clip, if decide (clip_id clip = clipId)
                       then mkClip (clip_id clip) (clip_name clip)
                              (clip_duration clip) newType (clip_file clip)
                       else clip) <$> clips).
Proof.
  revert σ clips. induction prev as [|r rest IH]; intros σ [|clip clips] Hd;
    try done.
  assert (σ !! r = Some clip ∧ Heap.deref σ rest = Some <$> clips) as [Hr Hrest]
    by (by injection Hd).
  simpl. rewrite Hr. case_decide as Hid.
  - set (new := mkClip _ _ _ newType _). set (σ1 := <[fresh (dom σ) := new]> σ).
    assert (Heap.deref σ1 rest = Some <$> clips) as Hrest1.
    { rewrite <-Hrest. unfold Heap.deref. apply list_fmap_ext.
      intros k r' Hk. unfold σ1. apply lookup_insert_ne.
      intros Heq. apply (is_fresh (dom σ)). rewrite Heq. apply elem_of_dom.
      apply (f_equal (λ l, l !! k)) in Hrest.
      unfold Heap.deref in Hrest. rewrite !list_lookup_fmap, Hk in Hrest.
      simpl in Hrest. destruct (clips !! k); simplify_eq/=. by eexists. }
    specialize (IH σ1 clips Hrest1).
    pose proof (retype_store clipId newType rest σ1 (fresh (dom σ)) new) as Hnew.
    destruct (Heap.retype clipId newType rest σ1) as [rest' σ']. simpl in *.
    f_equal; [|exact IH].
    rewrite Hnew by apply lookup_insert_eq. by rewrite ?decide_True.
  - specialize (IH σ clips Hrest).
    pose proof (retype_store clipId newType rest σ r clip Hr) as Hold.
    destruct (Heap.retype clipId newType rest σ) as [rest' σ']. simpl in *.
    f_equal; [|exact IH].
    rewrite Hold. by rewrite ?decide_False.
Qed.

Lemma removeClip_deref clipId σ prev clips :
  Heap.deref σ prev = Some <$> clips →
  Heap.deref σ (filter (λ r, clip_id <$> σ !! r ≠ Some clipId) prev)
  = Some <$> filter (λ clip, clip_id clip ≠ clipId) clips.
Proof.
  revert clips. induction prev as [|r rest IH]; intros [|clip clips] Hd; try done.
  assert (σ !! r = Some clip ∧ Heap.deref σ rest = Some <$> clips) as [Hr Hrest]
    by (by injection Hd).
  rewrite !filter_cons. rewrite Hr. simpl.
  specialize (IH clips Hrest).
  destruct (decide (clip_id clip ≠ clipId)) as [Hne|He].
  - rewrite decide_True by congruence.
    change (Heap.deref σ (r :: ?l)) with (σ !! r :: Heap.deref σ l).
    by rewrite Hr, IH.
  - by rewrite decide_False by (intros Hn; apply He; congruence).
Qed.

Lemma applyChangeRef_refines change h w :
  Heap.deref (Heap.store h) (Heap.availableClips h) = Some <$> availableClips w →
  Heap.deref (Heap.store (applyChangeRef change h))
    (Heap.availableClips (applyChangeRef change h))
  = Some <$> availableClips (applyChange change w).
Proof.
  intros Hview. destruct change as [clipId newType|clipId|]; simpl.
  - unfold Heap.updateClipType.
    pose proof (retype_deref clipId newType _ _ _ Hview) as H.
    by destruct (Heap.retype _ _ _ _).
  - by apply removeClip_deref.
  - done.
Qed.

Lemma applyChangesRef_refines changes h w :
  Heap.deref (Heap.store h) (Heap.availableClips h) = Some <$> availableClips w →
  Heap.deref (Heap.store (applyChangesRef changes h))
    (Heap.availableClips (applyChangesRef changes h))
  = Some <$> availableClips (applyChanges changes w).
Proof.
  revert h w. induction changes as [|change changes IH]; intros h w Hview; [done|].
  unfold applyChangesRef, applyChanges in *. simpl.
  by apply IH, applyChangeRef_refines.
Qed.

(** C9. Changing the role of a clip and removing clips, one by one or all at
    once, in any number and order, leave the sequences of the state as they
    are: after a generation the state still holds the generated sequences
    with the clip records, roles and durations they were built from.  With
    clips as shared objects the same holds: the sequences keep their
    addresses, and the objects at these addresses are not written to. *)
Theorem registry_changes_keep_sequences random changes (w : World) (h : Heap.State) :
  (sequences (applyChanges changes w) = sequences w
   ∧ ∀ newSequences,
       generate random (availableClips w) = Generated newSequences →
       sequences (applyChanges changes (generateSequences random w)) = newSequences)
  ∧ (Heap.sequences (applyChangesRef changes h) = Heap.sequences h
     ∧ ∀ s, s ∈ Heap.sequences h →
         allocated (Heap.store h) (Heap.ref_clips s) →
         Heap.deref (Heap.store (applyChangesRef changes h)) (Heap.ref_clips s)
         = Heap.deref (Heap.store h) (Heap.ref_clips s)).
Proof.
  split; split.
  - apply applyChanges_sequences.
  - intros l Hg. rewrite applyChanges_sequences.
    unfold generateSequences. by rewrite Hg.
  - apply applyChangesRef_sequences.
  - intros s _ Halloc. unfold Heap.deref. apply list_fmap_ext.
    intros k r Hk. unfold allocated in Halloc. rewrite Forall_forall in Halloc.
    destruct (Halloc r (list_elem_of_lookup_2 _ _ _ Hk)) as [clip Hclip].
    rewrite Hclip. by apply applyChangesRef_store.
Qed.

Lemma registry_changes_keep_sequences_witness :
  let w := mkWorld sampleClips [] false true ∅ [] [] in
  let changes := [ChangeRole (clip_id samplePointA) Hook;
                  Remove (clip_id sampleHook); RemoveAll] in
  (∃ newSequences,
     generate sampleRandom (availableClips w) = Generated newSequences
     ∧ length newSequences = 3
     ∧ sequences (applyChanges changes (generateSequences sampleRandom w))
       = newSequences)
  ∧ Heap.deref (Heap.store (applyChangesRef changes sampleHeap))
      [1%positive; 2%positive; 4%positive]
    = [Some sampleHook; Some samplePointA; Some sampleCta].
Proof.
  intros w changes.
  destruct (registry_changes_keep_sequences sampleRandom changes w sampleHeap)
    as [[_ Hvalues] [_ Hobjects]].
  split.
  - eexists. split; [by vm_compute|]. split; [done|].
    apply Hvalues. by vm_compute.
  - apply (Hobjects (Heap.mkSequenceRef "sequence-1"
                       [1%positive; 2%positive; 4%positive] 6.0%float)).
    + by apply list_elem_of_singleton.
    + repeat constructor; by eexists.
Defined.

(** ** The combination key tells combinations apart *)

Lemma string_app_nil s : "" +:+ s = s.
Proof. done. Qed.

Lemma string_app_cons a s1 s2 : String a s1 +:+ s2 = String a (s1 +:+ s2).
Proof. done. Qed.

Lemma barFree_app s1 s2 : barFree (s1 +:+ s2) ↔ barFree s1 ∧ barFree s2.
Proof.
  induction s1 as [|a s1 IH].
  - rewrite string_app_nil. simpl. tauto.
  - rewrite string_app_cons. simpl. rewrite IH. tauto.
Qed.

Lemma numberText_barFree s : numberText s → barFree s.
Proof.
  induction s as [|a s IH]; simpl; [done|]. intros [Ha Hs]. split; [|auto].
  intros ->. unfold numberChar in Ha. simpl in Ha.
  repeat (apply elem_of_cons in Ha as [Ha|Ha]; [discriminate|]).
  by apply elem_of_nil in Ha.
Qed.

Lemma pretty_N_char_bar x : pretty_N_char x ≠ "|"%char.
Proof. unfold pretty_N_char. by repeat case_match. Qed.

Lemma pretty_N_go_barFree x s : barFree s → barFree (pretty_N_go x s).
Proof.
  revert s. induction (N.lt_wf_0 x) as [x _ IH]; intros s Hs.
  destruct (decide (x = 0)%N) as [->|Hx]; [by rewrite pretty_N_go_0|].
  rewrite pretty_N_go_step by lia. apply IH.
  - apply N.div_lt; lia.
  - simpl. split; [apply pretty_N_char_bar|done].
Qed.

Lemma pretty_N_barFree (x : N) : barFree (pretty x).
Proof.
  unfold pretty, pretty_N. case_decide; [by compute|].
  by apply pretty_N_go_barFree.
Qed.

Lemma pretty_nat_barFree (x : nat) : barFree (pretty x).
Proof. apply pretty_N_barFree. Qed.

Lemma created_barFree clipId : created clipId → barFree clipId.
Proof.
  intros (now & randomText & Hr & ->). unfold newClipId.
  rewrite !barFree_app. split_and!; [by compute|apply pretty_N_barFree
                                     |by compute|by apply numberText_barFree].
Qed.

(** Two texts cut by a bar are equal part by part when the first parts have
    no bar. *)
Lemma bar_split x y s t :
  barFree x → barFree y →
  x +:+ "|" +:+ s = y +:+ "|" +:+ t → x = y ∧ s = t.
Proof.
  revert y. induction x as [|a x IH]; intros [|b y];
    repeat (rewrite string_app_nil || rewrite string_app_cons); simpl.
  - intros _ _ [= ->]. done.
  - intros _ [Hb _] [= <-]. done.
  - intros [Ha _] _ [= ->]. done.
  - intros [_ Hx] [_ Hy] [= -> Heq]. destruct (IH y Hx Hy Heq) as [-> ->]. done.
Qed.

Lemma join_cons sep x y l : join sep (x :: y :: l) = x +:+ sep +:+ join sep (y :: l).
Proof. done. Qed.

Lemma join_bar_inj l1 l2 :
  l1 ≠ [] → l2 ≠ [] → Forall barFree l1 → Forall barFree l2 →
  join "|" l1 = join "|" l2 → l1 = l2.
Proof.
  revert l2. induction l1 as [|x l1 IH]; intros [|y l2] H1 H2 Hf1 Hf2; try done.
  apply Forall_cons in Hf1 as [Hx Hf1]. apply Forall_cons in Hf2 as [Hy Hf2].
  destruct l1 as [|x' l1], l2 as [|y' l2].
  - simpl. by intros ->.
  - rewrite join_cons. cbn [join]. intros ->.
    apply barFree_app in Hx as [_ Hx]. rewrite string_app_cons in Hx.
    simpl in Hx. by destruct Hx.
  - rewrite join_cons. cbn [join]. intros <-.
    apply barFree_app in Hy as [_ Hy]. rewrite string_app_cons in Hy.
    simpl in Hy. by destruct Hy.
  - rewrite !join_cons. intros [-> Heq]%bar_split; [|done..].
    f_equal. by apply IH.
Qed.

Lemma combinationKey_ids h sps c h' sps' c' :
  Forall (λ clip, barFree (clip_id clip)) (h :: sps ++ [c]) →
  Forall (λ clip, barFree (clip_id clip)) (h' :: sps' ++ [c']) →
  combinationKey h sps c = combinationKey h' sps' c' →
  clip_id h = clip_id h'
  ∧ sort (clip_id <$> sps) = sort (clip_id <$> sps')
  ∧ clip_id c = clip_id c'.
Proof.
  intros Hf Hf' Hkey. unfold combinationKey in Hkey.
  assert (∀ k ps d, Forall (λ clip, barFree (clip_id clip)) (k :: ps ++ [d]) →
            Forall barFree (clip_id k :: sort (clip_id <$> ps) ++ [clip_id d]))
    as Hall.
  { intros k ps d [Hk [Hps Hd]%Forall_app]%Forall_cons.
    apply Forall_cons; split; [done|]. apply Forall_app; split.
    - unfold sort. rewrite merge_sort_Permutation. rewrite Forall_fmap. exact Hps.
    - apply Forall_singleton. by inversion_clear Hd. }
  apply join_bar_inj in Hkey; [|done|done|by apply Hall..].
  injection Hkey as Hh Htail.
  apply app_inj_tail in Htail as [Hs Hc]. done.
Qed.

(** An attempt is discarded only when a sequence already collected has the
    same hook id, the same selling-point ids up to order, and the same cta
    id. *)
Lemma iteration_discards_duplicate random hooks sellingPoints ctas st :
  hooks ≠ [] → ctas ≠ [] →
  Forall (λ clip, barFree (clip_id clip)) (hooks ++ sellingPoints ++ ctas) →
  invariant hooks sellingPoints ctas st →
  newSequences (iteration random hooks sellingPoints ctas st) = newSequences st →
  ∃ s h sps c,
    s ∈ newSequences st ∧ seq_clips s = h :: sps ++ [c]
    ∧ clip_id h = clip_id (selectedHook (select random hooks sellingPoints ctas (draws st)))
    ∧ clip_id <$> sps
      ≡ₚ clip_id <$> selectedSellingPoints
                       (select random hooks sellingPoints ctas (draws st))
    ∧ clip_id c = clip_id (selectedCTA (select random hooks sellingPoints ctas (draws st))).
Proof.
  intros Hh Hc Hfree [Hshaped Hused _ _ _]. unfold iteration.
  set (sel := select random hooks sellingPoints ctas (draws st)).
  case_decide as Hin; simpl.
  2:{ intros Heq%(f_equal length). rewrite length_app in Heq. simpl in Heq. lia. }
  intros _. apply Hused, list_elem_of_fmap in Hin as (s & Hkey & Hs).
  rewrite Forall_forall in Hshaped.
  destruct (Hshaped s Hs) as (h & sps & c & ix & E & Hhin & Hcin & _ & Hl & _).
  unfold sequenceKey in Hkey. rewrite E, parts_shape in Hkey. simpl in Hkey.
  injection Hkey as Hkey.
  rewrite !Forall_app, !Forall_forall in Hfree. destruct Hfree as (Fh & Fp & Fc).
  assert (∀ indices ps,
            Forall2 (λ index p, sellingPoints !! index = Some p) indices ps →
            Forall (λ clip, barFree (clip_id clip)) ps) as Hpicked.
  { intros indices ps Hall. apply Forall_forall. intros p Hp.
    apply list_elem_of_lookup in Hp as [k Hk].
    destruct (Forall2_lookup_r _ _ _ _ _ Hall Hk) as (index & _ & Hsp).
    by apply Fp, list_elem_of_lookup_2 with index. }
  symmetry in Hkey. apply combinationKey_ids in Hkey as (? & ?%sort_Permutation & ?).
  - by exists s, h, sps, c.
  - apply Forall_cons. split; [by apply Fh|]. apply Forall_app. split.
    + by apply Hpicked with ix.
    + apply Forall_singleton. by apply Fc.
  - apply Forall_cons. split; [by apply Fh, select_hook_in|].
    apply Forall_app. split.
    + apply Hpicked with (drawn random sellingPoints (draws st)).
      apply select_points_lookup.
    + apply Forall_singleton. by apply Fc, select_cta_in.
Qed.

(** C10. Every id that the upload makes has no ['|']; on combinations whose
    ids have no ['|'] the key is injective: equal keys come only from the
    same hook id, the same cta id and the same selling-point ids up to their
    order; so the loop of [generateSequences] discards an attempt only when
    a sequence with that very combination was collected before. *)
Theorem combinationKey_injective :
  (∀ clipId, created clipId → barFree clipId)
  ∧ (∀ h sps c h' sps' c',
       Forall (λ clip, barFree (clip_id clip)) (h :: sps ++ [c]) →
       Forall (λ clip, barFree (clip_id clip)) (h' :: sps' ++ [c']) →
       combinationKey h sps c = combinationKey h' sps' c' →
       clip_id h = clip_id h'
       ∧ clip_id <$> sps ≡ₚ clip_id <$> sps'
       ∧ clip_id c = clip_id c')
  ∧ (∀ random hooks sellingPoints ctas st,
       hooks ≠ [] → ctas ≠ [] →
       Forall (λ clip, barFree (clip_id clip)) (hooks ++ sellingPoints ++ ctas) →
       invariant hooks sellingPoints ctas st →
       newSequences (iteration random hooks sellingPoints ctas st)
       = newSequences st →
       ∃ s h sps c,
         s ∈ newSequences st ∧ seq_clips s = h :: sps ++ [c]
         ∧ clip_id h
           = clip_id (selectedHook (select random hooks sellingPoints ctas (draws st)))
         ∧ clip_id <$> sps
           ≡ₚ clip_id <$> selectedSellingPoints
                            (select random hooks sellingPoints ctas (draws st))
         ∧ clip_id c
           = clip_id (selectedCTA (select random hooks sellingPoints ctas (draws st)))).
Proof.
  split_and!; [apply created_barFree| |apply iteration_discards_duplicate].
  intros h sps c h' sps' c' Hf Hf' Hkey.
  destruct (combinationKey_ids _ _ _ _ _ _ Hf Hf' Hkey) as (? & ? & ?).
  split_and!; [done| |done]. by apply sort_Permutation.
Qed.

Lemma combinationKey_injective_witness :
  clip_id <$> [samplePointA; samplePointB] ≡ₚ clip_id <$> [samplePointB; samplePointA].
Proof.
  refine (proj1 (proj2 (proj1 (proj2 combinationKey_injective)
    sampleHook [samplePointA; samplePointB] sampleCta
    sampleHook [samplePointB; samplePointA] sampleCta _ _ _))).
  - repeat constructor; by compute.
  - repeat constructor; by compute.
  - reflexivity.
Defined.

(** ** Running asynchronous code *)

Lemma bind_run {A B} (m : Async A) (f : A → Async B) w :
  (m ≫= f) w = match m w with
               | (w', inl e) => (w', inl e)
               | (w', inr a) => f a w'
               end.
Proof. done. Qed.

Lemma bind_ok {A B} (m : Async A) (f : A → Async B) w w' a :
  m w = (w', inr a) → (m ≫= f) w = f a w'.
Proof. intros H. by rewrite bind_run, H. Qed.

Lemma bind_err {A B} (m : Async A) (f : A → Async B) w w' e :
  m w = (w', inl e) → (m ≫= f) w = (w', inl e).
Proof. intros H. by rewrite bind_run, H. Qed.

Lemma bind_effect {B} (g : World → World) (f : unit → Async B) w :
  (effect g ≫= f) w = f tt (g w).
Proof. done. Qed.

Lemma when_run b (g : World → World) w :
  when b (effect g) w = (if b then g w else w, inr tt).
Proof. by destruct b. Qed.

(** ** Relations that every step of a computation respects *)

Section respects.
Context (R : relation World) `{!PreOrder R}.

Lemma respects_ret {A} (a : A) : respects R (mret a).
Proof. intros w. simpl. reflexivity. Qed.

Lemma respects_throw {A} e : respects R (@throw A e).
Proof. intros w. simpl. reflexivity. Qed.

Lemma respects_effect (g : World → World) :
  (∀ w, R w (g w)) → respects R (effect g).
Proof. intros Hg w. apply Hg. Qed.

Lemma respects_bind {A B} (m : Async A) (f : A → Async B) :
  respects R m → (∀ a, respects R (f a)) → respects R (m ≫= f).
Proof.
  intros Hm Hf w. rewrite bind_run. specialize (Hm w).
  destruct (m w) as [w' [e|a]]; simpl in *; [done|].
  etrans; [exact Hm|apply Hf].
Qed.

Lemma respects_when b (m : Async unit) : respects R m → respects R (when b m).
Proof. intros Hm. destruct b; [done|apply respects_ret]. Qed.

Lemma respects_forRange start count (body : nat → Async unit) :
  (∀ i, respects R (body i)) → respects R (forRange start count body).
Proof.
  intros Hb. revert start. induction count as [|count IH]; intros start; simpl.
  - apply respects_ret.
  - apply respects_bind; [apply Hb|]. intros _. apply IH.
Qed.

(** What [catch] and [finally] add to the world that the [try] block left. *)
Lemma tryCatchFinally_after {A} (body : Async A) handler final w :
  (∀ e, respects R (handler e)) → respects R final →
  R (body w).1 (tryCatchFinally body handler final w).1.
Proof.
  intros Hh Hf. unfold tryCatchFinally.
  destruct (body w) as [w1 [e|a]]; simpl.
  - specialize (Hh e w1). destruct (handler e w1) as [w2 r2]. simpl in Hh.
    specialize (Hf w2). destruct (final w2) as [w3 r3]. simpl in *.
    by etrans.
  - specialize (Hf w1). by destruct (final w1) as [w3 r3].
Qed.

Lemma respects_tryCatchFinally {A} (body : Async A) handler final :
  respects R body → (∀ e, respects R (handler e)) → respects R final →
  respects R (tryCatchFinally body handler final).
Proof.
  intros Hb Hh Hf w. etrans; [apply Hb|]. by apply tryCatchFinally_after.
Qed.

(** The steps of the export pipeline, for a relation that the setters
    respect and that lets the events [allowed] through. *)
Variable allowed : Event → Prop.
Hypothesis R_setLoading : ∀ b w, R w (setLoading b w).
Hypothesis R_withVfs : ∀ fs w, R w (withVfs fs w).
Hypothesis R_logCall : ∀ c w, R w (logCall c w).
Hypothesis R_emit : ∀ e w, allowed e → R w (emit e w).
Hypothesis allowed_ToastSuccess : ∀ message, allowed (ToastSuccess message).
Hypothesis allowed_ToastError : ∀ message, allowed (ToastError message).
Hypothesis allowed_ConsoleError : ∀ label error, allowed (ConsoleError label error).

Variable ffmpegExec :
  list string → gmap string FileData → gmap string FileData * option string.

Lemma respects_toast e : allowed e → respects R (toast e).
Proof. intros He. apply respects_effect. intros w. by apply R_emit. Qed.

Lemma respects_writeFile path data : respects R (writeFile path data).
Proof. apply respects_effect. intros w. etrans; [apply R_withVfs|apply R_logCall]. Qed.

Lemma respects_readFile path : respects R (readFile path).
Proof. intros w. unfold readFile. destruct (vfs w !! path); apply R_logCall. Qed.

Lemma respects_deleteFile path : respects R (deleteFile path).
Proof.
  intros w. unfold deleteFile. destruct (vfs w !! path); simpl; [|apply R_logCall].
  etrans; [apply R_withVfs|apply R_logCall].
Qed.

Lemma respects_exec args : respects R (exec ffmpegExec args).
Proof.
  intros w. unfold exec. destruct (ffmpegExec args (vfs w)) as [fs failure]. simpl.
  etrans; [apply R_withVfs|apply R_logCall].
Qed.

Lemma respects_stageClips clips i listFileContent :
  respects R (stageClips clips i listFileContent).
Proof.
  revert i listFileContent. induction clips as [|clip rest IH]; intros i text; simpl.
  - apply respects_ret.
  - destruct (clip_file clip); [|apply respects_throw].
    apply respects_bind; [apply respects_writeFile|]. intros _. apply IH.
Qed.

Lemma respects_prepare sequence index : respects R (prepare ffmpegExec sequence index).
Proof.
  unfold prepare.
  apply respects_bind; [by apply respects_effect|]. intros _.
  apply respects_bind; [by apply respects_when, respects_toast|]. intros _.
  apply respects_bind; [apply respects_stageClips|]. intros text.
  apply respects_bind; [apply respects_writeFile|]. intros _.
  apply respects_exec.
Qed.

Lemma respects_deliver sequence index :
  (index = None → ∀ filename content, allowed (Download filename content)) →
  respects R (deliver sequence index).
Proof.
  intros Hd. unfold deliver.
  apply respects_bind; [apply respects_readFile|]. intros data.
  destruct index as [i|]; [apply respects_ret|].
  apply respects_bind; [by apply respects_toast, Hd|]. intros _.
  apply respects_bind; [apply respects_forRange; intros; apply respects_deleteFile|].
  intros _.
  apply respects_bind; [apply respects_deleteFile|]. intros _.
  apply respects_bind; [apply respects_deleteFile|]. intros _.
  apply respects_bind; [by apply respects_when, respects_toast|]. intros _.
  apply respects_ret.
Qed.

Lemma respects_handler index error :
  respects R
    (toast (ConsoleError "Export error:" error) ;;
     when (falsy index) (toast (ToastError "Failed to export sequence")) ;;
     throw (A := option Artifact) error).
Proof.
  apply respects_bind; [by apply respects_toast|]. intros _.
  apply respects_bind; [by apply respects_when, respects_toast|]. intros _.
  apply respects_throw.
Qed.

Lemma respects_final index :
  respects R (when (falsy index) (effect (setLoading false))).
Proof. by apply respects_when, respects_effect. Qed.

Lemma respects_exportSequence sequence index :
  (index = None → ∀ filename content, allowed (Download filename content)) →
  respects R (exportSequence ffmpegExec sequence index).
Proof.
  intros Hd w. unfold exportSequence. destruct (ffmpegReady w); simpl.
  - apply respects_tryCatchFinally.
    + apply respects_bind; [apply respects_prepare|]. intros _.
      by apply respects_deliver.
    + apply respects_handler.
    + apply respects_final.
  - by apply R_emit.
Qed.

Lemma respects_exportLoop sequences i zip :
  respects R (exportLoop ffmpegExec sequences i zip).
Proof.
  revert i zip. induction sequences as [|sequence rest IH]; intros i zip; simpl.
  - apply respects_ret.
  - apply respects_bind; [by apply respects_exportSequence|].
    intros result. apply IH.
Qed.
End respects.

Global Instance callsGrow_preorder : PreOrder callsGrow.
Proof.
  split; [intros w; unfold callsGrow; reflexivity|].
  intros w1 w2 w3. unfold callsGrow. intros H12 H23. by etrans.
Qed.

Global Instance sameSetup_preorder : PreOrder sameSetup.
Proof.
  split; [done|]. intros w1 w2 w3 [??] [??]. split; congruence.
Qed.

Global Instance noDownload_preorder : PreOrder noDownload.
Proof.
  split; [intros w n b Hin; exact Hin|].
  intros w1 w2 w3 H12 H23 n b Hin. by apply H12, H23.
Qed.

(** ** What the export pipeline leaves alone *)

Lemma elem_of_events_emit e e' w :
  e ∈ events (emit e' w) ↔ e ∈ events w ∨ e = e'.
Proof. simpl. by rewrite elem_of_app, list_elem_of_singleton. Qed.

Ltac callsGrow_step :=
  unfold callsGrow; intros; simpl; try reflexivity; try (by apply prefix_app_r).

Ltac sameSetup_step := unfold sameSetup; intros; by simpl.

Ltac noDownload_step :=
  unfold noDownload; intros; simpl in *;
  try match goal with
      | H : _ ∈ _ ++ [_] |- _ =>
          apply elem_of_app in H as [H|H%list_elem_of_singleton]; [|subst]
      end;
  try done.

Section pipeline.
Variable ffmpegExec :
  list string → gmap string FileData → gmap string FileData * option string.

Lemma exportSequence_callsGrow sequence index :
  respects callsGrow (exportSequence ffmpegExec sequence index).
Proof.
  apply respects_exportSequence with (allowed := λ _, True);
    try apply _; try done; callsGrow_step.
Qed.

Lemma exportSequence_sameSetup sequence index :
  respects sameSetup (exportSequence ffmpegExec sequence index).
Proof.
  apply respects_exportSequence with (allowed := λ _, True);
    try apply _; try done; sameSetup_step.
Qed.

Lemma exportSequence_noDownload sequence i :
  respects noDownload (exportSequence ffmpegExec sequence (Some i)).
Proof.
  apply respects_exportSequence with (allowed := λ e, isDownload e = false);
    try apply _; try done; noDownload_step.
Qed.

Lemma exportLoop_noDownload sequences i zip :
  respects noDownload (exportLoop ffmpegExec sequences i zip).
Proof.
  apply respects_exportLoop with (allowed := λ e, isDownload e = false);
    try apply _; try done; noDownload_step.
Qed.

Lemma exportSequence_ready sequence index w :
  ffmpegReady (exportSequence ffmpegExec sequence index w).1 = ffmpegReady w.
Proof. apply exportSequence_sameSetup. Qed.
End pipeline.

(** ** Texts *)

Lemma string_app_assoc s1 s2 s3 : (s1 +:+ s2) +:+ s3 = s1 +:+ s2 +:+ s3.
Proof.
  induction s1 as [|a s1 IH]; [done|].
  rewrite !string_app_cons. by rewrite IH.
Qed.

Lemma string_app_nil_r s : s +:+ "" = s.
Proof.
  induction s as [|a s IH]; [done|]. rewrite string_app_cons. by rewrite IH.
Qed.

Lemma string_app_length s1 s2 :
  String.length (s1 +:+ s2) = String.length s1 + String.length s2.
Proof.
  induction s1 as [|a s1 IH]; [done|].
  rewrite string_app_cons. simpl. by rewrite IH.
Qed.

Lemma string_app_inv_r s1 s2 t : s1 +:+ t = s2 +:+ t → s1 = s2.
Proof.
  revert s2. induction s1 as [|a s1 IH]; intros [|b s2];
    rewrite ?string_app_nil, ?string_app_cons; intros Heq; [done|..].
  - apply (f_equal String.length) in Heq. simpl in Heq.
    rewrite string_app_length in Heq. lia.
  - apply (f_equal String.length) in Heq. simpl in Heq.
    rewrite string_app_length in Heq. lia.
  - injection Heq as -> Heq. f_equal. by apply IH.
Qed.

Lemma entryName_inj i j : entryName i = entryName j → i = j.
Proof.
  unfold entryName. intros Heq%(inj (String.app _)).
  apply string_app_inv_r, (inj pretty) in Heq. lia.
Qed.

(** ** Staging and the manifest *)

Section staging.
Variable ffmpegExec :
  list string → gmap string FileData → gmap string FileData * option string.

(** When every clip has its file the staging loop writes the files in the
    order of the clips, under the names of their positions, and returns the
    manifest lines in that order. *)
Lemma stageClips_ok clips files i listFileContent w :
  clip_file <$> clips = Some <$> files →
  ∃ w',
    stageClips clips i listFileContent w
    = (w', inr (listFileContent +:+ manifestFrom i (length files)))
    ∧ calls w' = calls w ++ stagingCalls i files
    ∧ events w' = events w.
Proof.
  revert files i listFileContent w.
  induction clips as [|clip rest IH]; intros [|file files] i text w Hfiles;
    try done.
  - exists w. simpl. unfold stagingCalls. simpl.
    split_and!; [|by rewrite app_nil_r|done].
    by rewrite string_app_nil_r.
  - injection Hfiles as Hfile Hfiles. cbn [stageClips]. rewrite Hfile.
    unfold writeFile. rewrite bind_effect.
    destruct (IH files (S i) (text +:+ "file " +:+ inputName i +:+ LF)
                (logCall (WriteFile (inputName i) (Binary file))
                   (withVfs (<[inputName i:=Binary file]> (vfs w)) w)) Hfiles)
      as (w' & Hrun & Hcalls & Hevents).
    exists w'. split_and!.
    + rewrite Hrun. do 2 f_equal. cbn [length manifestFrom].
      by rewrite !string_app_assoc.
    + rewrite Hcalls. simpl. rewrite <-app_assoc. f_equal.
      unfold stagingCalls. rewrite imap_cons. simpl. rewrite Nat.add_0_r.
      f_equal. apply imap_ext. intros k f _. simpl. do 2 f_equal. lia.
    + by rewrite Hevents.
Qed.

Lemma prepare_calls sequence index files w :
  clip_file <$> seq_clips sequence = Some <$> files →
  calls (prepare ffmpegExec sequence index w).1
  = calls w ++ stagingCalls 0 files
    ++ [WriteFile "list.txt" (Text (manifest (length files))); Exec concatArgs].
Proof.
  intros Hfiles. unfold prepare.
  rewrite bind_effect. unfold toast. rewrite bind_run, when_run. simpl fst.
  set (w1 := if falsy index then _ else _).
  destruct (stageClips_ok (seq_clips sequence) files 0 "" w1 Hfiles)
    as (w2 & Hrun & Hcalls & _).
  cbv beta iota. rewrite (bind_ok _ _ _ _ _ Hrun).
  unfold writeFile. rewrite bind_effect. unfold exec.
  destruct (ffmpegExec _ _) as [fs failure]. simpl.
  rewrite Hcalls. replace (calls w1) with (calls w) by (unfold w1; by destruct (falsy index)).
  by rewrite <-!app_assoc.
Qed.

(** The calls of an export begin with the staging of the clips in their
    order, the manifest and the concatenation. *)
Lemma exportSequence_calls sequence index files w :
  ffmpegReady w = true →
  clip_file <$> seq_clips sequence = Some <$> files →
  (calls w ++ stagingCalls 0 files
   ++ [WriteFile "list.txt" (Text (manifest (length files))); Exec concatArgs])
  `prefix_of` calls (exportSequence ffmpegExec sequence index w).1.
Proof.
  intros Hready Hfiles. unfold exportSequence. rewrite Hready. simpl negb.
  cbv iota.
  etrans; [|apply (tryCatchFinally_after callsGrow)].
  - unfold exportBody. rewrite bind_run.
    pose proof (prepare_calls sequence index files w Hfiles) as Hcalls.
    destruct (prepare ffmpegExec sequence index w) as [w1 [e|[]]]; simpl in *.
    + by rewrite Hcalls.
    + rewrite <-Hcalls.
      apply (respects_deliver callsGrow (λ _, True)); try done; callsGrow_step.
  - intros e. apply (respects_handler callsGrow (λ _, True)); try done;
      callsGrow_step.
  - apply (respects_final callsGrow); callsGrow_step.
Qed.
End staging.

(** ** The loop of the batch export *)

Lemma zipFile_fresh name data (zip : list (string * FileData)) :
  name ∉ zip.*1 → zipFile name data zip = zip ++ [(name, data)].
Proof.
  induction zip as [|[n d] zip IH]; intros Hfresh; simpl; [done|].
  simpl in Hfresh. apply not_elem_of_cons in Hfresh as [Hne Hfresh].
  case_decide; [congruence|]. by rewrite IH.
Qed.

Section batch.
Variable ffmpegExec :
  list string → gmap string FileData → gmap string FileData * option string.

(** The handler of [exportSequence] throws the error it caught. *)
Lemma handler_throws index error w :
  ((toast (ConsoleError "Export error:" error) ;;
    when (falsy index) (toast (ToastError "Failed to export sequence")) ;;
    throw (A := option Artifact) error) w).2 = inl error.
Proof. unfold toast. rewrite bind_effect, bind_run, when_run. done. Qed.

(** What a ready [exportSequence] returns is what its [try] block returns. *)
Lemma exportSequence_result sequence index w :
  ffmpegReady w = true →
  (exportSequence ffmpegExec sequence index w).2
  = (exportBody ffmpegExec sequence index w).2.
Proof.
  intros Hready. unfold exportSequence, tryCatchFinally. rewrite Hready. simpl negb.
  cbv iota. destruct (exportBody ffmpegExec sequence index w) as [w1 [e|a]].
  - pose proof (handler_throws index e w1) as Hthrow.
    destruct ((toast _ ;; _ ;; throw e) w1) as [w2 r2]. simpl in Hthrow. subst r2.
    rewrite when_run. done.
  - rewrite when_run. done.
Qed.

(** With an index a ready export returns an artifact named by the index plus
    one, or throws. *)
Lemma exportSequence_artifact sequence i w w1 result :
  ffmpegReady w = true →
  exportSequence ffmpegExec sequence (Some i) w = (w1, inr result) →
  ∃ data, result = Some (mkArtifact (entryName i) data).
Proof.
  intros Hready Hrun.
  pose proof (exportSequence_result sequence (Some i) w Hready) as Hres.
  rewrite Hrun in Hres. simpl in Hres.
  unfold exportBody in Hres. rewrite bind_run in Hres.
  destruct (prepare ffmpegExec sequence (Some i) w) as [w2 [e|[]]]; [done|].
  unfold deliver in Hres. rewrite bind_run in Hres.
  destruct (readFile "output.mp4" w2) as [w3 [e|data]]; [done|].
  simpl in Hres. injection Hres as ->. by exists data.
Qed.

Lemma exportLoop_Exported sequences i zip w w' zip' :
  ffmpegReady w = true →
  Forall (λ name, ∃ j, j < i ∧ name = entryName j) zip.*1 →
  exportLoop ffmpegExec sequences i zip w = (w', inr zip') →
  ∃ artifacts,
    Exported ffmpegExec sequences i w artifacts w'
    ∧ zip' = zip ++ ((λ a, (art_name a, art_data a)) <$> artifacts)
    ∧ art_name <$> artifacts = entryName <$> seq i (length sequences).
Proof.
  revert i zip w. induction sequences as [|sequence rest IH];
    intros i zip w Hready Hnames Hrun.
  - injection Hrun as <- <-. exists []. split_and!; [constructor| |done].
    by rewrite app_nil_r.
  - cbn [exportLoop] in Hrun. rewrite bind_run in Hrun.
    destruct (exportSequence ffmpegExec sequence (Some i) w)
      as [w1 [e|result]] eqn:Hexport; [done|].
    destruct (exportSequence_artifact _ _ _ _ _ Hready Hexport) as [data ->].
    simpl art_data in Hrun. fold (entryName i) in Hrun.
    rewrite zipFile_fresh in Hrun.
    2:{ intros Hin. rewrite Forall_forall in Hnames.
        destruct (Hnames _ Hin) as (j & Hj & Heq%entryName_inj). lia. }
    assert (ffmpegReady w1 = true) as Hready1.
    { pose proof (exportSequence_ready ffmpegExec sequence (Some i) w) as Hr.
      rewrite Hexport in Hr. simpl in Hr. congruence. }
    apply IH in Hrun as (artifacts & Hexp & Hzip & Hart); [|done|].
    + exists (mkArtifact (entryName i) data :: artifacts). split_and!.
      * by econstructor.
      * rewrite Hzip. by rewrite <-app_assoc.
      * rewrite fmap_cons. cbn [length seq]. rewrite fmap_cons. by rewrite Hart.
    + rewrite fmap_app. apply Forall_app. split.
      * eapply Forall_impl; [exact Hnames|]. intros name (j & Hj & ->).
        exists j. split; [lia|done].
      * apply Forall_singleton. exists i. split; [lia|done].
Qed.

(** The loop stops at the first export that throws. *)
Lemma exportLoop_throws before sequence after i zip w w1 zip1 w2 error :
  exportLoop ffmpegExec before i zip w = (w1, inr zip1) →
  exportSequence ffmpegExec sequence (Some (i + length before)) w1 = (w2, inl error) →
  exportLoop ffmpegExec (before ++ sequence :: after) i zip w = (w2, inl error).
Proof.
  revert i zip w. induction before as [|s before IH]; intros i zip w Hrun Hfail.
  - injection Hrun as <- <-. simpl in *. rewrite Nat.add_0_r in Hfail.
    by rewrite (bind_err _ _ _ _ _ Hfail).
  - cbn [exportLoop app] in *. rewrite bind_run in *.
    destruct (exportSequence ffmpegExec s (Some i) w) as [w' [e|result]]; [done|].
    apply IH; [done|].
    by replace (S i + length before) with (i + length (s :: before))
      by (simpl; lia).
Qed.
End batch.

(** ** The export pipeline: the properties of the specification *)

(** C6. A ready export of a sequence whose clips all have their file stages
    one input per clip, named by the position of the clip, in the order of
    [sequence.clips], then writes a manifest that lists these names in that
    order, one line per clip, then runs the concatenation.  When the loop of
    the batch export succeeds, the archive holds one entry per sequence, in
    the order of the sequences, the i-th (from 0) named by [i + 1] and
    holding the artifact of the i-th export, and that archive is what is
    downloaded. *)
Theorem export_order ffmpegExec :
  (∀ sequence index files w,
     ffmpegReady w = true →
     clip_file <$> seq_clips sequence = Some <$> files →
     (calls w ++ stagingCalls 0 files
      ++ [WriteFile "list.txt" (Text (manifest (length files))); Exec concatArgs])
     `prefix_of` calls (exportSequence ffmpegExec sequence index w).1)
  ∧ (∀ w w' zip,
       ffmpegReady w = true →
       exportLoop ffmpegExec (sequences w) 0 [] (started w) = (w', inr zip) →
       (∃ artifacts,
          Exported ffmpegExec (sequences w) 0 (started w) artifacts w'
          ∧ zip = (λ a, (art_name a, art_data a)) <$> artifacts
          ∧ zip.*1 = entryName <$> seq 0 (length (sequences w)))
       ∧ (sequences w ≠ [] →
          events (downloadAllSequences ffmpegExec w).1
          = events w' ++ [Download "restitched-sequences.zip" (ZipBlob zip);
                          ToastSuccess "All sequences downloaded!"])).
Proof.
  split; [intros; by apply exportSequence_calls|].
  intros w w' zip Hready Hrun. split.
  - destruct (exportLoop_Exported ffmpegExec (sequences w) 0 [] (started w) w' zip)
      as (artifacts & Hexp & Hzip & Hnames); [done|constructor|done|].
    exists artifacts. split_and!; [done|done|].
    rewrite Hzip. simpl. rewrite <-Hnames, <-list_fmap_compose. done.
  - intros Hne. unfold downloadAllSequences. rewrite Hready.
    rewrite bool_decide_eq_false_2 by (by intros ?%nil_length_inv).
    simpl orb. cbv iota. unfold toast. rewrite !bind_effect.
    change (emit _ (setLoading true w)) with (started w).
    unfold tryCatchFinally. rewrite (bind_ok _ _ _ _ _ Hrun).
    rewrite !bind_effect. simpl. by rewrite <-app_assoc.
Qed.

Lemma export_order_witness :
  let w := sampleWorld [sampleSequence; sampleSequence] in
  (WriteFile "input0.mp4" (Binary [Byte.x01])
   :: WriteFile "input1.mp4" (Binary [Byte.x02])
   :: WriteFile "input2.mp4" (Binary [Byte.x04])
   :: [WriteFile "list.txt" (Text (manifest 3)); Exec concatArgs])
  `prefix_of` calls (exportSequence sampleExec sampleSequence None w).1
  ∧ ∃ w' zip,
      exportLoop sampleExec (sequences w) 0 [] (started w) = (w', inr zip)
      ∧ zip.*1 = ["restitched 1.mp4"; "restitched 2.mp4"]
      ∧ events (downloadAllSequences sampleExec w).1
        = events w' ++ [Download "restitched-sequences.zip" (ZipBlob zip);
                        ToastSuccess "All sequences downloaded!"].
Proof.
  intros w. destruct (export_order sampleExec) as [Hstage Hbatch]. split.
  - apply (Hstage sampleSequence None [[Byte.x01]; [Byte.x02]; [Byte.x04]] w);
      reflexivity.
  - destruct (exportLoop sampleExec (sequences w) 0 [] (started w))
      as [w' [e|zip]] eqn:Hrun; [by vm_compute in Hrun|].
    exists w', zip. split; [done|].
    destruct (Hbatch w w' zip eq_refl Hrun) as [(artifacts & _ & _ & Hnames) Hev].
    split; [exact Hnames|]. by apply Hev.
Defined.

(** C1 (the code differs). An export that throws because its second clip has
    no file leaves the first clip staged; an export whose concatenation is
    rejected leaves the three inputs and the manifest; an export with an
    index, as the batch makes them, succeeds and leaves the inputs, the
    manifest and the output. *)
Theorem export_leaves_staged_files ffmpegExec :
  let missing := exportSequence ffmpegExec brokenSequence None (sampleWorld []) in
  let rejected := exportSequence failingExec sampleSequence None (sampleWorld []) in
  let batch := exportSequence sampleExec sampleSequence (Some 0) (sampleWorld []) in
  (missing.2 = inl (MissingFile "sp lost")
   ∧ vfs missing.1 !! "input0.mp4" = Some (Binary [Byte.x01]))
  ∧ (rejected.2 = inl (FfmpegFailure "Conversion failed!")
     ∧ dom (vfs rejected.1)
       = {[ "input0.mp4"; "input1.mp4"; "input2.mp4"; "list.txt" ]})
  ∧ (batch.2 = inr (Some (mkArtifact "restitched 1.mp4" (Binary [Byte.xff])))
     ∧ dom (vfs batch.1)
       = {[ "input0.mp4"; "input1.mp4"; "input2.mp4"; "list.txt"; "output.mp4" ]}).
Proof.
  intros missing rejected batch. split_and!; try by vm_compute.
Qed.

(** ** Text operations *)

Ltac ascii_text :=
  cbv [isAscii]; repeat split; try (apply Nat.ltb_lt; reflexivity).

Lemma startsWith_spec s p : startsWith s p = true ↔ ∃ t, s = p +:+ t.
Proof.
  revert s. induction p as [|b p IH]; intros s.
  - destruct s; simpl; split; eauto.
  - destruct s as [|a s]; simpl.
    + split; [done|]. by intros [t Ht].
    + rewrite andb_true_iff, bool_decide_eq_true, IH. split.
      * intros [-> [t ->]]. by exists t.
      * intros [t Ht]. rewrite string_app_cons in Ht.
        injection Ht as -> ->. eauto.
Qed.

Lemma includes_spec s p : includes s p = true ↔ contains s p.
Proof.
  unfold contains. induction s as [|c s IH].
  - cbn [includes]. rewrite orb_false_r, startsWith_spec. split.
    + intros [t Ht]. by exists "", t.
    + intros ([|x a] & b & Hab); [by exists b|done].
  - cbn [includes]. rewrite orb_true_iff, startsWith_spec, IH. split.
    + intros [[t Ht]|(a & b & Hab)].
      * by exists "", t.
      * exists (String c a), b. by rewrite string_app_cons, Hab.
    + intros ([|x a] & b & Hab).
      * left. by exists b.
      * right. rewrite string_app_cons in Hab. injection Hab as -> ->. eauto.
Qed.

Lemma includes_false s p : includes s p = false ↔ ¬ contains s p.
Proof. rewrite <-includes_spec. by destruct (includes s p). Qed.

(** X1. The role that [detectClipType] gives to an ASCII file name is
    decided by its lower-case form: hook when it contains [hook]; cta when
    it does not but contains [cta] or [call to action]; selling-point in
    every other case.  So [hook] wins over [cta], and the test for
    [selling point] and [sp] changes nothing. *)
Theorem detectClipType_spec filename :
  isAscii filename →
  (detectClipType filename = Hook ↔ contains (toLowerCase filename) "hook")
  ∧ (detectClipType filename = Cta ↔
       ¬ contains (toLowerCase filename) "hook"
       ∧ (contains (toLowerCase filename) "cta"
          ∨ contains (toLowerCase filename) "call to action"))
  ∧ (detectClipType filename = SellingPoint ↔
       ¬ contains (toLowerCase filename) "hook"
       ∧ ¬ contains (toLowerCase filename) "cta"
       ∧ ¬ contains (toLowerCase filename) "call to action").
Proof.
  intros _. unfold detectClipType.
  rewrite <-!includes_spec.
  destruct (includes (toLowerCase filename) "hook"),
    (includes (toLowerCase filename) "cta"),
    (includes (toLowerCase filename) "call to action"),
    (includes (toLowerCase filename) "selling point"),
    (includes (toLowerCase filename) "sp"); simpl; intuition congruence.
Qed.

Lemma detectClipType_spec_witness :
  detectClipType "Hook then CTA.MOV" = Hook
  ∧ detectClipType "spectacular view.mp4" = Cta
  ∧ detectClipType "intro.mp4" = SellingPoint.
Proof.
  split_and!.
  - apply (proj1 (detectClipType_spec "Hook then CTA.MOV" ltac:(ascii_text))).
    by exists "", " then cta.mov".
  - apply (proj1 (proj2 (detectClipType_spec "spectacular view.mp4"
                           ltac:(ascii_text)))).
    rewrite <-!includes_false, <-!includes_spec.
    split; [by vm_compute|left; by vm_compute].
  - apply (proj2 (proj2 (detectClipType_spec "intro.mp4" ltac:(ascii_text)))).
    rewrite <-!includes_false. split_and!; by vm_compute.
Defined.

(** ** The generator: further properties *)

Lemma generate_Generated_inv random clips l :
  generate random clips = Generated l →
  ofType Hook clips ≠ [] ∧ ofType Cta clips ≠ []
  ∧ l = newSequences (finalLoop random (ofType Hook clips)
                        (ofType SellingPoint clips) (ofType Cta clips)).
Proof.
  unfold generate. case_decide; [done|]. case_decide as Hr; [done|].
  intros [= <-]. split_and!; [| |done].
  - intros He. apply Hr. left. by rewrite He.
  - intros He. apply Hr. right. by rewrite He.
Qed.

(** A property of the loop state that the body keeps holds when the loop
    ends. *)
Lemma whileLoop_keeps random hooks sellingPoints ctas (P : LoopState → Prop) :
  (∀ st, P st → P (iteration random hooks sellingPoints ctas st)) →
  ∀ fuel st, P st → P (whileLoop random hooks sellingPoints ctas fuel st).
Proof.
  intros Hstep fuel. induction fuel as [|fuel IH]; intros st Hst; simpl; [done|].
  destruct (continue _ _ _ st); [|done]. by apply IH, Hstep.
Qed.

(** Every generated sequence has between 2 and 5 clips, all of them clips
    of the registry. *)
Lemma generate_shapes random (clips : list VideoClip) l :
  generate random clips = Generated l →
  Forall (λ s, 2 ≤ length (seq_clips s) ≤ 5
               ∧ Forall (λ clip, clip ∈ clips) (seq_clips s)) l.
Proof.
  intros (Hh & Hc & ->)%generate_Generated_inv.
  destruct (finalLoop_invariant random _ (ofType SellingPoint clips) _ Hh Hc)
    as [Hshaped _ _ _ _].
  eapply Forall_impl; [exact Hshaped|].
  intros s (h & sps & c & ix & E & Hhin & Hcin & _ & Hl & Hle & _).
  rewrite E. split.
  - simpl. rewrite length_app. simpl. unfold maxSellingPoints in Hle. lia.
  - apply Forall_cons. split; [by apply ofType_elem in Hhin as [_ ?]|].
    apply Forall_app. split.
    + apply Forall_forall. intros p Hp.
      apply list_elem_of_lookup in Hp as [k Hk].
      destruct (Forall2_lookup_r _ _ _ _ _ Hl Hk) as (index & _ & Hsp).
      by apply list_elem_of_lookup_2, ofType_elem in Hsp as [_ ?].
    + apply Forall_singleton. by apply ofType_elem in Hcin as [_ ?].
Qed.

(** X2. Whatever the registry and the random draws, a generation
    returns at most 10 sequences, and each of them has between 2 and 5
    clips, all taken from the registry. *)
Theorem generate_bounds random (clips : list VideoClip) l :
  generate random clips = Generated l →
  length l ≤ 10
  ∧ Forall (λ s, 2 ≤ length (seq_clips s) ≤ 5
                 ∧ Forall (λ clip, clip ∈ clips) (seq_clips s)) l.
Proof.
  intros Hg. split; [|by eapply generate_shapes].
  apply generate_Generated_inv in Hg as (Hh & Hc & ->).
  pose proof (finalLoop_count_le random _ (ofType SellingPoint clips) _ Hh Hc).
  pose proof (targetSequences_le (ofType Hook clips)
                (ofType SellingPoint clips) (ofType Cta clips)). lia.
Qed.

Lemma generate_bounds_witness :
  ∃ l, generate sampleRandom sampleClips = Generated l
       ∧ length l ≤ 10
       ∧ Forall (λ s, 2 ≤ length (seq_clips s) ≤ 5
                      ∧ Forall (λ clip, clip ∈ sampleClips) (seq_clips s)) l.
Proof.
  eexists. split; [by vm_compute|].
  apply (generate_bounds sampleRandom). by vm_compute.
Defined.

Lemma sequenceName_inj i j : sequenceName i = sequenceName j → i = j.
Proof.
  unfold sequenceName. intros Heq%(inj (String.app _))%(inj pretty). lia.
Qed.

(** The ids of the generated sequences, in their order. *)
Lemma generate_names random (clips : list VideoClip) l :
  generate random clips = Generated l →
  seq_id <$> l = sequenceName <$> seq 0 (length l).
Proof.
  intros (_ & _ & ->)%generate_Generated_inv.
  apply (whileLoop_keeps _ _ _ _
           (λ st, seq_id <$> newSequences st
                  = sequenceName <$> seq 0 (length (newSequences st))));
    [|done].
  intros st Hst. unfold iteration. case_decide; simpl; [done|].
  rewrite fmap_app, length_app, Hst. simpl.
  by rewrite seq_app, fmap_app.
Qed.

Lemma sequenceName_NoDup n : NoDup (sequenceName <$> seq 0 n).
Proof.
  apply NoDup_fmap_2; [|apply NoDup_seq]. intros i j. apply sequenceName_inj.
Qed.

(** X3. The sequences of a generation are named [sequence-1],
    [sequence-2], ... in the order in which they are returned; so no two
    have the same id. *)
Theorem generate_ids random (clips : list VideoClip) l :
  generate random clips = Generated l →
  seq_id <$> l = sequenceName <$> seq 0 (length l)
  ∧ NoDup (seq_id <$> l).
Proof.
  intros Hnames%generate_names. split; [done|].
  rewrite Hnames. apply sequenceName_NoDup.
Qed.

Lemma generate_ids_witness :
  ∃ l, generate sampleRandom sampleClips = Generated l
       ∧ seq_id <$> l = ["sequence-1"; "sequence-2"; "sequence-3"].
Proof.
  destruct (generate sampleRandom sampleClips) as [| |l] eqn:Hg;
    [by vm_compute in Hg..|].
  exists l. split; [done|].
  destruct (generate_ids sampleRandom sampleClips l Hg) as [Hnames _].
  rewrite Hnames. vm_compute in Hg. by injection Hg as <-.
Defined.

(** ** The generator with the numbers of JavaScript *)

(** For fifteen selling points and [k = 3] JavaScript's
    [binomialCoefficient] returns 454 where the exact product gives 455;
    [Math.floor] and [Math.min] at some values of their own. *)
Remark binomialCoefficient64_15_3 :
  binomialCoefficient64 15 3 = 454%float
  ∧ binomialCoefficient 15 3 = 455%Z
  ∧ mathFloor (-2.5)%float = (-3)%float
  ∧ mathFloor 2.5%float = 2%float
  ∧ mathMin 10 12 = 10%float
  ∧ mathMin 10 7 = 7%float.
Proof. by split_and!. Qed.

Lemma choose_1 n : choose n 1 = n.
Proof. induction n as [|n IH]; simpl; [done|]. rewrite choose_0_r, IH. lia. Qed.

Lemma choose_2_ge n : 4 ≤ n → 6 ≤ choose n 2.
Proof.
  intros Hn. induction n as [|n IH]; [lia|].
  destruct (decide (n = 3)) as [->|Hne]; [by vm_compute|].
  change (choose (S n) 2) with (choose n 1 + choose n 2). rewrite choose_1.
  assert (4 ≤ n) as H4 by lia. specialize (IH H4). lia.
Qed.

(** The exact target is decided by the capped sum. *)
Lemma targetSequences_capped (hooks sellingPoints ctas : list VideoClip) :
  targetSequences hooks sellingPoints ctas
  = (10 `min` (Z.of_nat (length hooks) * Z.of_nat (length ctas)
               * cappedSum (length sellingPoints)))%Z.
Proof.
  unfold targetSequences, maxCombinations, maxSellingPoints.
  rewrite binomial_sum.
  destruct (length sellingPoints) as [|[|[|[|n]]]] eqn:Hn; try done.
  assert (3 `min` S (S (S (S n))) = 3) as -> by lia.
  cbn [seq fmap list_fmap sum_list sum_list_with Nat.add]. unfold id.
  rewrite choose_1. pose proof (choose_2_ge (S (S (S (S n)))) ltac:(lia)) as H6.
  cbn [cappedSum].
  set (pairs := (Z.of_nat (length hooks) * Z.of_nat (length ctas))%Z).
  assert (0 ≤ pairs)%Z as Hpairs by (unfold pairs; lia).
  set (total := (0 + Z.of_nat _)%Z).
  assert (10 ≤ total)%Z as Htotal by (unfold total; lia).
  clearbody pairs total.
  destruct (decide (pairs = 0%Z)) as [->|Hne]; [lia|].
  rewrite !Z.min_l; [done|nia|nia].
Qed.

Lemma testsAgree_checked : testsAgree checkedSize = true.
Proof. vm_compute. reflexivity. Qed.

Lemma forallb_seq_map {A} (g : nat → A) (f : A → bool) count k :
  forallb f (g <$> seq 0 count) = true → k < count → f (g k) = true.
Proof.
  intros Hall Hk. rewrite forallb_forall in Hall.
  apply Hall, in_map, in_seq. lia.
Qed.

Lemma testsAgree_spec bound n h c k :
  testsAgree bound = true →
  n ≤ bound → h ≤ bound → c ≤ bound → k ≤ 10 →
  PrimFloat.ltb (float_of_nat k)
    (mathMin 10 (float_of_nat h * float_of_nat c * combinationSum64 n))
  = (Z.of_nat k <? 10 `min` (Z.of_nat h * Z.of_nat c * cappedSum n))%Z.
Proof.
  intros Hall Hn Hh Hc Hk. unfold testsAgree in Hall. cbv zeta in Hall.
  apply (forallb_seq_map _ _ _ n) in Hall; [|lia].
  apply (forallb_seq_map _ _ _ h) in Hall; [|lia].
  apply (forallb_seq_map _ _ _ c) in Hall; [|lia].
  apply (forallb_seq_map _ _ _ k) in Hall; [|lia].
  by apply Bool.eqb_prop in Hall.
Qed.

Lemma targetSequences64_unfold (hooks sellingPoints ctas : list VideoClip) :
  targetSequences64 hooks sellingPoints ctas
  = mathMin 10 (float_of_nat (length hooks) * float_of_nat (length ctas)
                * combinationSum64 (length sellingPoints)).
Proof. reflexivity. Qed.

(** The test of the loop against the binary64 target, for the registries
    that were checked. *)
Lemma targetSequences64_checked (hooks sellingPoints ctas : list VideoClip) k :
  length hooks ≤ checkedSize → length sellingPoints ≤ checkedSize →
  length ctas ≤ checkedSize → k ≤ 10 →
  PrimFloat.ltb (float_of_nat k) (targetSequences64 hooks sellingPoints ctas)
  = bool_decide (Z.of_nat k < targetSequences hooks sellingPoints ctas)%Z.
Proof.
  intros Hh Hp Hc Hk.
  rewrite targetSequences_capped, targetSequences64_unfold.
  rewrite (testsAgree_spec checkedSize _ _ _ _ testsAgree_checked Hp Hh Hc Hk).
  destruct (Z.ltb_spec (Z.of_nat k)
    (10 `min` (Z.of_nat (length hooks) * Z.of_nat (length ctas)
               * cappedSum (length sellingPoints)))%Z).
  - by rewrite bool_decide_eq_true_2.
  - rewrite bool_decide_eq_false_2; [done|lia].
Qed.

Section agreement.
Variable random : nat → Sample.
Variables hooks sellingPoints ctas : list VideoClip.
Hypothesis hooks_checked : length hooks ≤ checkedSize.
Hypothesis sellingPoints_checked : length sellingPoints ≤ checkedSize.
Hypothesis ctas_checked : length ctas ≤ checkedSize.

Lemma continue64_continue st :
  (Z.of_nat (length (newSequences st)) ≤ targetSequences hooks sellingPoints ctas)%Z →
  continue64 hooks sellingPoints ctas st = continue hooks sellingPoints ctas st.
Proof.
  intros Hle. unfold continue64, continue.
  pose proof (targetSequences_le hooks sellingPoints ctas) as H10.
  by rewrite targetSequences64_checked by (done || lia).
Qed.

Lemma iteration_length_S st :
  length (newSequences (iteration random hooks sellingPoints ctas st))
  ≤ S (length (newSequences st)).
Proof.
  unfold iteration. case_decide; simpl; [lia|]. rewrite length_app. simpl. lia.
Qed.

Lemma whileLoop64_whileLoop fuel st :
  (Z.of_nat (length (newSequences st)) ≤ targetSequences hooks sellingPoints ctas)%Z →
  whileLoop64 random hooks sellingPoints ctas fuel st
  = whileLoop random hooks sellingPoints ctas fuel st.
Proof.
  revert st. induction fuel as [|fuel IH]; intros st Hle; simpl; [done|].
  rewrite continue64_continue by done.
  destruct (continue hooks sellingPoints ctas st) eqn:Hcontinue; [|done].
  apply IH. unfold continue in Hcontinue.
  apply andb_true_iff in Hcontinue as [Hlt%bool_decide_eq_true _].
  pose proof (iteration_length_S st). lia.
Qed.

Lemma finalLoop64_finalLoop :
  finalLoop64 random hooks sellingPoints ctas
  = finalLoop random hooks sellingPoints ctas.
Proof.
  apply whileLoop64_whileLoop. simpl.
  apply (targetSequences_nonneg hooks sellingPoints ctas).
Qed.
End agreement.

Lemma ofType_length ty (clips : list VideoClip) :
  length (ofType ty clips) ≤ length clips.
Proof. apply length_filter. Qed.

Lemma generate64_generate random (clips : list VideoClip) :
  length clips ≤ checkedSize → generate64 random clips = generate random clips.
Proof.
  intros Hsize. unfold generate64, generate.
  repeat case_decide; try done.
  rewrite finalLoop64_finalLoop; [done|..];
    (etrans; [apply ofType_length|done]).
Qed.

(** X4. For a registry of up to 128 clips, [generateSequences] run with the
    numbers of JavaScript (the binomial coefficients as floored products of
    rounded quotients, the ceiling, the target and the test of the loop in
    binary64) returns what the generator with exact numbers returns.  With
    a hook, a selling point and a cta in such a registry it returns at least
    one sequence and at most [min 10 (hooks × ctas × Σ_{k=1..min 3 n}
    C(n, k))], and exactly that many when it stopped before its 100
    attempts were used. *)
Theorem generate_count random (clips : list VideoClip) :
  length clips ≤ 128 →
  generate64 random clips = generate random clips
  ∧ (ofType Hook clips ≠ [] → ofType SellingPoint clips ≠ [] →
     ofType Cta clips ≠ [] →
     let ceiling :=
       length (ofType Hook clips) * length (ofType Cta clips)
       * sum_list (choose (length (ofType SellingPoint clips))
                     <$> seq 1 (3 `min` length (ofType SellingPoint clips))) in
     let final := finalLoop64 random (ofType Hook clips)
                    (ofType SellingPoint clips) (ofType Cta clips) in
     generate64 random clips = Generated (newSequences final)
     ∧ 1 ≤ length (newSequences final) ≤ 10 `min` ceiling
     ∧ (attempts final < 100 → length (newSequences final) = 10 `min` ceiling)).
Proof.
  intros Hsize. split; [by apply generate64_generate|].
  intros Hh Hp Hc ceiling final.
  assert (final = finalLoop random (ofType Hook clips) (ofType SellingPoint clips)
                    (ofType Cta clips)) as Hfinal.
  { apply finalLoop64_finalLoop; (etrans; [apply ofType_length|done]). }
  assert (targetSequences (ofType Hook clips) (ofType SellingPoint clips)
            (ofType Cta clips) = Z.of_nat (10 `min` ceiling)) as Htarget.
  { unfold targetSequences. rewrite maxCombinations_specCeiling by done.
    unfold specCeiling. rewrite decide_False.
    - fold ceiling. lia.
    - destruct (ofType SellingPoint clips); [done|simpl; lia]. }
  split; [|split; [split|]].
  - rewrite generate64_generate by done. rewrite Hfinal.
    by apply generate_Generated.
  - pose proof (finalLoop_nonempty random _ _ _ Hh Hp Hc) as Hne.
    rewrite <-Hfinal in Hne. destruct (newSequences final); [done|simpl; lia].
  - pose proof (finalLoop_count_le random _ (ofType SellingPoint clips) _ Hh Hc)
      as Hle. rewrite <-Hfinal in Hle. lia.
  - intros Hatt.
    pose proof (finalLoop_count_exact random _ (ofType SellingPoint clips) _
                  Hh Hc) as Heq. rewrite <-Hfinal in Heq.
    specialize (Heq Hatt). lia.
Qed.

Lemma generate_count_witness :
  generate64 sampleRandom sampleClips = generate sampleRandom sampleClips
  ∧ length (newSequences (finalLoop64 sampleRandom (ofType Hook sampleClips)
                            (ofType SellingPoint sampleClips)
                            (ofType Cta sampleClips))) = 3.
Proof.
  destruct (generate_count sampleRandom sampleClips) as (Hsame & Hcount);
    [simpl; lia|].
  split; [exact Hsame|].
  destruct Hcount as (_ & _ & Hexact); [by vm_compute..|].
  rewrite Hexact; [done|]. apply Nat.ltb_lt. by vm_compute.
Defined.

(** ** The shuffle: further properties *)

Lemma shuffleLoop_draws random i a t : (shuffleLoop random i a t).2 = t + i.
Proof.
  revert a t. induction i as [|i IH]; intros a t; simpl; [lia|].
  rewrite IH. lia.
Qed.

Lemma length_swap a i j : length (swap a i j) = length a.
Proof. unfold swap. by rewrite !length_insert. Qed.

(** The loop reads only the draws from [t] to [t + i - 1]. *)
Lemma shuffleLoop_ext random1 random2 i a t :
  (∀ k, t ≤ k < t + i → random1 k = random2 k) →
  shuffleLoop random1 i a t = shuffleLoop random2 i a t.
Proof.
  revert a t. induction i as [|i IH]; intros a t Hsame; simpl; [done|].
  rewrite (Hsame t) by lia. apply IH. intros k Hk. apply Hsame. lia.
Qed.

Lemma randomFloor_pick j i : j ≤ i → randomFloor (mkSample j (i - j)) (i + 1) = j.
Proof.
  intros Hj. unfold randomFloor. simpl.
  replace (j + (i - j) + 1) with (i + 1) by lia.
  apply Nat.div_mul. lia.
Qed.

Lemma swap_lookup_target a i j v :
  i < length a → a !! j = Some v → j ≤ i → swap a i j !! i = Some v.
Proof.
  intros Hi Hj Hle. unfold swap.
  rewrite (list_lookup_total_correct _ _ _ Hj).
  destruct (decide (j = i)) as [->|Hne].
  - rewrite list_lookup_insert_eq by (by rewrite length_insert).
    f_equal. by apply list_lookup_total_correct.
  - rewrite list_lookup_insert_ne by done.
    by rewrite list_lookup_insert_eq.
Qed.

Lemma swap_drop a i j : j ≤ i → drop (S i) (swap a i j) = drop (S i) a.
Proof.
  intros Hle. unfold swap.
  rewrite !drop_insert_lt by lia. done.
Qed.

(** Every arrangement of the array is the outcome of some draws. *)
Lemma shuffleLoop_reaches i (a target : list nat) t :
  i < length a ∨ i = 0 →
  target ≡ₚ a → drop (S i) target = drop (S i) a →
  ∃ random, (shuffleLoop random i a t).1 = target.
Proof.
  revert a t. induction i as [|i IH]; intros a t Hi Hperm Hdrop.
  - exists (λ _, mkSample 0 0). simpl.
    assert (take 1 target ≡ₚ take 1 a) as Hhead.
    { apply (Permutation_app_inv_r (drop 1 a)).
      rewrite <-Hdrop at 1. by rewrite !take_drop. }
    rewrite <-(take_drop 1 a), <-(take_drop 1 target), Hdrop. f_equal.
    destruct a as [|x a], target as [|y target]; simpl in *; try done.
    + by apply Permutation_nil_r in Hperm.
    + by apply Permutation_nil_cons in Hperm.
    + by apply Permutation_singleton_inj in Hhead as ->.
  - destruct Hi as [Hi|]; [|done].
    assert (length target = length a) as Hlen by (by rewrite Hperm).
    assert (take (S (S i)) target ≡ₚ take (S (S i)) a) as Htake.
    { apply (Permutation_app_inv_r (drop (S (S i)) a)).
      rewrite <-Hdrop at 1. by rewrite !take_drop. }
    destruct (lookup_lt_is_Some_2 target (S i)) as [v Hv]; [lia|].
    assert (v ∈ take (S (S i)) a) as Hin.
    { rewrite <-Htake. apply list_elem_of_lookup. exists (S i).
      rewrite lookup_take_lt by lia. done. }
    apply list_elem_of_lookup in Hin as [j Hj].
    assert (j < S (S i)) as Hjlt.
    { apply lookup_lt_Some in Hj. rewrite length_take in Hj. lia. }
    rewrite lookup_take_lt in Hj by done.
    set (a' := swap a (S i) j).
    destruct (IH a' (S t)) as [random' Hrandom'].
    + left. unfold a'. rewrite length_swap. lia.
    + unfold a'. rewrite swap_Permutation; [done|lia|by eapply lookup_lt_Some].
    + rewrite (drop_S target v (S i)) by done.
      assert (a' !! S i = Some v) as Hv'
        by (apply swap_lookup_target; [done|done|lia]).
      rewrite (drop_S a' v (S i)) by done. f_equal.
      unfold a'. rewrite swap_drop by lia. done.
    + exists (λ k, if decide (k = t) then mkSample j (S i - j) else random' k).
      cbn [shuffleLoop]. rewrite decide_True by done.
      rewrite randomFloor_pick by lia. fold a'.
      rewrite <-Hrandom'. f_equal. apply shuffleLoop_ext.
      intros k Hk. by rewrite decide_False by lia.
Qed.

(** X5. The Fisher-Yates loop of an attempt, run on the indices
    [0 .. n-1], ends with a permutation of them for every outcome of the
    draws, uses [n - 1] draws, and every permutation of the indices is the
    result of some draws. *)
Theorem shuffle_permutations (sellingPoints : list VideoClip) t :
  (∀ random,
     (shuffledIndicesAt random sellingPoints t).1 ≡ₚ seq 0 (length sellingPoints)
     ∧ (shuffledIndicesAt random sellingPoints t).2
       = t + (length sellingPoints - 1))
  ∧ (∀ target,
       target ≡ₚ seq 0 (length sellingPoints) →
       ∃ random, (shuffledIndicesAt random sellingPoints t).1 = target).
Proof.
  split.
  - intros random. split; [apply shuffledIndices_Permutation|].
    unfold shuffledIndicesAt. apply shuffleLoop_draws.
  - intros target Hperm. unfold shuffledIndicesAt.
    apply shuffleLoop_reaches; [rewrite length_seq; lia|done|].
    assert (length target = length sellingPoints) as Hlen
      by (by rewrite Hperm, length_seq).
    destruct (decide (length sellingPoints = 0)) as [Hz|Hnz].
    + apply nil_length_inv in Hz. rewrite Hz in *. simpl in *.
      by apply Permutation_nil_r in Hperm as ->.
    + rewrite !drop_ge; [done|rewrite length_seq; lia|lia].
Qed.

Lemma shuffle_permutations_witness :
  ∃ random,
    (shuffledIndicesAt random [samplePointA; samplePointB; lostPoint] 0).1
    = [2; 0; 1].
Proof.
  apply (proj2 (shuffle_permutations [samplePointA; samplePointB; lostPoint] 0)).
  apply (bool_decide_unpack _). by vm_compute.
Defined.

(** ** The registry: further properties *)

Lemma retype_retype clipId ty ty' (clip : VideoClip) :
  (λ clip, if decide (clip_id clip = clipId)
           then mkClip (clip_id clip) (clip_name clip) (clip_duration clip) ty'
                  (clip_file clip)
           else clip)
    ((λ clip, if decide (clip_id clip = clipId)
              then mkClip (clip_id clip) (clip_name clip) (clip_duration clip) ty
                     (clip_file clip)
              else clip) clip)
  = (if decide (clip_id clip = clipId)
     then mkClip (clip_id clip) (clip_name clip) (clip_duration clip) ty'
            (clip_file clip)
     else clip).
Proof. simpl. repeat case_decide; simpl in *; congruence. Qed.

(** X6. [updateClipType] keeps the ids of the registry in their
    order; every clip of the given id ends with the new role; a second
    change of the same id overrides the first; changes of different ids can
    be made in either order. *)
Theorem updateClipType_compose clipId clipId' ty ty' (w : World) :
  clip_id <$> availableClips (updateClipType clipId ty w)
  = clip_id <$> availableClips w
  ∧ (∀ clip, clip ∈ availableClips (updateClipType clipId ty w) →
       clip_id clip = clipId → clip_type clip = ty)
  ∧ updateClipType clipId ty' (updateClipType clipId ty w)
    = updateClipType clipId ty' w
  ∧ (clipId ≠ clipId' →
     updateClipType clipId ty (updateClipType clipId' ty' w)
     = updateClipType clipId' ty' (updateClipType clipId ty w)).
Proof.
  split_and!.
  - simpl. rewrite <-list_fmap_compose. apply list_fmap_ext.
    intros k clip _. simpl. by case_decide.
  - simpl. intros clip (c & -> & Hc)%list_elem_of_fmap.
    case_decide; simpl; [done|congruence].
  - unfold updateClipType, setAvailableClips. simpl. f_equal.
    rewrite <-list_fmap_compose. apply list_fmap_ext.
    intros k clip _. apply retype_retype.
  - intros Hne. unfold updateClipType, setAvailableClips. simpl. f_equal.
    rewrite <-!list_fmap_compose. apply list_fmap_ext.
    intros k clip _. simpl. repeat case_decide; simpl in *; congruence.
Qed.

Lemma updateClipType_compose_witness :
  let w := sampleWorld [] in
  updateClipType (clip_id samplePointA) Hook
    (updateClipType (clip_id sampleCta) SellingPoint w)
  = updateClipType (clip_id sampleCta) SellingPoint
      (updateClipType (clip_id samplePointA) Hook w).
Proof.
  intros w.
  apply (updateClipType_compose (clip_id samplePointA) (clip_id sampleCta)
           Hook SellingPoint w).
  by vm_compute.
Defined.

(** X7. [removeClip] keeps exactly the clips of another id, in their
    order, and leaves the sequences alone; for an id that no clip has it
    leaves the registry as it is, and it shows "Clip removed" all the
    same. *)
Theorem removeClip_spec clipId (w : World) :
  (∀ clip, clip ∈ availableClips (removeClip clipId w)
           ↔ clip ∈ availableClips w ∧ clip_id clip ≠ clipId)
  ∧ availableClips (removeClip clipId w) `sublist_of` availableClips w
  ∧ (clipId ∉ clip_id <$> availableClips w →
     availableClips (removeClip clipId w) = availableClips w)
  ∧ events (removeClip clipId w) = events w ++ [ToastSuccess "Clip removed"]
  ∧ sequences (removeClip clipId w) = sequences w.
Proof.
  split_and!; simpl; try done.
  - intros clip. rewrite list_elem_of_filter. tauto.
  - apply sublist_filter.
  - intros Hnotin. induction (availableClips w) as [|clip clips IH]; [done|].
    rewrite fmap_cons, not_elem_of_cons in Hnotin. destruct Hnotin as [Hne Hnotin].
    rewrite filter_cons_True by congruence. by rewrite IH.
Qed.

Lemma removeClip_spec_witness :
  let w := sampleWorld [] in
  availableClips (removeClip "clip-0-0.1" w) = availableClips w.
Proof.
  intros w. apply (removeClip_spec "clip-0-0.1" w).
  apply (bool_decide_unpack _). by vm_compute.
Defined.

Lemma filter_keeps_all {A} (P : A → Prop) `{∀ x, Decision (P x)} (l : list A) :
  Forall P l → filter P l = l.
Proof.
  induction 1 as [|x l Hx _ IH]; [done|]. by rewrite filter_cons_True, IH.
Qed.

(** Filtering out the label of one element of a list with pairwise distinct
    labels deletes that element. *)
Lemma filter_delete_NoDup {A B} `{EqDecision B} (f : A → B) (l : list A) k x :
  NoDup (f <$> l) → l !! k = Some x →
  filter (λ y, f y ≠ f x) l = delete k l.
Proof.
  revert k. induction l as [|a l IH]; intros k Hnd Hk; [done|].
  rewrite fmap_cons in Hnd. apply NoDup_cons in Hnd as [Hnotin Hnd].
  destruct k as [|k]; simpl in Hk.
  - injection Hk as ->. rewrite filter_cons_False by (intros Hn; by apply Hn).
    simpl. apply filter_keeps_all, Forall_forall. intros y Hy Heq.
    apply Hnotin. rewrite <-Heq. apply list_elem_of_fmap. eauto.
  - rewrite filter_cons_True.
    + simpl. f_equal. by apply IH.
    + intros Heq. apply Hnotin. rewrite Heq. apply list_elem_of_fmap.
      exists x. split; [done|]. by eapply list_elem_of_lookup_2.
Qed.

(** X8. After a generation, deleting the k-th sequence by its id
    removes that sequence and no other, the others keep their ids, and the
    registry is not touched. *)
Theorem deleteSequence_generated random (w : World) l k :
  generate random (availableClips w) = Generated l → k < length l →
  sequences (deleteSequence (sequenceName k) (generateSequences random w))
  = delete k l
  ∧ availableClips (deleteSequence (sequenceName k) (generateSequences random w))
    = availableClips w.
Proof.
  intros Hg Hk. pose proof (generate_names _ _ _ Hg) as Hnames.
  assert (NoDup (seq_id <$> l)) as Hnd
    by (rewrite Hnames; apply sequenceName_NoDup).
  unfold generateSequences. rewrite Hg. simpl. split; [|done].
  destruct (lookup_lt_is_Some_2 l k Hk) as [s Hs].
  assert (seq_id s = sequenceName k) as <-.
  { apply (f_equal (λ ids, ids !! k)) in Hnames.
    rewrite !list_lookup_fmap, Hs, lookup_seq_lt in Hnames by done.
    by injection Hnames. }
  by apply filter_delete_NoDup.
Qed.

Lemma deleteSequence_generated_witness :
  let w := sampleWorld [] in
  seq_id <$> sequences (deleteSequence "sequence-2"
                          (generateSequences sampleRandom w))
  = ["sequence-1"; "sequence-3"].
Proof.
  intros w.
  destruct (generate sampleRandom (availableClips w)) as [| |l] eqn:Hg;
    [by vm_compute in Hg..|].
  assert (1 < length l) as Hk.
  { vm_compute in Hg. injection Hg as <-. simpl. lia. }
  destruct (deleteSequence_generated sampleRandom w l 1 Hg Hk) as [Hseq _].
  change (sequenceName 1) with "sequence-2" in Hseq. rewrite Hseq.
  vm_compute in Hg. by injection Hg as <-.
Defined.

(** ** The upload *)

Global Instance sameRegistry_preorder : PreOrder sameRegistry.
Proof.
  split; [done|]. intros w1 w2 w3 (? & ? & ?) (? & ? & ?).
  split_and!; congruence.
Qed.

Global Instance quiet_preorder : PreOrder quiet.
Proof. split; [done|]. intros w1 w2 w3 [??] [??]. split; congruence. Qed.

Global Instance onlyDeletes_preorder : PreOrder onlyDeletes.
Proof.
  split; [by intros w path|]. intros w1 w2 w3 H12 H23 path Hp. by apply H23, H12.
Qed.

Ltac sameRegistry_step :=
  first [by (unfold sameRegistry; intros; simpl)|apply _].

(** ** The calls on FFmpeg, one by one *)

Section primitives.
Variable ffmpegExec :
  list string → gmap string FileData → gmap string FileData * option string.

Lemma exec_ok args w fs :
  ffmpegExec args (vfs w) = (fs, None) →
  exec ffmpegExec args w = (logCall (Exec args) (withVfs fs w), inr tt).
Proof. intros H. unfold exec. by rewrite H. Qed.

Lemma exec_rejected args w fs message :
  ffmpegExec args (vfs w) = (fs, Some message) →
  exec ffmpegExec args w
  = (logCall (Exec args) (withVfs fs w), inl (FfmpegFailure message)).
Proof. intros H. unfold exec. by rewrite H. Qed.

Lemma readFile_ok path w data :
  vfs w !! path = Some data →
  readFile path w = (logCall (ReadFile path) w, inr data).
Proof. intros H. unfold readFile. by rewrite H. Qed.

Lemma deleteFile_ok path w data :
  vfs w !! path = Some data →
  deleteFile path w
  = (logCall (DeleteFile path) (withVfs (delete path (vfs w)) w), inr tt).
Proof. intros H. unfold deleteFile. by rewrite H. Qed.

(** A deletion that ends normally removed the file. *)
Lemma deleteFile_inv path w w' :
  deleteFile path w = (w', inr tt) →
  w' = logCall (DeleteFile path) (withVfs (delete path (vfs w)) w).
Proof. unfold deleteFile. destruct (vfs w !! path); by intros [= <-]. Qed.
End primitives.

(** ** The renaming of a converted file *)

Lemma dropText_app p t : dropText (String.length p) (p +:+ t) = t.
Proof.
  induction p as [|a p IH].
  - rewrite string_app_nil. by destruct t.
  - rewrite string_app_cons. simpl. exact IH.
Qed.

Lemma contains_cons c s p :
  contains (String c s) p ↔ startsWith (String c s) p = true ∨ contains s p.
Proof.
  rewrite <-!includes_spec. cbn [includes]. by rewrite orb_true_iff.
Qed.

Lemma replaceFirst_spec pattern replacement s :
  renamed pattern replacement s (replaceFirst pattern replacement s).
Proof.
  unfold renamed. induction s as [|c s IH].
  - cbn [replaceFirst]. destruct (startsWith "" pattern) eqn:Hstart.
    + apply startsWith_spec in Hstart as [t Ht]. right. exists "", t.
      split_and!.
      * by rewrite string_app_nil.
      * intros a' b' _. simpl. lia.
      * rewrite string_app_nil. f_equal. by rewrite Ht at 1; rewrite dropText_app.
    + left. split; [|done]. intros ([|x a] & b & Hab); [|done].
      rewrite string_app_nil in Hab.
      assert (startsWith "" pattern = true) by (apply startsWith_spec; eauto).
      congruence.
  - cbn [replaceFirst]. destruct (startsWith (String c s) pattern) eqn:Hstart.
    + apply startsWith_spec in Hstart as [t Ht]. right. exists "", t.
      split_and!.
      * by rewrite string_app_nil.
      * intros a' b' _. simpl. lia.
      * rewrite string_app_nil. f_equal. by rewrite Ht, dropText_app.
    + destruct IH as [[Habsent ->]|(a & b & -> & Hfirst & ->)].
      * left. split; [|done]. intros [Hs|Hs]%contains_cons; [congruence|done].
      * right. exists (String c a), b. split_and!.
        -- by rewrite string_app_cons.
        -- intros [|x a'] b' Heq.
           ++ rewrite string_app_nil in Heq.
              assert (startsWith (String c (a +:+ pattern +:+ b)) pattern = true)
                by (apply startsWith_spec; eauto).
              congruence.
           ++ rewrite string_app_cons in Heq. injection Heq as _ Heq.
              apply Hfirst in Heq. simpl. lia.
        -- by rewrite string_app_cons.
Qed.

Lemma beforeDot_spec s : firstPart s (beforeDot s).
Proof.
  unfold firstPart. induction s as [|c s [Habsent IH]]; simpl.
  - split; [|by left]. intros ([|x a] & b & Hab); by rewrite ?string_app_nil in Hab.
  - case_decide as Hc.
    + subst c. split.
      * intros ([|x a] & b & Hab); by rewrite ?string_app_nil in Hab.
      * right. exists s. by rewrite string_app_nil.
    + split.
      * intros [Hs|Hs]%contains_cons; [|done].
        apply startsWith_spec in Hs as [t Ht].
        rewrite string_app_cons in Ht. by injection Ht.
      * destruct IH as [IH|[rest IH]].
        -- left. by f_equal.
        -- right. exists rest. rewrite string_app_cons. by f_equal.
Qed.

Lemma isAscii_app a b : isAscii (a +:+ b) ↔ isAscii a ∧ isAscii b.
Proof.
  induction a as [|x a IH].
  - rewrite string_app_nil. simpl. tauto.
  - rewrite string_app_cons. simpl. rewrite IH. tauto.
Qed.

Lemma renamed_isAscii pattern replacement s name :
  isAscii replacement → isAscii s → renamed pattern replacement s name →
  isAscii name.
Proof.
  intros Hr Hs [[_ ->]|(a & b & -> & _ & ->)]; [done|].
  rewrite !isAscii_app in *. tauto.
Qed.

Section uploading.
Variable ffmpegExec :
  list string → gmap string FileData → gmap string FileData * option string.
Variable videoDuration : UploadedFile → float.

Lemma convert_sameRegistry file : respects sameRegistry (convert ffmpegExec file).
Proof.
  unfold convert.
  apply (respects_bind sameRegistry);
    [apply (respects_writeFile sameRegistry); sameRegistry_step|intros _].
  apply (respects_bind sameRegistry);
    [apply (respects_exec sameRegistry); sameRegistry_step|intros _].
  apply (respects_bind sameRegistry);
    [apply (respects_readFile sameRegistry); sameRegistry_step|intros data].
  apply (respects_bind sameRegistry);
    [apply (respects_deleteFile sameRegistry); sameRegistry_step|intros _].
  apply (respects_bind sameRegistry);
    [apply (respects_deleteFile sameRegistry); sameRegistry_step|intros _].
  apply (respects_bind sameRegistry);
    [apply (respects_effect sameRegistry); sameRegistry_step|intros _].
  apply (respects_ret sameRegistry).
Qed.

(** What processing one file does to the registry: it appends the clip of
    the processed file, or nothing when the conversion threw. *)
Lemma processFile_registry file now randomText p :
  let w := page_world p in
  let w' := page_world (processFile ffmpegExec videoDuration file now randomText p) in
  sequences w' = sequences w
  ∧ ffmpegReady w' = ffmpegReady w
  ∧ (availableClips w' = availableClips w
     ∨ ∃ processedFile,
         availableClips w'
         = availableClips w ++ [newClip videoDuration now randomText processedFile]).
Proof.
  intros w w'. unfold w', processFile, tryCatchFinally. simpl. fold w.
  rewrite bind_run.
  assert (∀ (m : Async UploadedFile), respects sameRegistry m →
            let r := m w in
            let '(w1, r1) := match r with
                             | (w0, inl e) => (w0, inl e)
                             | (w0, inr a) =>
                                 register videoDuration now randomText a w0
                             end in
            let '(w2, r2) := match r1 with
                             | inl e =>
                                 (toast (ConsoleError "Error processing file:" e) ;;
                                  toast (ToastError ("Failed to process "
                                                     +:+ file_name file))) w1
                             | inr a => (w1, inr a)
                             end in
            sequences w2 = sequences w ∧ ffmpegReady w2 = ffmpegReady w
            ∧ (availableClips w2 = availableClips w
               ∨ ∃ processedFile,
                   availableClips w2
                   = availableClips w
                     ++ [newClip videoDuration now randomText processedFile]))
    as Hcases.
  { intros m Hm. specialize (Hm w). destruct (m w) as [w0 [e|a]]; simpl in *.
    - destruct Hm as (Hc & Hs & Hr). rewrite Hc, Hs, Hr. auto.
    - destruct Hm as (Hc & Hs & Hr). rewrite Hc, Hs, Hr.
      split_and!; [done..|]. right. by exists a. }
  destruct (isMov file).
  - specialize (Hcases _ (convert_sameRegistry file)). simpl in Hcases.
    destruct (convert ffmpegExec file w) as [w0 [e|a]]; simpl in *; exact Hcases.
  - specialize (Hcases (mret file) (respects_ret sameRegistry file)).
    simpl in Hcases. exact Hcases.
Qed.

Lemma processFiles_registry files k stamps p :
  let w := page_world p in
  let w' := page_world (processFiles ffmpegExec videoDuration files k stamps p) in
  sequences w' = sequences w
  ∧ ffmpegReady w' = ffmpegReady w
  ∧ ∃ added,
      availableClips w' = availableClips w ++ added
      ∧ length added ≤ length files
      ∧ Forall (λ clip,
                  is_Some (clip_file clip)
                  ∧ ∃ i, k ≤ i < k + length files
                         ∧ clip_id clip = newClipId (stamps i).1 (stamps i).2)
          added.
Proof.
  revert k p. induction files as [|file files IH]; intros k p; simpl.
  - split_and!; [done..|]. exists []. by rewrite app_nil_r.
  - destruct (IH (S k) (processFile ffmpegExec videoDuration file (stamps k).1
                          (stamps k).2 p)) as (Hs & Hr & added & Hc & Hlen & Hall).
    destruct (processFile_registry file (stamps k).1 (stamps k).2 p)
      as (Hs1 & Hr1 & Hc1).
    simpl in *. rewrite Hs, Hr, Hc. split_and!; [done..|].
    assert (Forall (λ clip, is_Some (clip_file clip)
                     ∧ ∃ i, k ≤ i < k + S (length files)
                            ∧ clip_id clip = newClipId (stamps i).1 (stamps i).2)
              added) as Hall'.
    { eapply Forall_impl; [exact Hall|]. intros clip [? (i & ? & ?)].
      split; [done|]. exists i. split; [lia|done]. }
    destruct Hc1 as [->|[processedFile ->]].
    + exists added. split_and!; [done|lia|done].
    + exists (newClip videoDuration (stamps k).1 (stamps k).2 processedFile :: added).
      split_and!; [by rewrite <-app_assoc|simpl; lia|].
      apply Forall_cons. split; [|done]. split; [by eexists|].
      exists k. split; [lia|done].
Qed.

(** X9. An upload only appends to the registry: the clips that were
    there stay as they are and in their order, at most one clip per file is
    added, each added clip carries its file and an id made from the time
    and the random number drawn for one of the files, and the sequences are
    not touched. *)
Theorem handleFileUpload_appends files stamps p :
  let w := page_world p in
  let w' := page_world (handleFileUpload ffmpegExec videoDuration files stamps p) in
  sequences w' = sequences w
  ∧ ∃ added,
      availableClips w' = availableClips w ++ added
      ∧ length added ≤ length (default [] files)
      ∧ Forall (λ clip,
                  is_Some (clip_file clip)
                  ∧ ∃ i, i < length (default [] files)
                         ∧ clip_id clip = newClipId (stamps i).1 (stamps i).2)
          added.
Proof.
  cbv zeta. unfold handleFileUpload.
  destruct (ffmpegReady (page_world p)); simpl.
  - destruct files as [files|]; simpl.
    + destruct (processFiles_registry files 0 stamps p)
        as (Hs & _ & added & Hc & Hlen & Hall).
      split; [done|]. exists added. split_and!; [exact Hc|exact Hlen|].
      eapply Forall_impl; [exact Hall|]. intros clip [? (i & ? & ?)].
      split; [done|]. exists i. split; [lia|done].
    + split; [done|]. exists []. by rewrite app_nil_r.
  - split; [done|]. exists [].
    split_and!; [by rewrite app_nil_r|simpl; lia|constructor].
Qed.

(** An upload keeps a registry of clips with files such. *)
Lemma handleFileUpload_filed files stamps p :
  filed (availableClips (page_world p)) →
  filed (availableClips
           (page_world (handleFileUpload ffmpegExec videoDuration files stamps p))).
Proof.
  intros Hfiled. unfold handleFileUpload.
  destruct (ffmpegReady (page_world p)); simpl; [|done].
  destruct files as [files|]; simpl; [|done].
  destruct (processFiles_registry files 0 stamps p)
    as (_ & _ & added & -> & _ & Hall).
  apply Forall_app. split; [done|].
  eapply Forall_impl; [exact Hall|]. by intros clip [? _].
Qed.

(** A file that is not a MOV is registered as it is, without a call on
    FFmpeg. *)
Lemma processFile_plain file now randomText p :
  isMov file = false →
  processFile ffmpegExec videoDuration file now randomText p
  = mkPage
      (emit (ToastSuccess ("Uploaded " +:+ file_name file +:+ " as "
                           +:+ typeText (detectClipType (file_name file))))
         (addClip (newClip videoDuration now randomText file) (page_world p)))
      (page_infos p).
Proof. intros Hmov. unfold processFile. by rewrite Hmov. Qed.

(** X10. A file with an ASCII name ending in [.mov], in any case, whose
    conversion succeeds, FFmpeg leaving both [input.mov] and an
    [output.mp4] behind, is registered as one new clip.  The processed file
    has the bytes of the output and the name of the upload with its first
    [.mov] replaced by [.mp4], the name being kept when it has no [.mov] in
    small letters; the clip is named by the text of that name before its
    first point, and its role is detected from that name.  The notices
    "Converted ..." and "Uploaded ... as ..." are shown, the calls on FFmpeg
    are the write, the conversion, the read and the two deletions, and the
    two temporary files are gone from the file system FFmpeg left. *)
Theorem processFile_converted file now randomText p fs inputData outputData :
  isAscii (file_name file) →
  isMov file = true →
  ffmpegExec convertArgs
    (<["input.mov" := Binary (file_content file)]> (vfs (page_world p)))
  = (fs, None) →
  fs !! "input.mov" = Some inputData →
  fs !! "output.mp4" = Some outputData →
  let w' := page_world (processFile ffmpegExec videoDuration file now randomText p) in
  ∃ name clip,
    renamed ".mov" ".mp4" (file_name file) name
    ∧ isAscii name
    ∧ availableClips w' = availableClips (page_world p) ++ [clip]
    ∧ clip_id clip = newClipId now randomText
    ∧ firstPart name (clip_name clip)
    ∧ clip_duration clip = videoDuration (mkUploaded name (bytesOf outputData))
    ∧ clip_type clip = detectClipType name
    ∧ clip_file clip = Some (bytesOf outputData)
    ∧ events w'
      = events (page_world p)
        ++ [ToastSuccess ("Converted " +:+ file_name file +:+ " to MP4");
            ToastSuccess ("Uploaded " +:+ name +:+ " as "
                          +:+ typeText (clip_type clip))]
    ∧ vfs w' = delete "output.mp4" (delete "input.mov" fs)
    ∧ calls w'
      = calls (page_world p)
        ++ [WriteFile "input.mov" (Binary (file_content file)); Exec convertArgs;
            ReadFile "output.mp4"; DeleteFile "input.mov"; DeleteFile "output.mp4"].
Proof.
  intros Hascii Hmov Hexec Hin Hout.
  set (w := page_world p).
  set (w1 := logCall (WriteFile "input.mov" (Binary (file_content file)))
               (withVfs (<["input.mov" := Binary (file_content file)]> (vfs w)) w)).
  set (w2 := logCall (Exec convertArgs) (withVfs fs w1)).
  set (w3 := logCall (ReadFile "output.mp4") w2).
  set (w4 := logCall (DeleteFile "input.mov")
               (withVfs (delete "input.mov" (vfs w3)) w3)).
  set (w5 := logCall (DeleteFile "output.mp4")
               (withVfs (delete "output.mp4" (vfs w4)) w4)).
  set (name := replaceFirst ".mov" ".mp4" (file_name file)).
  assert (convert ffmpegExec file w
          = (emit (ToastSuccess ("Converted " +:+ file_name file +:+ " to MP4")) w5,
             inr (mkUploaded name (bytesOf outputData)))) as Hconvert.
  { unfold convert, writeFile. rewrite bind_effect. fold w1.
    rewrite (bind_ok _ _ w1 w2 tt) by (by apply exec_ok).
    rewrite (bind_ok _ _ w2 w3 outputData) by (by apply readFile_ok).
    rewrite (bind_ok _ _ w3 w4 tt) by (by apply deleteFile_ok with inputData).
    rewrite (bind_ok _ _ w4 w5 tt).
    2:{ apply deleteFile_ok with outputData. simpl.
        by rewrite lookup_delete_ne. }
    done. }
  pose proof (replaceFirst_spec ".mov" ".mp4" (file_name file)) as Hrenamed.
  fold name in Hrenamed.
  cbv zeta. unfold processFile, tryCatchFinally. rewrite Hmov. fold w.
  rewrite (bind_ok _ _ _ _ _ Hconvert). simpl.
  exists name, (newClip videoDuration now randomText
                  (mkUploaded name (bytesOf outputData))).
  split_and!; try done.
  - eapply renamed_isAscii; [|exact Hascii|exact Hrenamed]. ascii_text.
  - apply beforeDot_spec.
  - by rewrite <-!app_assoc.
  - by rewrite <-!app_assoc.
Qed.

(** X11. A MOV file whose conversion FFmpeg rejects is not
    registered: the error is logged, "Failed to process" is shown, and the
    file system is left as FFmpeg left it, [input.mov] included when FFmpeg
    did not remove it. *)
Theorem processFile_rejected file now randomText p fs message :
  isMov file = true →
  ffmpegExec convertArgs
    (<["input.mov" := Binary (file_content file)]> (vfs (page_world p)))
  = (fs, Some message) →
  let w' := page_world (processFile ffmpegExec videoDuration file now randomText p) in
  availableClips w' = availableClips (page_world p)
  ∧ vfs w' = fs
  ∧ events w'
    = events (page_world p)
      ++ [ConsoleError "Error processing file:" (FfmpegFailure message);
          ToastError ("Failed to process " +:+ file_name file)]
  ∧ calls w'
    = calls (page_world p)
      ++ [WriteFile "input.mov" (Binary (file_content file)); Exec convertArgs].
Proof.
  intros Hmov Hexec.
  set (w := page_world p).
  set (w1 := logCall (WriteFile "input.mov" (Binary (file_content file)))
               (withVfs (<["input.mov" := Binary (file_content file)]> (vfs w)) w)).
  assert (convert ffmpegExec file w
          = (logCall (Exec convertArgs) (withVfs fs w1),
             inl (FfmpegFailure message))) as Hconvert.
  { unfold convert, writeFile. rewrite bind_effect. fold w1.
    by rewrite (bind_err _ _ w1 _ _ (exec_rejected _ _ _ _ _ Hexec)). }
  cbv zeta. unfold processFile, tryCatchFinally. rewrite Hmov. fold w.
  rewrite (bind_err _ _ _ _ _ Hconvert). simpl.
  split_and!; [done|done|by rewrite <-!app_assoc|by rewrite <-!app_assoc].
Qed.

End uploading.

Lemma processFile_converted_witness :
  let w' := page_world (processFile sampleExec sampleDuration sampleTake
                          1700000000000%N "0.5" samplePage) in
  (∃ name clip,
     renamed ".mov" ".mp4" "Hook.mov.mov" name
     ∧ availableClips w' = sampleClips ++ [clip]
     ∧ clip_type clip = detectClipType name)
  ∧ clip_name <$> availableClips w' = (clip_name <$> sampleClips) ++ ["Hook"]
  ∧ events w' = [ToastSuccess "Converted Hook.mov.mov to MP4";
                 ToastSuccess "Uploaded Hook.mp4.mov as hook"]
  ∧ vfs w' = ∅.
Proof.
  intros w'. split.
  - destruct (processFile_converted sampleExec sampleDuration sampleTake
                1700000000000%N "0.5" samplePage
                (<["output.mp4" := Binary [Byte.xff]]>
                   (<["input.mov" := Binary [Byte.x01]]> ∅))
                (Binary [Byte.x01]) (Binary [Byte.xff]))
      as (name & clip & Hname & _ & Hclips & _ & _ & _ & Htype & _);
      [ascii_text|by vm_compute..|].
    by exists name, clip.
  - split_and!; by vm_compute.
Defined.

Lemma processFile_rejected_witness :
  let w' := page_world (processFile failingExec sampleDuration sampleMov
                          1700000000000%N "0.5" samplePage) in
  availableClips w' = sampleClips
  ∧ vfs w' !! "input.mov" = Some (Binary [Byte.x01]).
Proof.
  intros w'.
  destruct (processFile_rejected failingExec sampleDuration sampleMov
              1700000000000%N "0.5" samplePage
              (<["input.mov" := Binary [Byte.x01]]> ∅) "Conversion failed!")
    as (Hclips & Hvfs & _); [by vm_compute..|].
  fold w' in Hclips, Hvfs. rewrite Hclips, Hvfs. split; by vm_compute.
Defined.

(** ** Files of the registry and what an export can throw *)

Lemma filed_files clips : filed clips → ∃ files, clip_file <$> clips = Some <$> files.
Proof.
  induction 1 as [|clip clips [file Hfile] _ [files IH]]; [by exists []|].
  exists (file :: files). by rewrite !fmap_cons, Hfile, IH.
Qed.

Lemma applyChanges_filed changes w :
  filed (availableClips w) → filed (availableClips (applyChanges changes w)).
Proof.
  revert w. induction changes as [|change changes IH]; intros w Hw; [done|].
  unfold applyChanges in *. simpl. apply IH. unfold filed in *.
  destruct change as [clipId newType|clipId|]; simpl.
  - apply Forall_fmap. eapply Forall_impl; [exact Hw|].
    intros clip Hclip. simpl. by case_decide.
  - rewrite Forall_forall in Hw. apply Forall_forall.
    intros clip [_ Hin]%list_elem_of_filter. by apply Hw.
  - constructor.
Qed.

Section throws.
Variable ffmpegExec :
  list string → gmap string FileData → gmap string FileData * option string.

Lemma throwsOnlyFfmpeg_ret {A} (a : A) : throwsOnlyFfmpeg (mret a).
Proof. by intros w e. Qed.

Lemma throwsOnlyFfmpeg_effect g : throwsOnlyFfmpeg (effect g).
Proof. by intros w e. Qed.

Lemma throwsOnlyFfmpeg_bind {A B} (m : Async A) (f : A → Async B) :
  throwsOnlyFfmpeg m → (∀ a, throwsOnlyFfmpeg (f a)) → throwsOnlyFfmpeg (m ≫= f).
Proof.
  intros Hm Hf w e. rewrite bind_run. specialize (Hm w).
  destruct (m w) as [w' [e'|a]]; simpl in *; [|apply Hf].
  intros [= <-]. by apply Hm.
Qed.

Lemma throwsOnlyFfmpeg_when b m : throwsOnlyFfmpeg m → throwsOnlyFfmpeg (when b m).
Proof. intros Hm. destruct b; [done|apply throwsOnlyFfmpeg_ret]. Qed.

Lemma throwsOnlyFfmpeg_forRange start count body :
  (∀ i, throwsOnlyFfmpeg (body i)) → throwsOnlyFfmpeg (forRange start count body).
Proof.
  intros Hb. revert start. induction count as [|count IH]; intros start; simpl.
  - apply throwsOnlyFfmpeg_ret.
  - apply throwsOnlyFfmpeg_bind; [apply Hb|]. intros _. apply IH.
Qed.

Lemma throwsOnlyFfmpeg_readFile path : throwsOnlyFfmpeg (readFile path).
Proof.
  intros w e. unfold readFile. destruct (vfs w !! path); simpl; [done|].
  intros [= <-]. by eexists.
Qed.

Lemma throwsOnlyFfmpeg_deleteFile path : throwsOnlyFfmpeg (deleteFile path).
Proof.
  intros w e. unfold deleteFile. destruct (vfs w !! path); simpl; [done|].
  intros [= <-]. by eexists.
Qed.

Lemma throwsOnlyFfmpeg_exec args : throwsOnlyFfmpeg (exec ffmpegExec args).
Proof.
  intros w e. unfold exec. destruct (ffmpegExec args (vfs w)) as [fs [m|]]; simpl.
  - intros [= <-]. by eexists.
  - done.
Qed.

Lemma throwsOnlyFfmpeg_stageClips clips files i listFileContent :
  clip_file <$> clips = Some <$> files →
  throwsOnlyFfmpeg (stageClips clips i listFileContent).
Proof.
  intros Hfiles w e.
  destruct (stageClips_ok clips files i listFileContent w Hfiles) as (w' & -> & _).
  done.
Qed.

Lemma throwsOnlyFfmpeg_exportBody sequence index files :
  clip_file <$> seq_clips sequence = Some <$> files →
  throwsOnlyFfmpeg (exportBody ffmpegExec sequence index).
Proof.
  intros Hfiles. unfold exportBody, prepare, deliver.
  apply throwsOnlyFfmpeg_bind; [|intros _].
  - apply throwsOnlyFfmpeg_bind; [apply throwsOnlyFfmpeg_effect|intros _].
    apply throwsOnlyFfmpeg_bind;
      [apply throwsOnlyFfmpeg_when, throwsOnlyFfmpeg_effect|intros _].
    apply throwsOnlyFfmpeg_bind;
      [by apply throwsOnlyFfmpeg_stageClips with files|intros text].
    apply throwsOnlyFfmpeg_bind; [apply throwsOnlyFfmpeg_effect|intros _].
    apply throwsOnlyFfmpeg_exec.
  - apply throwsOnlyFfmpeg_bind; [apply throwsOnlyFfmpeg_readFile|intros data].
    destruct index as [i|]; [apply throwsOnlyFfmpeg_ret|].
    apply throwsOnlyFfmpeg_bind; [apply throwsOnlyFfmpeg_effect|intros _].
    apply throwsOnlyFfmpeg_bind;
      [apply throwsOnlyFfmpeg_forRange; intros; apply throwsOnlyFfmpeg_deleteFile
      |intros _].
    apply throwsOnlyFfmpeg_bind; [apply throwsOnlyFfmpeg_deleteFile|intros _].
    apply throwsOnlyFfmpeg_bind; [apply throwsOnlyFfmpeg_deleteFile|intros _].
    apply throwsOnlyFfmpeg_bind;
      [apply throwsOnlyFfmpeg_when, throwsOnlyFfmpeg_effect|intros _].
    apply throwsOnlyFfmpeg_ret.
Qed.

Lemma throwsOnlyFfmpeg_exportSequence sequence index files :
  clip_file <$> seq_clips sequence = Some <$> files →
  throwsOnlyFfmpeg (exportSequence ffmpegExec sequence index).
Proof.
  intros Hfiles w e. destruct (ffmpegReady w) eqn:Hready.
  - rewrite exportSequence_result by done.
    by apply throwsOnlyFfmpeg_exportBody with files.
  - unfold exportSequence. by rewrite Hready.
Qed.

(** X12. Every clip that an upload adds carries its file, and a change
    of role or a removal keeps the files of the clips that stay; so when the
    registry before the upload had its files, every sequence generated
    afterwards consists of clips with files, and its export, with or without
    an index, throws nothing but a failure of FFmpeg: never the error of a
    missing file. *)
Theorem uploaded_clips_export videoDuration uploads stamps changes p random :
  filed (availableClips (page_world p)) →
  let registry :=
    availableClips
      (applyChanges changes
         (page_world (handleFileUpload ffmpegExec videoDuration uploads stamps p))) in
  filed registry
  ∧ ∀ l s index w error,
      generate random registry = Generated l → s ∈ l →
      filed (seq_clips s)
      ∧ ((exportSequence ffmpegExec s index w).2 = inl error →
         ∃ message, error = FfmpegFailure message).
Proof.
  intros Hfiled registry.
  assert (filed registry) as Hregistry.
  { apply applyChanges_filed.
    by apply handleFileUpload_filed. }
  split; [done|]. intros l s index w error Hg Hs.
  assert (filed (seq_clips s)) as Hclips.
  { pose proof (generate_shapes _ _ _ Hg) as Hall.
    rewrite Forall_forall in Hall. destruct (Hall s Hs) as [_ Hin].
    unfold filed in *. rewrite Forall_forall in Hregistry.
    eapply Forall_impl; [exact Hin|]. intros clip. apply Hregistry. }
  split; [done|].
  destruct (filed_files _ Hclips) as [files Hfiles].
  by apply throwsOnlyFfmpeg_exportSequence with files.
Qed.
End throws.

Lemma uploaded_clips_export_witness :
  let registry :=
    availableClips
      (applyChanges [ChangeRole (clip_id samplePointB) Cta]
         (page_world (handleFileUpload sampleExec sampleDuration
                        (Some [sampleMov; sampleMp4]) sampleStamps samplePage))) in
  length registry = 6 ∧ filed registry.
Proof.
  intros registry. split; [by vm_compute|].
  apply (uploaded_clips_export sampleExec sampleDuration (Some [sampleMov; sampleMp4])
           sampleStamps [ChangeRole (clip_id samplePointB) Cta] samplePage
           sampleRandom).
  repeat constructor; by eexists.
Defined.

(** ** The export pipeline: further properties *)

Lemma bind_inr_inv {A B} (m : Async A) (f : A → Async B) w w' b :
  (m ≫= f) w = (w', inr b) → ∃ w1 a, m w = (w1, inr a) ∧ f a w1 = (w', inr b).
Proof.
  rewrite bind_run. destruct (m w) as [w1 [e|a]]; [done|]. intros H. by exists w1, a.
Qed.

Ltac quiet_step := first [by (unfold quiet; intros; simpl)|apply _].
Ltac onlyDeletes_step :=
  first [by (unfold onlyDeletes; intros; simpl)|apply _].

Section exporting.
Variable ffmpegExec :
  list string → gmap string FileData → gmap string FileData * option string.

Lemma prepare_run sequence index w :
  prepare ffmpegExec sequence index w = stageAndConcat ffmpegExec sequence (announced index w).
Proof.
  unfold prepare, stageAndConcat, announced, toast.
  rewrite bind_effect, bind_run, when_run. by destruct (falsy index).
Qed.

Lemma stageAndConcat_quiet sequence : respects quiet (stageAndConcat ffmpegExec sequence).
Proof.
  unfold stageAndConcat.
  apply (respects_bind quiet);
    [apply (respects_stageClips quiet); quiet_step|intros text].
  apply (respects_bind quiet);
    [apply (respects_writeFile quiet); quiet_step|intros _].
  apply (respects_exec quiet); quiet_step.
Qed.

Lemma deliver_batch_quiet sequence i : respects quiet (deliver sequence (Some i)).
Proof.
  unfold deliver.
  apply (respects_bind quiet);
    [apply (respects_readFile quiet); quiet_step|intros data].
  apply (respects_ret quiet).
Qed.

(** What the [try], [catch] and [finally] of a ready export give, from what
    the [try] block gives. *)
Lemma exportSequence_run sequence index w :
  ffmpegReady w = true →
  exportSequence ffmpegExec sequence index w
  = match exportBody ffmpegExec sequence index w with
    | (w1, inr result) =>
        (if falsy index then setLoading false w1 else w1, inr result)
    | (w1, inl error) =>
        (let w2 := emit (ConsoleError "Export error:" error) w1 in
         let w3 := if falsy index
                   then emit (ToastError "Failed to export sequence") w2 else w2 in
         if falsy index then setLoading false w3 else w3,
         inl error)
    end.
Proof.
  intros Hready. unfold exportSequence, tryCatchFinally. rewrite Hready. simpl negb.
  cbv iota. destruct (exportBody ffmpegExec sequence index w) as [w1 [e|a]].
  - unfold toast. rewrite bind_effect, bind_run, !when_run. simpl.
    by destruct (falsy index).
  - rewrite when_run. by destruct (falsy index).
Qed.

(** With an index, a ready export that ends normally showed the notice of
    its start when the index is 0, and nothing else. *)
Lemma exportSequence_batch_events sequence i w w' result :
  ffmpegReady w = true →
  exportSequence ffmpegExec sequence (Some i) w = (w', inr result) →
  events w'
  = events w ++ (if falsy (Some i) then [ToastSuccess "Starting export..."] else []).
Proof.
  intros Hready. rewrite exportSequence_run by done.
  unfold exportBody. rewrite bind_run, prepare_run.
  pose proof (stageAndConcat_quiet sequence (announced (Some i) w)) as [H1 _].
  destruct (stageAndConcat ffmpegExec sequence (announced (Some i) w)) as [w1 [e|[]]];
    [done|].
  pose proof (deliver_batch_quiet sequence i w1) as [H2 _].
  destruct (deliver sequence (Some i) w1) as [w2 [e|a]]; [done|].
  intros [= <- _]. unfold announced in H1.
  destruct i; simpl in *; rewrite H2, H1; [done|]. by rewrite app_nil_r.
Qed.

Lemma exportLoop_events sequences i zip w w' zip' :
  ffmpegReady w = true →
  exportLoop ffmpegExec sequences i zip w = (w', inr zip') →
  events w'
  = events w ++ (if decide (i = 0 ∧ sequences ≠ [])
                 then [ToastSuccess "Starting export..."] else []).
Proof.
  revert i zip w. induction sequences as [|sequence rest IH];
    intros i zip w Hready Hrun.
  - injection Hrun as <- <-. rewrite decide_False by tauto. by rewrite app_nil_r.
  - cbn [exportLoop] in Hrun.
    apply bind_inr_inv in Hrun as (w1 & result & Hexport & Hrun).
    assert (ffmpegReady w1 = true) as Hready1.
    { pose proof (exportSequence_ready ffmpegExec sequence (Some i) w) as Hr.
      rewrite Hexport in Hr. simpl in Hr. congruence. }
    apply IH in Hrun; [|done]. rewrite decide_False in Hrun by lia.
    rewrite Hrun, app_nil_r.
    rewrite (exportSequence_batch_events _ _ _ _ _ Hready Hexport).
    destruct i.
    + by rewrite decide_True.
    + rewrite decide_False by lia. done.
Qed.

(** X13. A ready batch export whose exports all succeed shows
    four things, in this order and whatever the number of sequences: the
    notice of the batch, the notice "Starting export..." once (for the
    sequence of index 0, which [!index] takes for no index), the download
    of the archive, and the notice of completion; it ends with the loading
    flag off. *)
Theorem batch_success_notices w w' zip :
  ffmpegReady w = true → sequences w ≠ [] →
  exportLoop ffmpegExec (sequences w) 0 [] (started w) = (w', inr zip) →
  events (downloadAllSequences ffmpegExec w).1
  = events w ++ [ToastSuccess "Starting batch download...";
                 ToastSuccess "Starting export...";
                 Download "restitched-sequences.zip" (ZipBlob zip);
                 ToastSuccess "All sequences downloaded!"]
  ∧ loading (downloadAllSequences ffmpegExec w).1 = false.
Proof.
  intros Hready Hne Hrun.
  assert (ffmpegReady (started w) = true) as Hstarted by done.
  pose proof (exportLoop_events _ _ _ _ _ _ Hstarted Hrun) as Hevents.
  rewrite decide_True in Hevents by done.
  unfold downloadAllSequences. rewrite Hready.
  rewrite bool_decide_eq_false_2 by (by intros ?%nil_length_inv).
  simpl orb. cbv iota. unfold toast. rewrite !bind_effect.
  change (emit _ (setLoading true w)) with (started w).
  unfold tryCatchFinally. rewrite (bind_ok _ _ _ _ _ Hrun).
  rewrite !bind_effect. simpl. rewrite Hevents. simpl.
  by rewrite <-!app_assoc.
Qed.

(** X14. [downloadAllSequences] never throws, whatever FFmpeg does:
    it ends normally, and once it started it ends with the loading flag
    off. *)
Theorem downloadAllSequences_returns w :
  (downloadAllSequences ffmpegExec w).2 = inr tt
  ∧ (ffmpegReady w = true → sequences w ≠ [] →
     loading (downloadAllSequences ffmpegExec w).1 = false).
Proof.
  unfold downloadAllSequences.
  destruct (negb (ffmpegReady w) || bool_decide (length (sequences w) = 0))
    eqn:Hguard.
  - split; [done|]. intros Hready Hne. rewrite Hready in Hguard. simpl in Hguard.
    apply bool_decide_eq_true, nil_length_inv in Hguard. done.
  - unfold toast. rewrite !bind_effect. unfold tryCatchFinally.
    destruct ((exportLoop ffmpegExec (sequences w) 0 [] ≫= _) _) as [w1 [e|[]]].
    + rewrite !bind_effect. by simpl.
    + by simpl.
Qed.

(** X15. Neither an export nor the batch export changes the registry,
    the sequences or the readiness of FFmpeg. *)
Theorem export_keeps_registry sequence index w :
  sameRegistry w (exportSequence ffmpegExec sequence index w).1
  ∧ sameRegistry w (downloadAllSequences ffmpegExec w).1.
Proof.
  split.
  - apply (respects_exportSequence sameRegistry (λ _, True));
      try done; sameRegistry_step.
  - unfold downloadAllSequences.
    destruct (negb (ffmpegReady w) || bool_decide (length (sequences w) = 0));
      [done|].
    unfold toast. rewrite !bind_effect.
    etrans; [|apply (respects_tryCatchFinally sameRegistry)].
    + done.
    + apply (respects_bind sameRegistry).
      * apply (respects_exportLoop sameRegistry (λ _, True));
          try done; sameRegistry_step.
      * intros zip. apply (respects_bind sameRegistry);
          [apply (respects_effect sameRegistry); sameRegistry_step|intros _].
        apply (respects_effect sameRegistry); sameRegistry_step.
    + intros e. apply (respects_bind sameRegistry);
        [apply (respects_effect sameRegistry); sameRegistry_step|intros _].
      apply (respects_effect sameRegistry); sameRegistry_step.
    + apply (respects_effect sameRegistry); sameRegistry_step.
Qed.
End exporting.

(** ** A single export: what it leaves behind *)

Section single.
Variable ffmpegExec :
  list string → gmap string FileData → gmap string FileData * option string.

Lemma deleteFile_onlyDeletes path w w' :
  deleteFile path w = (w', inr tt) →
  vfs w' !! path = None ∧ onlyDeletes w w' ∧ quiet w w'.
Proof.
  intros ->%deleteFile_inv. simpl. split_and!.
  - apply lookup_delete_eq.
  - intros other Hother. simpl. apply lookup_delete_None. by right.
  - done.
Qed.

(** The loop of lines 308-310, when it ends normally. *)
Lemma forRange_delete start count w w' :
  forRange start count (λ i, deleteFile (inputName i)) w = (w', inr tt) →
  (∀ i, start ≤ i < start + count → vfs w' !! inputName i = None)
  ∧ onlyDeletes w w' ∧ quiet w w'.
Proof.
  revert start w. induction count as [|count IH]; intros start w Hrun.
  - injection Hrun as <-. split_and!; [lia|done|done].
  - cbn [forRange] in Hrun.
    apply bind_inr_inv in Hrun as (w1 & [] & Hdelete & Hrun).
    apply deleteFile_onlyDeletes in Hdelete as (Hgone & Hless & Hquiet).
    apply IH in Hrun as (Hrest & Hless' & Hquiet').
    split_and!; [|by etrans|by etrans].
    intros i Hi. destruct (decide (i = start)) as [->|Hne].
    + by apply Hless'.
    + apply Hrest. lia.
Qed.

Lemma stageAndConcat_events sequence w w' result :
  stageAndConcat ffmpegExec sequence w = (w', result) →
  events w' = events w ∧ loading w' = loading w.
Proof.
  intros Hrun. pose proof (stageAndConcat_quiet ffmpegExec sequence w) as H.
  by rewrite Hrun in H.
Qed.

(** X16. A ready export of one sequence (no index) that ends normally
    returns nothing, leaves none of the files it staged (the inputs, the
    manifest, the output) in FFmpeg's file system, turns the loading flag
    off, and showed exactly: the notice of the start, the download of
    [restitched <id>.mp4] with the bytes FFmpeg wrote, the notice of
    completion. *)
Theorem export_cleans_up sequence w w' result :
  ffmpegReady w = true →
  exportSequence ffmpegExec sequence None w = (w', inr result) →
  result = None
  ∧ loading w' = false
  ∧ (∀ i, i < length (seq_clips sequence) → vfs w' !! inputName i = None)
  ∧ vfs w' !! "list.txt" = None
  ∧ vfs w' !! "output.mp4" = None
  ∧ ∃ outputData,
      events w'
      = events w ++ [ToastSuccess "Starting export...";
                     Download ("restitched " +:+ seq_id sequence +:+ ".mp4")
                       (VideoBlob outputData);
                     ToastSuccess "Export completed!"].
Proof.
  intros Hready. rewrite exportSequence_run by done.
  destruct (exportBody ffmpegExec sequence None w) as [w1 [e|a]] eqn:Hbody;
    [done|].
  intros [= <- <-]. simpl falsy. cbv iota.
  unfold exportBody in Hbody.
  apply bind_inr_inv in Hbody as (w2 & [] & Hprepare & Hdeliver).
  rewrite prepare_run in Hprepare.
  apply stageAndConcat_events in Hprepare as [Hevents2 _].
  unfold deliver in Hdeliver.
  apply bind_inr_inv in Hdeliver as (w3 & outputData & Hread & Hdeliver).
  assert (w3 = logCall (ReadFile "output.mp4") w2) as ->.
  { unfold readFile in Hread. by destruct (vfs w2 !! "output.mp4"); injection Hread. }
  unfold toast in Hdeliver. rewrite bind_effect in Hdeliver.
  apply bind_inr_inv in Hdeliver as (w4 & [] & Hinputs & Hdeliver).
  apply forRange_delete in Hinputs as (Hinputs & _ & Hquiet4 & _).
  apply bind_inr_inv in Hdeliver as (w5 & [] & Hlist & Hdeliver).
  apply deleteFile_onlyDeletes in Hlist as (Hlist & Hless5 & Hquiet5 & _).
  apply bind_inr_inv in Hdeliver as (w6 & [] & Houtput & Hdeliver).
  apply deleteFile_onlyDeletes in Houtput as (Houtput & Hless6 & Hquiet6 & _).
  rewrite bind_run, when_run in Hdeliver. simpl in Hdeliver.
  injection Hdeliver as <- <-. simpl.
  split_and!; [done|done| | |done|].
  - intros i Hi. apply Hless6, Hless5, Hinputs. lia.
  - by apply Hless6.
  - exists outputData. rewrite Hquiet6, Hquiet5, Hquiet4. simpl.
    rewrite Hevents2. unfold announced. simpl. by rewrite <-!app_assoc.
Qed.

(** The staging loop at a clip without a file: the clips before it are
    staged, then the loop throws. *)
Lemma stageClips_missing before clip after files i listFileContent w :
  clip_file <$> before = Some <$> files →
  clip_file clip = None →
  ∃ w',
    stageClips (before ++ clip :: after) i listFileContent w
    = (w', inl (MissingFile (clip_name clip)))
    ∧ calls w' = calls w ++ stagingCalls i files
    ∧ quiet w w'.
Proof.
  intros Hfiles Hmissing.
  revert files i listFileContent w Hfiles.
  induction before as [|staged before IH];
    intros [|file files] i text w Hfiles; try done.
  - exists w. cbn [app stageClips]. rewrite Hmissing. unfold stagingCalls. simpl.
    by rewrite app_nil_r.
  - injection Hfiles as Hfile Hfiles. cbn [app stageClips]. rewrite Hfile.
    unfold writeFile. rewrite bind_effect.
    destruct (IH files (S i) (text +:+ "file " +:+ inputName i +:+ LF)
                (logCall (WriteFile (inputName i) (Binary file))
                   (withVfs (<[inputName i:=Binary file]> (vfs w)) w)) Hfiles)
      as (w' & Hrun & Hcalls & Hquiet).
    exists w'. split_and!; [done| |done].
    rewrite Hcalls. simpl. rewrite <-app_assoc. f_equal.
    unfold stagingCalls. rewrite imap_cons. simpl. rewrite Nat.add_0_r.
    f_equal. apply imap_ext. intros k f _. simpl. do 2 f_equal. lia.
Qed.

(** X17. A ready export stops at the first clip that has no file: it
    throws the error naming that clip, after staging the clips before it
    and nothing else (no manifest, no concatenation, no read); the error is
    logged, and without an index (or with index 0) the notices of start and
    failure are shown and the loading flag is turned off. *)
Theorem export_missing_file sequence index before clip after files w :
  ffmpegReady w = true →
  seq_clips sequence = before ++ clip :: after →
  clip_file <$> before = Some <$> files →
  clip_file clip = None →
  let error := MissingFile (clip_name clip) in
  let w' := (exportSequence ffmpegExec sequence index w).1 in
  (exportSequence ffmpegExec sequence index w).2 = inl error
  ∧ calls w' = calls w ++ stagingCalls 0 files
  ∧ events w'
    = events w
      ++ (if falsy index then [ToastSuccess "Starting export..."] else [])
      ++ [ConsoleError "Export error:" error]
      ++ (if falsy index then [ToastError "Failed to export sequence"] else [])
  ∧ loading w' = negb (falsy index).
Proof.
  intros Hready Hclips Hfiles Hmissing. cbv zeta.
  rewrite exportSequence_run by done.
  unfold exportBody. rewrite bind_run, prepare_run. unfold stageAndConcat.
  rewrite Hclips.
  destruct (stageClips_missing before clip after files 0 "" (announced index w)
              Hfiles Hmissing) as (w1 & Hrun & Hcalls & Hevents & Hloading).
  rewrite (bind_err _ _ _ _ _ Hrun). cbv iota beta.
  unfold announced in *.
  destruct (falsy index); simpl in *; rewrite Hcalls, Hevents;
    split_and!; try done.
  by rewrite <-!app_assoc.
Qed.
End single.

Lemma batch_success_notices_witness :
  ∃ zip,
    events (downloadAllSequences sampleExec (sampleWorld [sampleSequence])).1
    = [ToastSuccess "Starting batch download...";
       ToastSuccess "Starting export...";
       Download "restitched-sequences.zip" (ZipBlob zip);
       ToastSuccess "All sequences downloaded!"].
Proof.
  assert (∃ w' zip,
    exportLoop sampleExec (sequences (sampleWorld [sampleSequence])) 0 []
      (started (sampleWorld [sampleSequence])) = (w', inr zip))
    as (w' & zip & Hrun).
  { eexists _, _. vm_compute. reflexivity. }
  exists zip.
  apply (batch_success_notices sampleExec (sampleWorld [sampleSequence]) w' zip);
    [reflexivity|done|exact Hrun].
Defined.

Lemma downloadAllSequences_returns_witness :
  loading (downloadAllSequences failingExec (sampleWorld [sampleSequence])).1 = false.
Proof.
  apply (downloadAllSequences_returns failingExec (sampleWorld [sampleSequence]));
    [reflexivity|done].
Defined.

Lemma export_cleans_up_witness :
  ∃ w', exportSequence sampleExec sampleSequence None (sampleWorld [sampleSequence])
        = (w', inr None)
        ∧ vfs w' !! "list.txt" = None.
Proof.
  assert (∃ w' result,
    exportSequence sampleExec sampleSequence None (sampleWorld [sampleSequence])
    = (w', inr result)) as (w' & result & Hrun).
  { eexists _, _. vm_compute. reflexivity. }
  destruct (export_cleans_up sampleExec sampleSequence
              (sampleWorld [sampleSequence]) w' result eq_refl Hrun)
    as (-> & _ & _ & Hlist & _).
  by exists w'.
Defined.

Lemma export_missing_file_witness :
  (exportSequence sampleExec brokenSequence None (sampleWorld [brokenSequence])).2
  = inl (MissingFile "sp lost").
Proof.
  apply (export_missing_file sampleExec brokenSequence None
           [sampleHook] lostPoint [sampleCta] [[Byte.x01]]
           (sampleWorld [brokenSequence])); reflexivity.
Defined.

(** ** A single export that succeeds *)

Lemma inputName_inj i j : inputName i = inputName j → i = j.
Proof.
  unfold inputName. intros Heq%(inj (String.app _)).
  by apply string_app_inv_r, (inj pretty) in Heq.
Qed.

Lemma inputName_not_manifest i : inputName i ≠ "list.txt".
Proof. unfold inputName. by rewrite string_app_cons. Qed.

Lemma inputName_not_output i : inputName i ≠ "output.mp4".
Proof. unfold inputName. by rewrite string_app_cons. Qed.

Section succeeding.
Variable ffmpegExec :
  list string → gmap string FileData → gmap string FileData * option string.

Lemma stageClips_vfs clips files i listFileContent w :
  clip_file <$> clips = Some <$> files →
  vfs (stageClips clips i listFileContent w).1 = stagedFrom i files (vfs w).
Proof.
  revert files i listFileContent w.
  induction clips as [|clip rest IH]; intros [|file files] i text w Hfiles;
    try done.
  injection Hfiles as Hfile Hfiles. cbn [stageClips stagedFrom]. rewrite Hfile.
  unfold writeFile. rewrite bind_effect. by rewrite (IH files).
Qed.

(** The loop of lines 308-310 ends normally when the inputs are there; it
    deletes them in order and touches no other file. *)
Lemma forRange_delete_ok start count w :
  (∀ i, start ≤ i < start + count → is_Some (vfs w !! inputName i)) →
  ∃ w',
    forRange start count (λ i, deleteFile (inputName i)) w = (w', inr tt)
    ∧ calls w' = calls w ++ unstagingCalls start count
    ∧ quiet w w'
    ∧ ∀ path, (∀ i, path ≠ inputName i) → vfs w' !! path = vfs w !! path.
Proof.
  revert start w. induction count as [|count IH]; intros start w Hthere.
  - exists w. unfold unstagingCalls. simpl. by rewrite app_nil_r.
  - destruct (Hthere start) as [data Hdata]; [lia|].
    cbn [forRange]. rewrite (bind_ok _ _ _ _ _ (deleteFile_ok _ _ _ Hdata)).
    destruct (IH (S start)
                (logCall (DeleteFile (inputName start))
                   (withVfs (delete (inputName start) (vfs w)) w)))
      as (w' & Hrun & Hcalls & Hquiet & Hother).
    { intros i Hi. simpl. rewrite lookup_delete_ne.
      - apply Hthere. lia.
      - intros ?%inputName_inj. lia. }
    exists w'. split_and!; [done| |done|].
    + rewrite Hcalls. simpl. by rewrite <-app_assoc.
    + intros path Hpath. rewrite Hother by done. simpl.
      by rewrite lookup_delete_ne.
Qed.

(** X18. A ready export of one sequence succeeds when every clip has
    its file and the concatenation, run on the staged files and the
    manifest, reports no failure, keeps them and leaves an output: it then
    returns nothing, offers the output for download between the notices of
    start and completion, and its calls on FFmpeg are exactly the staging
    writes, the manifest, the concatenation, the read of the output, and
    the deletion of every input, of the manifest and of the output. *)
Theorem export_succeeds sequence files fs outputData w :
  ffmpegReady w = true →
  clip_file <$> seq_clips sequence = Some <$> files →
  ffmpegExec concatArgs (staged files (vfs w)) = (fs, None) →
  (∀ i, i < length files → is_Some (fs !! inputName i)) →
  is_Some (fs !! "list.txt") →
  fs !! "output.mp4" = Some outputData →
  ∃ w',
    exportSequence ffmpegExec sequence None w = (w', inr None)
    ∧ events w'
      = events w ++ [ToastSuccess "Starting export...";
                     Download ("restitched " +:+ seq_id sequence +:+ ".mp4")
                       (VideoBlob outputData);
                     ToastSuccess "Export completed!"]
    ∧ calls w'
      = calls w ++ stagingCalls 0 files
        ++ [WriteFile "list.txt" (Text (manifest (length files)));
            Exec concatArgs; ReadFile "output.mp4"]
        ++ unstagingCalls 0 (length files)
        ++ [DeleteFile "list.txt"; DeleteFile "output.mp4"]
    ∧ loading w' = false.
Proof.
  intros Hready Hfiles Hexec Hinputs [listData Hlist] Houtput.
  rewrite exportSequence_run by done.
  unfold exportBody. rewrite bind_run, prepare_run. unfold stageAndConcat.
  pose proof (stageClips_vfs (seq_clips sequence) files 0 "" (announced None w)
                Hfiles) as Hvfs.
  destruct (stageClips_ok (seq_clips sequence) files 0 "" (announced None w)
              Hfiles) as (w1 & Hstage & Hcalls1 & Hevents1).
  rewrite Hstage in Hvfs. simpl in Hvfs.
  rewrite (bind_ok _ _ _ _ _ Hstage). rewrite string_app_nil.
  unfold writeFile. rewrite bind_effect.
  set (w2 := logCall _ (withVfs _ w1)).
  assert (ffmpegExec concatArgs (vfs w2) = (fs, None)) as Hexec2.
  { unfold w2. simpl. rewrite Hvfs. exact Hexec. }
  rewrite (exec_ok _ _ _ _ Hexec2).
  set (w3 := logCall _ (withVfs fs w2)). cbv beta iota.
  unfold deliver.
  rewrite (bind_ok _ _ w3 _ outputData (readFile_ok "output.mp4" w3 _ Houtput)).
  unfold toast. rewrite bind_effect.
  set (w4 := emit _ (logCall _ w3)).
  assert (length (seq_clips sequence) = length files) as Hlength.
  { apply (f_equal length) in Hfiles. by rewrite !length_fmap in Hfiles. }
  destruct (forRange_delete_ok 0 (length (seq_clips sequence)) w4)
    as (w5 & Hloop & Hcalls5 & [Hevents5 _] & Hother).
  { intros i Hi. apply Hinputs. lia. }
  rewrite (bind_ok _ _ _ _ _ Hloop).
  assert (vfs w5 !! "list.txt" = Some listData) as Hlist5.
  { rewrite Hother; [done|]. intros i Heq. by apply (inputName_not_manifest i). }
  rewrite (bind_ok _ _ _ _ _ (deleteFile_ok _ _ _ Hlist5)).
  set (w6 := logCall _ (withVfs _ w5)).
  assert (vfs w6 !! "output.mp4" = Some outputData) as Houtput6.
  { unfold w6. simpl. rewrite lookup_delete_ne by done.
    rewrite Hother; [done|]. intros i Heq. by apply (inputName_not_output i). }
  rewrite (bind_ok _ _ _ _ _ (deleteFile_ok _ _ _ Houtput6)).
  rewrite bind_run, when_run. simpl.
  eexists. split_and!; [reflexivity| | |done].
  - simpl. rewrite Hevents5. simpl. rewrite Hevents1. simpl.
    by rewrite <-!app_assoc.
  - simpl. rewrite Hcalls5. simpl. rewrite Hcalls1, Hlength. simpl.
    by rewrite <-!app_assoc.
Qed.
End succeeding.

Lemma export_succeeds_witness :
  ∃ w',
    exportSequence (writesOutput (Binary [Byte.xff])) sampleSequence None
      (sampleWorld [sampleSequence]) = (w', inr None)
    ∧ loading w' = false.
Proof.
  destruct (export_succeeds (writesOutput (Binary [Byte.xff])) sampleSequence
              [[Byte.x01]; [Byte.x02]; [Byte.x04]]
              (<["output.mp4" := Binary [Byte.xff]]>
                 (staged [[Byte.x01]; [Byte.x02]; [Byte.x04]] ∅))
              (Binary [Byte.xff]) (sampleWorld [sampleSequence]))
    as (w' & Hrun & _ & _ & Hloading).
  - reflexivity.
  - reflexivity.
  - reflexivity.
  - intros i Hi. simpl in Hi.
    destruct i as [|[|[|i]]]; [eexists; vm_compute; reflexivity..|lia].
  - eexists. vm_compute. reflexivity.
  - vm_compute. reflexivity.
  - by exists w'.
Defined.

(** ** The batch export: how a failure is reported *)

(** With an index, a ready export that throws showed the error on the
    console; the notices of the start and of the failure are shown with
    it when the index is 0, which [!index] takes for no index. *)
Lemma exportSequence_batch_failure ffmpegExec sequence i w w' error :
  ffmpegReady w = true →
  exportSequence ffmpegExec sequence (Some i) w = (w', inl error) →
  events w'
  = events w
    ++ (if decide (i = 0) then [ToastSuccess "Starting export..."] else [])
    ++ [ConsoleError "Export error:" error]
    ++ (if decide (i = 0) then [ToastError "Failed to export sequence"] else []).
Proof.
  intros Hready. rewrite exportSequence_run by done.
  unfold exportBody. rewrite bind_run, prepare_run.
  pose proof (stageAndConcat_quiet ffmpegExec sequence (announced (Some i) w))
    as [H1 _].
  destruct (stageAndConcat ffmpegExec sequence (announced (Some i) w))
    as [w1 [e|[]]].
  - intros [= <- <-]. unfold announced in H1.
    destruct i; simpl in *; rewrite H1; [|done]. by rewrite <-!app_assoc.
  - pose proof (deliver_batch_quiet sequence i w1) as [H2 _].
    destruct (deliver sequence (Some i) w1) as [w2 [e|a]]; [|done].
    intros [= <- <-]. unfold announced in H1.
    destruct i; simpl in *; rewrite H2, H1; [|done]. by rewrite <-!app_assoc.
Qed.

(** C5, as the code has it. When the export of the sequence at index [i]
    throws in the batch export, after the exports before it succeeded, the
    batch ends there without throwing: it logs the error that was thrown
    and shows the notice of failure, makes no further call on FFmpeg, so the
    sequences after [i] are not exported, and triggers no download, so no
    archive is produced.  The report names the error and not the index: what
    is shown depends on [i] only through [i = 0], where the failed export
    itself adds its notice "Failed to export sequence" (for [!index] holds
    at index 0); at every other index the report is the same. *)
Theorem batch_export_fails_fast ffmpegExec w i sequence w1 zip w2 error :
  ffmpegReady w = true →
  sequences w !! i = Some sequence →
  exportLoop ffmpegExec (take i (sequences w)) 0 [] (started w) = (w1, inr zip) →
  exportSequence ffmpegExec sequence (Some i) w1 = (w2, inl error) →
  (downloadAllSequences ffmpegExec w).2 = inr tt
  ∧ events (downloadAllSequences ffmpegExec w).1
    = events w
      ++ [ToastSuccess "Starting batch download...";
          ToastSuccess "Starting export...";
          ConsoleError "Export error:" error]
      ++ (if decide (i = 0) then [ToastError "Failed to export sequence"] else [])
      ++ [ConsoleError "Batch download error:" error;
          ToastError "Failed to download all sequences"]
  ∧ calls (downloadAllSequences ffmpegExec w).1 = calls w2
  ∧ vfs (downloadAllSequences ffmpegExec w).1 = vfs w2
  ∧ (∀ filename content,
       Download filename content ∈ events (downloadAllSequences ffmpegExec w).1 →
       Download filename content ∈ events w).
Proof.
  intros Hready Hi Hbefore Hfail.
  assert (exportLoop ffmpegExec (sequences w) 0 [] (started w) = (w2, inl error))
    as Hrun.
  { rewrite <-(take_drop_middle _ _ _ Hi) at 1.
    eapply exportLoop_throws; [exact Hbefore|].
    rewrite length_take_le by (apply lookup_lt_Some in Hi; lia). exact Hfail. }
  assert (downloadAllSequences ffmpegExec w
          = (setLoading false
               (emit (ToastError "Failed to download all sequences")
                  (emit (ConsoleError "Batch download error:" error) w2)),
             inr tt)) as ->.
  { unfold downloadAllSequences. rewrite Hready.
    rewrite bool_decide_eq_false_2
      by (intros Hlen%nil_length_inv; by rewrite Hlen in Hi).
    simpl orb. cbv iota. unfold toast. rewrite !bind_effect.
    change (emit _ (setLoading true w)) with (started w).
    unfold tryCatchFinally. rewrite (bind_err _ _ _ _ _ Hrun).
    by rewrite !bind_effect. }
  assert (ffmpegReady w1 = true) as Hready1.
  { assert (respects sameSetup (exportLoop ffmpegExec (take i (sequences w)) 0 []))
      as Hsame
      by (apply respects_exportLoop with (allowed := λ _, True);
          try apply _; try done; sameSetup_step).
    specialize (Hsame (started w)). rewrite Hbefore in Hsame.
    destruct Hsame as [Hsame _]. simpl in Hsame. congruence. }
  assert (events w2
          = events w
            ++ [ToastSuccess "Starting batch download...";
                ToastSuccess "Starting export...";
                ConsoleError "Export error:" error]
            ++ (if decide (i = 0)
                then [ToastError "Failed to export sequence"] else []))
    as Hevents.
  { rewrite (exportSequence_batch_failure _ _ _ _ _ _ Hready1 Hfail).
    rewrite (exportLoop_events _ _ _ _ _ _ _ (Hready : ffmpegReady (started w) = true)
               Hbefore).
    destruct i as [|i].
    - rewrite decide_False by (simpl; tauto). simpl.
      by rewrite <-!app_assoc.
    - rewrite decide_True.
      + simpl. by rewrite <-!app_assoc.
      + split; [done|]. destruct (sequences w); [done|]. done. }
  simpl. split_and!; [done| |done|done|].
  - rewrite Hevents. by rewrite <-!app_assoc.
  - intros filename content Hin.
    apply elem_of_app in Hin as [Hin|Hin%list_elem_of_singleton]; [|done].
    apply elem_of_app in Hin as [Hin|Hin%list_elem_of_singleton]; [|done].
    pose proof (exportSequence_noDownload ffmpegExec sequence i w1) as H2.
    rewrite Hfail in H2. apply H2 in Hin.
    pose proof (exportLoop_noDownload ffmpegExec (take i (sequences w)) 0 []
                  (started w)) as H1.
    rewrite Hbefore in H1. apply H1 in Hin. simpl in Hin.
    by apply elem_of_app in Hin as [Hin|Hin%list_elem_of_singleton].
Qed.

Lemma batch_export_fails_fast_witness :
  let later := sampleWorld [sampleSequence; brokenSequence; sampleSequence] in
  let first := sampleWorld [brokenSequence; sampleSequence] in
  (events (downloadAllSequences sampleExec later).1
   = [ToastSuccess "Starting batch download...";
      ToastSuccess "Starting export...";
      ConsoleError "Export error:" (MissingFile "sp lost");
      ConsoleError "Batch download error:" (MissingFile "sp lost");
      ToastError "Failed to download all sequences"]
   ∧ length (calls (downloadAllSequences sampleExec later).1) = 7)
  ∧ events (downloadAllSequences sampleExec first).1
    = [ToastSuccess "Starting batch download...";
       ToastSuccess "Starting export...";
       ConsoleError "Export error:" (MissingFile "sp lost");
       ToastError "Failed to export sequence";
       ConsoleError "Batch download error:" (MissingFile "sp lost");
       ToastError "Failed to download all sequences"].
Proof.
  intros later first. split.
  - assert (∃ w1 zip w2,
              exportLoop sampleExec (take 1 (sequences later)) 0 [] (started later)
              = (w1, inr zip)
              ∧ exportSequence sampleExec brokenSequence (Some 1) w1
                = (w2, inl (MissingFile "sp lost"))
              ∧ length (calls w2) = 7)
      as (w1 & zip & w2 & Hbefore & Hfail & Hcalls).
    { eexists _, _, _. split_and!; vm_compute; reflexivity. }
    destruct (batch_export_fails_fast sampleExec later 1 brokenSequence w1 zip w2
                (MissingFile "sp lost") eq_refl eq_refl Hbefore Hfail)
      as (_ & Hevents & Hcalls' & _).
    by rewrite Hevents, Hcalls'.
  - assert (∃ w2,
              exportSequence sampleExec brokenSequence (Some 0) (started first)
              = (w2, inl (MissingFile "sp lost"))) as (w2 & Hfail).
    { eexists. vm_compute. reflexivity. }
    destruct (batch_export_fails_fast sampleExec first 0 brokenSequence
                (started first) [] w2 (MissingFile "sp lost")
                eq_refl eq_refl eq_refl Hfail) as (_ & Hevents & _).
    by rewrite Hevents.
Defined.

(** Against C5 as stated: two batches of three sequences, one failing at
    index 1 and one at index 2, end with the same report, so the report does
    not tell which of the two indexes failed. *)
Lemma batch_failure_hides_index :
  let first := sampleWorld [sampleSequence; brokenSequence; sampleSequence] in
  let second := sampleWorld [sampleSequence; sampleSequence; brokenSequence] in
  (∃ w1 zip w2,
     exportLoop sampleExec [sampleSequence] 0 [] (started first) = (w1, inr zip)
     ∧ exportSequence sampleExec brokenSequence (Some 1) w1
       = (w2, inl (MissingFile "sp lost")))
  ∧ (∃ w1 zip w2,
       exportLoop sampleExec [sampleSequence; sampleSequence] 0 [] (started second)
       = (w1, inr zip)
       ∧ exportSequence sampleExec brokenSequence (Some 2) w1
         = (w2, inl (MissingFile "sp lost")))
  ∧ events (downloadAllSequences sampleExec first).1
    = events (downloadAllSequences sampleExec second).1
  ∧ (downloadAllSequences sampleExec first).2
    = (downloadAllSequences sampleExec second).2.
Proof.
  intros first second. split_and!.
  - eexists _, _, _. split; vm_compute; reflexivity.
  - eexists _, _, _. split; vm_compute; reflexivity.
  - by vm_compute.
  - by vm_compute.
Qed.

